(** * easyVoice: segmented text-to-speech orchestration

    A shallow embedding of the Edge TTS protocol client ([EdgeTTS]) and of
    the orchestration service ([generateTTS] and the functions it calls),
    with the properties of the design specification stated over them.

    JavaScript strings are modelled by [string]; one [ascii] stands for one
    code unit, so [text.split('')] is [list_ascii_of_string] and [s[i]] is
    [String.get i s] ([None] for [undefined]).  Tick counts are integers
    ([Z]); a time in milliseconds is an integer or [NaN] ([number]). *)

From Stdlib Require Import ZArith Lia List Ascii String.
From Stdlib Require Import DecimalString DecimalPos DecimalZ.
From Stdlib.Strings Require Import Byte.
From Stdlib Require Import Floats.SpecFloat.
From stdpp Require Import base tactics option list strings gmap sorting.

Local Open Scope Z_scope.
Local Open Scope string_scope.
Local Open Scope list_scope.

(** ** Subtitle cues *)

(** A JavaScript number that is a whole number, or [NaN]. *)
Inductive number := Int (z : Z) | NaN.

Coercion Int : Z >-> number.

Global Instance number_eq_dec : EqDecision number.
Proof. solve_decision. Defined.

(** [type subLine = { part: string; start: number; end: number }] *)
Record subLine := SubLine { part : string; start : number; end_ : number }.

Global Instance subLine_eq_dec : EqDecision subLine.
Proof. solve_decision. Defined.

Definition concatParts (subFile : list subLine) : string :=
  foldr (fun cue acc => part cue +:+ acc) EmptyString subFile.

(** ** JavaScript string and number helpers *)

Definition LF : string := String (ascii_of_nat 10) EmptyString.
Definition CR : string := String (ascii_of_nat 13) EmptyString.
Definition CRLF : string := CR +:+ LF.
Definition DQ : string := String (ascii_of_nat 34) EmptyString.

(** A value between double quotes, as it stands in a template literal. *)
Definition q (s : string) : string := DQ +:+ s +:+ DQ.

(** [s.includes(needle)] *)
Fixpoint includes (s needle : string) : bool :=
  String.prefix needle s
  || match s with
     | EmptyString => false
     | String _ s' => includes s' needle
     end.

(** [s.startsWith(p)] *)
Definition startsWith (s p : string) : bool := String.prefix p s.

(** The last element of [s.split('\r\n')]. *)
Fixpoint lastPiece (s cur : string) : string :=
  match s with
  | EmptyString => cur
  | String c s' =>
      match s' with
      | String c' s'' =>
          if decide (c = ascii_of_nat 13 /\ c' = ascii_of_nat 10)
          then lastPiece s'' EmptyString
          else lastPiece s' (cur +:+ String c EmptyString)
      | EmptyString => cur +:+ String c EmptyString
      end
  end.

(** [String(n)] for an integer [n]. *)
Definition showZ (n : Z) : string := NilZero.string_of_int (Z.to_int n).

(** [Buffer.toString('hex')] *)
Definition hexDigit (n : N) : ascii :=
  nth (N.to_nat n) (list_ascii_of_string "0123456789abcdef") "0"%char.

Definition toHex (buf : list byte) : string :=
  string_of_list_ascii
    (flat_map (fun b => [hexDigit (Byte.to_N b / 16); hexDigit (Byte.to_N b mod 16)]) buf).

Global Instance byte_eq_decision : EqDecision byte := Byte.byte_eq_dec.

(** [data.indexOf(separator)] on a [Buffer]; [-1] when there is none. *)
Fixpoint indexOf (data sep : list byte) (i : Z) : Z :=
  if decide (take (length sep) data = sep) then i
  else match data with
       | [] => -1
       | _ :: data' => indexOf data' sep (i + 1)
       end.

(** ** The Edge TTS protocol client (class [EdgeTTS]) *)

Module EdgeTTS.

(** [type configure], after the constructor has filled in the defaults. *)
Record configure := Configure {
  voice : string;
  lang : string;
  outputFormat : string;
  saveSubtitles : bool;
  proxy : string;
  rate : string;
  pitch : string;
  volume : string;
  timeout : Z
}.

Definition defaults : configure :=
  {| voice := "zh-CN-XiaoyiNeural"; lang := "zh-CN";
     outputFormat := "audio-24khz-48kbitrate-mono-mp3";
     saveSubtitles := false; proxy := EmptyString;
     rate := "default"; pitch := "default"; volume := "default";
     timeout := 10000 |}.

(** The frame sent by the ['open'] handler of [_connectWebSocket]. *)
Definition speechConfig (cfg : configure) : string :=
  "Content-Type:application/json; charset=utf-8" +:+ CRLF +:+ "Path:speech.config" +:+ CRLF +:+ CRLF +:+ LF +:+
    "          {" +:+ LF +:+
    "            " +:+ q "context" +:+ ": {" +:+ LF +:+
    "              " +:+ q "synthesis" +:+ ": {" +:+ LF +:+
    "                " +:+ q "audio" +:+ ": {" +:+ LF +:+
    "                  " +:+ q "metadataoptions" +:+ ": {" +:+ LF +:+
    "                    " +:+ q "sentenceBoundaryEnabled" +:+ ": " +:+ q "false" +:+ "," +:+ LF +:+
    "                    " +:+ q "wordBoundaryEnabled" +:+ ": " +:+ q "true" +:+ LF +:+
    "                  }," +:+ LF +:+
    "                  " +:+ q "outputFormat" +:+ ": " +:+ q (outputFormat cfg) +:+ LF +:+
    "                }" +:+ LF +:+
    "              }" +:+ LF +:+
    "            }" +:+ LF +:+
    "          }" +:+ LF +:+
    "        ".

(** The frame sent at the end of the executor of [ttsPromise]. *)
Definition ssml (cfg : configure) (requestId text : string) : string :=
  "X-RequestId:" +:+ requestId +:+ CRLF +:+ "Content-Type:application/ssml+xml" +:+ CRLF +:+ "Path:ssml" +:+ CRLF +:+ CRLF +:+ LF +:+
    "        <speak version=" +:+ q "1.0" +:+ " xmlns=" +:+ q "http://www.w3.org/2001/10/synthesis" +:+ " xmlns:mstts=" +:+ q "https://www.w3.org/2001/mstts" +:+ " xml:lang=" +:+ q (lang cfg) +:+ ">" +:+ LF +:+
    "          <voice name=" +:+ q (voice cfg) +:+ ">" +:+ LF +:+
    "            <prosody rate=" +:+ q (rate cfg) +:+ " pitch=" +:+ q (pitch cfg) +:+ " volume=" +:+ q (volume cfg) +:+ ">" +:+ LF +:+
    "              " +:+ text +:+ LF +:+
    "            </prosody>" +:+ LF +:+
    "          </voice>" +:+ LF +:+
    "        </speak>".

(** [randomBytes(16).toString('hex')], for the bytes the generator gave. *)
Definition requestIdOf (randomBytes : list byte) : string := toHex randomBytes.


(** The inner [for] loop of [_saveSubFile] for one cue.  [rest] is
    [subChars] from index [sci] on; the result is [fullPart] and, when the
    loop left through [break], the value assigned to [subCharIndex]. *)
Fixpoint scanCue (cuePart : string) (next0 : option ascii) (rest : list ascii)
    (sci stepIndex : nat) (fullPart : string) : string * option nat :=
  match rest with
  | [] => (fullPart, None)
  | c :: rest' =>
      if decide (String.get stepIndex cuePart = Some c) then
        scanCue cuePart next0 rest' (S sci) (S stepIndex)
                (fullPart +:+ String c EmptyString)
      else if decide (next0 = Some c) then (fullPart, Some sci)
      else
        scanCue cuePart next0 rest' (S sci) stepIndex
                (fullPart +:+ String c EmptyString)
  end.

(** [subFile?.[index + 1]?.part?.[0]] *)
Definition nextFirst (subFile : list subLine) (index : nat) : option ascii :=
  subFile !! S index ≫= fun nxt => String.get 0 (part nxt).

(** One call of the [forEach] callback: the array is updated in place
    ([cue.part = fullPart]) and [subCharIndex] moves only on [break]. *)
Definition cueStep (subChars : list ascii) (st : list subLine * nat)
    (index : nat) : list subLine * nat :=
  let '(subFile, subCharIndex) := st in
  match subFile !! index with
  | None => st
  | Some cue =>
      let '(fullPart, brk) :=
        scanCue (part cue) (nextFirst subFile index)
                (drop subCharIndex subChars) subCharIndex 0 EmptyString in
      (<[index := SubLine fullPart (start cue) (end_ cue)]> subFile,
       default subCharIndex brk)
  end.

(** [_saveSubFile(subFile, text, audioPath)]: the cue array written to
    [audioPath + '.json']. *)
Definition _saveSubFile (subFile : list subLine) (text : string) : list subLine :=
  fst (foldl (cueStep (list_ascii_of_string text)) (subFile, 0%nat)
             (seq 0 (length subFile))).

(** The same pass by recursion on the cues still to be rewritten. *)
Fixpoint rebuild (subChars : list ascii) (cues : list subLine)
    (subCharIndex : nat) : list subLine :=
  match cues with
  | [] => []
  | cue :: later =>
      let '(fullPart, brk) :=
        scanCue (part cue) (nextFirst cues 0)
                (drop subCharIndex subChars) subCharIndex 0 EmptyString in
      SubLine fullPart (start cue) (end_ cue)
        :: rebuild subChars later (default subCharIndex brk)
  end.

(** Whether the scan of every cue but the last one left through [break]. *)
Fixpoint everyScanStops (subChars : list ascii) (cues : list subLine)
    (subCharIndex : nat) : bool :=
  match cues with
  | [] | [_] => true
  | cue :: later =>
      match snd (scanCue (part cue) (nextFirst cues 0)
                         (drop subCharIndex subChars) subCharIndex 0 EmptyString) with
      | Some k => everyScanStops subChars later k
      | None => false
      end
  end.


(** *** Reading a frame back *)

(** What follows a carriage return when a blank line starts there. *)
Definition afterBlankLine (rest : string) : option string :=
  match rest with
  | String "010" (String "013" (String "010" body)) => Some body
  | _ => None
  end%char.

(** Header block and body of a frame: what stands before and after the
    first blank line (CR LF CR LF). *)
Fixpoint splitFrame (frame : string) : option (string * string) :=
  match frame with
  | EmptyString => None
  | String c rest =>
      match (if Ascii.eqb c "013" then afterBlankLine rest else None) with
      | Some body => Some (EmptyString, body)
      | None =>
          match splitFrame rest with
          | Some (header, body) => Some (String c header, body)
          | None => None
          end
      end
  end.

(** A text without its blanks and line ends, to compare JSON texts. *)
Definition jsonSpace (c : ascii) : bool :=
  bool_decide (nat_of_ascii c ∈ [9; 10; 13; 32]%nat).

Definition compact (s : string) : string :=
  string_of_list_ascii
    (filter (fun c => jsonSpace c = false) (list_ascii_of_string s)).

Definition isHexChar (c : ascii) : bool :=
  bool_decide (c ∈ list_ascii_of_string "0123456789abcdef").

(** *** Events of one socket and the two promises *)

Inductive timer := ConnectTimer | TurnTimer.

Inductive wsEvent :=
| Open
| TextMessage (message : string)
| BinaryMessage (data : list byte)
| Error (message : string)
| Close (code : Z) (reason : string)
| Timeout (t : timer).

Inductive settled := Pending | Resolved | Rejected (reason : string).

(** [resolve()] and [reject(e)] settle a promise once. *)
Definition settle (now new : settled) : settled :=
  match now with Pending => new | _ => now end.

(** State of the promise built by [_connectWebSocket]. *)
Inductive state := CONNECTING | OPEN | CLOSED.

Global Instance state_eq_dec : EqDecision state.
Proof. solve_decision. Defined.

Record connection := Connection {
  readyState : state;
  connPromise : settled;
  connTimer : bool;          (* [timeoutId] still pending *)
  connSent : list string;    (* frames passed to [wsConnect.send] *)
  connClosed : bool          (* [wsConnect.close()] was called *)
}.

Definition connecting : connection :=
  {| readyState := CONNECTING; connPromise := Pending; connTimer := true;
     connSent := []; connClosed := false |}.

Definition onConnect (cfg : configure) (c : connection) (ev : wsEvent) : connection :=
  match ev with
  | Open =>
      {| readyState := OPEN;
         connPromise := settle (connPromise c) Resolved; connTimer := false;
         connSent := connSent c ++ [speechConfig cfg]; connClosed := connClosed c |}
  | Error message =>
      {| readyState := readyState c;
         connPromise := settle (connPromise c) (Rejected ("WebSocket error: " +:+ message));
         connTimer := false; connSent := connSent c; connClosed := connClosed c |}
  | Close code reason =>
      {| readyState := CLOSED;
         connPromise :=
           if decide (code = 1000) then connPromise c
           else settle (connPromise c)
                  (Rejected ("WebSocket closed unexpectedly with code " +:+ showZ code
                             +:+ ": " +:+ reason));
         connTimer := false; connSent := connSent c; connClosed := connClosed c |}
  | Timeout ConnectTimer =>
      if connTimer c then
        {| readyState := readyState c;
           connPromise := settle (connPromise c) (Rejected "WebSocket connection timed out");
           connTimer := false; connSent := connSent c; connClosed := true |}
      else c
  | _ => c
  end.

(** [element['Data']] of one entry of [metadata['Metadata']] that has its
    [text]: [text.Text] is a string, as the type of [subLine.part] says;
    [Offset] and [Duration] are whole numbers of ticks or are missing
    ([undefined], here [None]).  The numbers and their sum are of a size
    below 2^53, where [Math.floor] of the double quotient by 10000 is the
    floor of the exact quotient. *)
Record boundary := Boundary {
  Text : string; Offset : option Z; Duration : option Z
}.

(** A field read as a number: [undefined] counts as [NaN]. *)
Definition toNumber (x : option Z) : number :=
  match x with Some z => Int z | None => NaN end.

(** [x + y] on numbers *)
Definition plusNumber (x y : number) : number :=
  match x, y with
  | Int a, Int b => Int (a + b)
  | _, _ => NaN
  end.

(** [Math.floor(x / d)] for a positive whole [d] *)
Definition floorDiv (x : number) (d : Z) : number :=
  match x with
  | Int a => Int (a / d)
  | NaN => NaN
  end.

(** The cue pushed for one metadata entry. *)
Definition cueOf (d : boundary) : subLine :=
  {| part := Text d;
     start := floorDiv (toNumber (Offset d)) 10000;
     end_ := floorDiv (plusNumber (toNumber (Offset d)) (toNumber (Duration d))) 10000 |}.

(** The [forEach] inside [try]: entries are pushed one by one.  Reading
    [element['Data']['text']['Text']] throws when [Data] or its [text] is
    missing, here the entry [None]: the [catch] takes over, that entry and
    what follows it in the array are dropped, and what was pushed stays.
    Nothing else in the callback throws: an entry without [Offset] or
    [Duration] is pushed with [NaN] for the times computed from them. *)
Fixpoint pushCues (subFile : list subLine) (entries : list (option boundary))
    : list subLine :=
  match entries with
  | Some d :: entries' => pushCues (subFile ++ [cueOf d]) entries'
  | _ => subFile
  end.

(** State of the promise built by [ttsPromise] once the socket is there. *)
Record turn := Turn {
  promise : settled;
  turnTimer : bool;               (* [timeout] still pending *)
  turnSent : list string;         (* frames passed to [_wsConnect.send] *)
  audioStream : list (list byte); (* chunks written before [audioStream.end()] *)
  streamEnded : bool;             (* [audioStream.end()] was called *)
  lateWrites : list (list byte);  (* chunks given to [audioStream.write] after it *)
  wsClosed : bool;                (* [_wsConnect.close()] was called *)
  subFile : list subLine;
  subPath : option (list subLine) (* content of [audioPath + '.json'] *)
}.

Section Handlers.

(** [JSON.parse(s)['Metadata']] as the list of its entries' [Data]; [None]
    for an entry without [Data] or without [Data.text]; the empty list when
    [JSON.parse] throws or there is no such array. *)
Variable parseMetadata : string -> list (option boundary).

Variable cfg : configure.
Variable text : string.
Variable requestId : string.

Definition separator : list byte := list_byte_of_string ("Path:audio" +:+ CRLF).

Definition audioData (data : list byte) : list byte :=
  drop (Z.to_nat (indexOf data separator 0 + Z.of_nat (length separator))) data.

Definition isTurnEnd (message : string) : bool := includes message "Path:turn.end".
Definition isMetadata (message : string) : bool := includes message "Path:audio.metadata".

Definition beginTurn : turn :=
  {| promise := Pending; turnTimer := true;
     turnSent := [ssml cfg requestId text];
     audioStream := []; streamEnded := false; lateWrites := [];
     wsClosed := false; subFile := []; subPath := None |}.

(** [audioStream.write(chunk)].  The code calls it for every binary frame,
    whatever happened before.  A stream that was ended takes no more data:
    Node refuses the chunk with a write-after-end error on the stream, for
    which [ttsPromise] has no listener; [lateWrites] keeps such chunks. *)
Definition streamWrite (t : turn) (chunk : list byte) : turn :=
  if streamEnded t then
    {| promise := promise t; turnTimer := turnTimer t; turnSent := turnSent t;
       audioStream := audioStream t; streamEnded := true;
       lateWrites := lateWrites t ++ [chunk]; wsClosed := wsClosed t;
       subFile := subFile t; subPath := subPath t |}
  else
    {| promise := promise t; turnTimer := turnTimer t; turnSent := turnSent t;
       audioStream := audioStream t ++ [chunk]; streamEnded := false;
       lateWrites := lateWrites t; wsClosed := wsClosed t;
       subFile := subFile t; subPath := subPath t |}.

Definition onTurn (t : turn) (ev : wsEvent) : turn :=
  match ev with
  | BinaryMessage data => streamWrite t (audioData data)
  | TextMessage message =>
      if isTurnEnd message then
        let saved := if saveSubtitles cfg then _saveSubFile (subFile t) text
                     else subFile t in
        {| promise := settle (promise t) Resolved; turnTimer := false;
           turnSent := turnSent t; audioStream := audioStream t;
           streamEnded := true; lateWrites := lateWrites t; wsClosed := true;
           subFile := saved;
           subPath := if saveSubtitles cfg then Some saved else subPath t |}
      else if isMetadata message then
        {| promise := promise t; turnTimer := turnTimer t; turnSent := turnSent t;
           audioStream := audioStream t; streamEnded := streamEnded t;
           lateWrites := lateWrites t; wsClosed := wsClosed t;
           subFile := pushCues (subFile t) (parseMetadata (lastPiece message EmptyString));
           subPath := subPath t |}
      else t
  | Error message =>
      {| promise := settle (promise t)
                      (Rejected ("WebSocket error during transmission: " +:+ message));
         turnTimer := false; turnSent := turnSent t; audioStream := audioStream t;
         streamEnded := true; lateWrites := lateWrites t; wsClosed := true;
         subFile := subFile t; subPath := subPath t |}
  | Close code reason =>
      if decide (code = 1000) then
        {| promise := promise t; turnTimer := false; turnSent := turnSent t;
           audioStream := audioStream t; streamEnded := streamEnded t;
           lateWrites := lateWrites t; wsClosed := wsClosed t;
           subFile := subFile t; subPath := subPath t |}
      else
        {| promise := settle (promise t)
                        (Rejected ("WebSocket closed unexpectedly during transmission with code "
                                   +:+ showZ code +:+ ": " +:+ reason));
           turnTimer := false; turnSent := turnSent t; audioStream := audioStream t;
           streamEnded := true; lateWrites := lateWrites t; wsClosed := wsClosed t;
           subFile := subFile t; subPath := subPath t |}
  | Timeout TurnTimer =>
      if turnTimer t then
        {| promise := settle (promise t) (Rejected "Timed out");
           turnTimer := false; turnSent := turnSent t; audioStream := audioStream t;
           streamEnded := streamEnded t; lateWrites := lateWrites t;
           wsClosed := true;
           subFile := subFile t; subPath := subPath t |}
      else t
  | _ => t
  end.

(** One call of [ttsPromise]: [await this._connectWebSocket()], and when it
    returns, the executor of the second promise. *)
Record session := Session { conn : connection; job : option turn }.

Definition onEvent (s : session) (ev : wsEvent) : session :=
  let c := onConnect cfg (conn s) ev in
  match job s with
  | Some t => {| conn := c; job := Some (onTurn t ev) |}
  | None =>
      match connPromise c with
      | Resolved => {| conn := c; job := Some beginTurn |}
      | _ => {| conn := c; job := None |}
      end
  end.

Definition _connectWebSocket (events : list wsEvent) : connection :=
  foldl (onConnect cfg) connecting events.

Definition ttsPromise (events : list wsEvent) : session :=
  foldl onEvent {| conn := connecting; job := None |} events.

(** What the caller of [ttsPromise] observes. *)
Definition outcome (s : session) : settled :=
  match job s with
  | Some t => promise t
  | None => match connPromise (conn s) with
            | Rejected e => Rejected e
            | _ => Pending
            end
  end.

(** Every frame sent on the socket, in order. *)
Definition sent (s : session) : list string :=
  connSent (conn s) ++ from_option turnSent [] (job s).

End Handlers.

(** *** Which event lists can occur

    The socket opens once and only while connecting, a message needs an
    open socket, a closed socket does not close again, and a timer callback
    runs only while its timer is pending: [setTimeout] fires once and
    [clearTimeout] cancels it. *)
Definition canOccur (s : session) (ev : wsEvent) : bool :=
  match ev with
  | Open => bool_decide (readyState (conn s) = CONNECTING)
  | TextMessage _ | BinaryMessage _ => bool_decide (readyState (conn s) = OPEN)
  | Close _ _ => negb (bool_decide (readyState (conn s) = CLOSED))
  | Error _ => true
  | Timeout ConnectTimer => connTimer (conn s)
  | Timeout TurnTimer => from_option turnTimer false (job s)
  end.

Section Feasible.

Variable parseMetadata : string -> list (option boundary).
Variable cfg : configure.
Variable text : string.
Variable requestId : string.

Fixpoint feasibleFrom (s : session) (events : list wsEvent) : bool :=
  match events with
  | [] => true
  | ev :: events' =>
      canOccur s ev
      && feasibleFrom (onEvent parseMetadata cfg text requestId s ev) events'
  end.

Definition feasible (events : list wsEvent) : bool :=
  feasibleFrom {| conn := connecting; job := None |} events.

End Feasible.

(** The events after which the promise cannot resolve any more. *)
Definition abnormal (ev : wsEvent) : bool :=
  match ev with
  | Error _ | Timeout _ => true
  | Close code _ => negb (code =? 1000)%Z
  | _ => false
  end.

Definition turnEnd (ev : wsEvent) : bool :=
  match ev with
  | TextMessage m => includes m "Path:turn.end"
  | _ => false
  end.

Definition decisive (ev : wsEvent) : bool := turnEnd ev || abnormal ev.



(** *** What the server sent *)

(** The entries of one metadata array up to the first unreadable one. *)
Fixpoint readable (entries : list (option boundary)) : list boundary :=
  match entries with
  | Some d :: entries' => d :: readable entries'
  | _ => []
  end.

(** [pattern] stands somewhere in [s]. *)
Definition contains (s pattern : string) : Prop :=
  exists front back, s = front +:+ pattern +:+ back.

(** [line] is what follows the last line break of [s]; all of [s] when it
    has no line break. *)
Definition lastLine (s line : string) : Prop :=
  ~ contains line CRLF
  /\ (s = line \/ exists front, s = front +:+ CRLF +:+ line).

(** [ms] is the number of whole milliseconds in a count of ticks of 100
    nanoseconds, the floor of [ticks / 10000]; [NaN] without a count. *)
Definition floorMs (ticks : option Z) (ms : number) : Prop :=
  match ticks, ms with
  | Some x, Int z => 10000 * z <= x < 10000 * z + 10000
  | None, NaN => True
  | _, _ => False
  end.

Definition sumTicks (x y : option Z) : option Z :=
  match x, y with
  | Some a, Some b => Some (a + b)
  | _, _ => None
  end.

(** Start and end of a cue, in milliseconds. *)
Definition times (cue : subLine) : number * number := (start cue, end_ cue).

(** The times a cue for the boundary [d] is to have. *)
Definition timesFor (d : boundary) (se : number * number) : Prop :=
  floorMs (Offset d) se.1
  /\ floorMs (sumTicks (Offset d) (Duration d)) se.2.

(** The cue for the boundary [d]. *)
Definition cueFor (d : boundary) (cue : subLine) : Prop :=
  part cue = Text d /\ timesFor d (times cue).

Section Received.

Variable parseMetadata : string -> list (option boundary).

(** The boundaries an event brings: for a text frame that has
    [Path:audio.metadata] and not [Path:turn.end], the entries of the array
    written on its last line, up to the first unreadable one; none for
    anything else. *)
Inductive brings : wsEvent -> list boundary -> Prop :=
| brings_metadata message json :
    ~ contains message "Path:turn.end" ->
    contains message "Path:audio.metadata" ->
    lastLine message json ->
    brings (TextMessage message) (readable (parseMetadata json))
| brings_turnEnd message :
    contains message "Path:turn.end" ->
    brings (TextMessage message) []
| brings_other message :
    ~ contains message "Path:turn.end" ->
    ~ contains message "Path:audio.metadata" ->
    brings (TextMessage message) []
| brings_nothing ev :
    (forall message, ev <> TextMessage message) ->
    brings ev [].

End Received.

(** What the message handler takes from an event: the entries it pushes
    cues for, and the chunk it gives to the stream. *)
Section Taken.

Variable parseMetadata : string -> list (option boundary).

Definition boundariesOf (events : list wsEvent) : list boundary :=
  flat_map (fun ev =>
    match ev with
    | TextMessage m =>
        if isTurnEnd m then []
        else if isMetadata m then readable (parseMetadata (lastPiece m EmptyString))
        else []
    | _ => []
    end) events.


End Taken.


(** *** Invariants of a session *)

Section Invariants.

Variable cfg : configure.
Variable text : string.
Variable requestId : string.

(** While nothing decisive has happened the promise is pending, a socket
    that is open has its turn started, and a started turn has cleared the
    connect timer. *)
Definition waiting (s : session) : Prop :=
  outcome s = Pending /\
  (job s = None ->
   connPromise (conn s) = Pending /\ readyState (conn s) <> OPEN) /\
  (is_Some (job s) -> connTimer (conn s) = false).


Definition isOpen (ev : wsEvent) : bool :=
  match ev with Open => true | _ => false end.

(** What has been sent, given whether the socket has opened. *)
Definition sending (opened : bool) (s : session) : Prop :=
  connSent (conn s) = (if opened then [speechConfig cfg] else []) /\
  (opened = true -> readyState (conn s) <> CONNECTING) /\
  match job s with
  | Some t => opened = true /\ turnSent t = [ssml cfg requestId text]
  | None => connPromise (conn s) <> Resolved
  end.

End Invariants.

End EdgeTTS.

(** ** Paths, file names and sorting

    [path] of Node on POSIX, for paths that do not end in a slash. *)

Fixpoint takeWhile {A} (f : A -> bool) (l : list A) : list A :=
  match l with
  | x :: l' => if f x then x :: takeWhile f l' else []
  | [] => []
  end.

Definition isNot (c : ascii) (x : ascii) : bool := negb (bool_decide (x = c)).

(** [path.basename(p)] *)
Definition basename (p : string) : string :=
  string_of_list_ascii
    (reverse (takeWhile (isNot "/") (reverse (list_ascii_of_string p)))).

(** [path.extname(p)]: from the last dot of the base name on; empty when
    there is no dot, when the only dot leads the name, and for [..]. *)
Definition extname (p : string) : string :=
  let base := reverse (list_ascii_of_string (basename p)) in
  let ext := takeWhile (isNot ".") base in
  if decide (length ext = length base) then EmptyString
  else if decide (S (length ext) = length base) then EmptyString
  else if decide (basename p = "..") then EmptyString
  else string_of_list_ascii ("."%char :: reverse ext).

(** [path.parse(p).name] *)
Definition parseName (p : string) : string :=
  let base := basename p in
  String.substring 0 (String.length base - String.length (extname p)) base.

(** [s.split('_')[0]] *)
Definition beforeUnderscore (s : string) : string :=
  string_of_list_ascii (takeWhile (isNot "_") (list_ascii_of_string s)).

(** [s.toLowerCase()] on code units below 256. *)
Definition lowerChar (c : ascii) : ascii :=
  let n := nat_of_ascii c in
  if decide ((65 <= n <= 90)%nat \/ ((192 <= n <= 222)%nat /\ n <> 215%nat))
  then ascii_of_nat (n + 32) else c.

Definition toLowerCase (s : string) : string :=
  string_of_list_ascii (map lowerChar (list_ascii_of_string s)).

(** [Number(s)] on the strings a file name can start with: the empty string
    is 0, an optionally negated run of decimal digits is its value, and
    anything else is [NaN], here [None].  (JavaScript also reads blanks,
    fractions, exponents and radix prefixes.) *)
Definition Number (s : string) : option Z :=
  if decide (s = EmptyString) then Some 0
  else Z.of_int <$> NilZero.int_of_string s.

(** The characters [showZ] writes a positive number with. *)
Definition isDigit (c : ascii) : bool :=
  bool_decide (c ∈ list_ascii_of_string "0123456789").

(** [s.replace(pattern, replacement)] with a string pattern: the first
    occurrence only. *)
Definition replace (s pattern replacement : string) : string :=
  match String.index 0 pattern s with
  | Some n =>
      String.substring 0 n s +:+ replacement
      +:+ String.substring (n + String.length pattern)
            (String.length s - n - String.length pattern) s
  | None => s
  end.

(** [Array.prototype.sort(compare)] is stable; with [compare] a difference
    of numbers an element moves in front of another one only when the
    difference is negative ([NaN] counts as zero). *)
Section Sort.

Context {A : Type} (key : A -> option Z).

Definition before (a b : A) : bool :=
  match key a, key b with
  | Some x, Some y => bool_decide (x - y < 0)
  | _, _ => false
  end.

Fixpoint insertSorted (x : A) (l : list A) : list A :=
  match l with
  | y :: l' => if before y x then y :: insertSorted x l' else x :: l
  | [] => [x]
  end.

Definition sortBy (l : list A) : list A := foldr insertSorted [] l.

End Sort.

(** ** The orchestration service ([generateTTS]) *)

(** [safeFileName]: slash, backslash, question mark, percent, star, colon,
    bar, double quote, angle brackets, hash and white space become [-]. *)
Definition unsafeChar (c : ascii) : bool :=
  bool_decide (nat_of_ascii c ∈
    [47; 92; 63; 37; 42; 58; 124; 34; 60; 62; 13; 10; 35;
     9; 11; 12; 32; 160]%nat).

Definition isSpace (c : ascii) : bool :=
  bool_decide (nat_of_ascii c ∈ [9; 10; 11; 12; 13; 32; 160]%nat).

Fixpoint dropWhile {A} (f : A -> bool) (l : list A) : list A :=
  match l with
  | x :: l' => if f x then dropWhile f l' else l
  | [] => []
  end.

(** [s.trim()] *)
Definition trim (s : string) : string :=
  string_of_list_ascii
    (reverse (dropWhile isSpace (reverse (dropWhile isSpace (list_ascii_of_string s))))).

Definition safeFileName (fileName : string) : string :=
  string_of_list_ascii
    (map (fun c => if unsafeChar c then "-"%char else c)
         (list_ascii_of_string fileName)).

(** [generateId], with the value [Date.now()] gave. *)
Definition generateId (now : Z) (voice text : string) : string :=
  voice +:+ "-" +:+ String.substring 0 10 (safeFileName text) +:+ "-"
  +:+ showZ now +:+ ".mp3".

(** [sortAudioDir(fileList, ext)] *)
Definition sortAudioDir (fileList : list string) (ext : string) : list string :=
  sortBy (fun file => Number (beforeUnderscore (parseName file)))
         (filter (fun file => toLowerCase (extname file) = ext) fileList).

(** A JavaScript exception. *)
Record error := Err { name : string; message : string }.

Global Instance error_eq_dec : EqDecision error.
Proof. solve_decision. Defined.

Definition Error_ (message : string) : error := Err "Error" message.

Module ErrorMessages.

Definition ENG_MODEL_INVALID_TEXT : string :=
  "English model cannot process non-English text".
Definition INVALID_API_RESPONSE : string :=
  "Invalid API response: no TTS parameters returned".
Definition INVALID_PARAMS_FORMAT : string := "Invalid TTS parameters format".
Definition INCOMPLETE_RESULT : string := "Incomplete TTS result".

End ErrorMessages.

(** [TTSResult]: [{ audio, srt, partial? }]. *)
Record TTSResult := Result { audio : string; srt : string; partial : option bool }.

Global Instance TTSResult_eq_dec : EqDecision TTSResult.
Proof. solve_decision. Defined.

(** [Required<EdgeSchema>], the request. *)
Record EdgeSchema := Request {
  text : string; pitch : string; voice : string; rate : string;
  volume : string; useLLM : bool
}.

(** [TTSParams], also a [BuildSegment]. *)
Record TTSParams := Params {
  p_text : string; p_pitch : string; p_voice : string; p_rate : string;
  p_volume : string; p_output : string
}.

Record Segment := { id : string; s_text : string }.

(** What [splitText] returns. *)
Record Split := { length_ : nat; segments : list string }.

(** Outcome of one job, as [MapLimitController] reports it. *)
Inductive jobResult :=
| Fulfilled (value : TTSResult)      (* [{ success: true, value }] *)
| Failed (e : error).                (* [{ success: false, error }] *)

Definition success (r : jobResult) : bool :=
  match r with Fulfilled _ => true | Failed _ => false end.

(** The reply of the language model, parsed: of [result] only whether it is
    absent (or falsy), an array, or something else is looked at; [output]
    is passed on to [runEdgeTTS]. *)
Inductive resultField := NoResult | ArrayResult | OtherResult.
Record llmResponse := { result_ : resultField; output : string }.

(** What the service does to the outside, in order. *)
Inductive effect :=
| Synthesize (output : string)               (* a session with the speech service opens *)
| Synthesized (output : string) (ok : bool)  (* and ends *)
| ChatCompletion (prompt : string)           (* a request to the language model *)
| CacheHit (key : string)
| CacheSet (key : string) (value : TTSResult)
| GenerateSrt (jsonPath srtPath : string)
| UpdateProgress (taskId : string) (percent : Z)
| ConcatAudio (files : list string) (outputFile : string)
| ConcatSrt (jsonFiles : list string) (srtFile : string).

Definition remoteCall (e : effect) : bool :=
  match e with
  | Synthesize _ | Synthesized _ _ | ChatCompletion _ => true
  | _ => false
  end.

(** The audio cache and the trace of effects. *)
Record world := World { cache : gmap string TTSResult; log : list effect }.

Inductive result (A : Type) :=
| Return (a : A)
| Throw (e : error).
Arguments Return {A} a.
Arguments Throw {A} e.

(** Code that reads and writes the [world] and may throw. *)
Definition M (A : Type) : Type := world -> result A * world.

Definition ret {A} (a : A) : M A := fun w => (Return a, w).
Definition throw {A} (e : error) : M A := fun w => (Throw e, w).
Definition bind {A B} (c : M A) (k : A -> M B) : M B :=
  fun w => match c w with
           | (Return a, w') => k a w'
           | (Throw e, w') => (Throw e, w')
           end.
Definition emit (e : effect) : M unit :=
  fun w => (Return tt, {| cache := cache w; log := log w ++ [e] |}).

Notation "'let*' x := c 'in' k" := (bind c (fun x => k))
  (at level 10, x name, c at level 100, k at level 200).
Notation "'do' c 'then' k" := (bind c (fun _ => k))
  (at level 10, c at level 100, k at level 200).

(** Modelled from the spec: [audioCacheInstance] (audioCache.service is not
    in src): [getAudio(key)] gives the prior result or none, [setAudio]
    persists the result under the key. *)
Definition getAudio (key : string) : M (option TTSResult) :=
  fun w => (Return (cache w !! key), w).

Definition setAudio (key : string) (value : TTSResult) : M unit :=
  fun w => (Return tt, {| cache := <[key := value]> (cache w);
                          log := log w ++ [CacheSet key value] |}).

(** JavaScript numbers are binary64 doubles: [SFdiv 53 1024] and
    [SFmul 53 1024] of the Standard Library are the division and the
    multiplication of IEEE 754 on them, rounded to the nearest double, ties
    to even.  [double n] is the double for a whole number, [n] itself
    below 2^53. *)
Definition double (n : Z) : spec_float := binary_normalize 53 1024 n 0 false.

(** [Number(x.toFixed(2))] as a count of hundredths, so 100 is [10000]:
    [toFixed(2)] prints the whole [n] for which [n / 100] is nearest to
    the exact value of [x], the larger one of two.  [NaN] and the
    infinities print as such and have no hundredths; they are given as 0
    here. *)
Definition toFixed2 (x : spec_float) : Z :=
  match x with
  | S754_finite s m e =>
      let n := if decide (e < 0)
               then (200 * Zpos m + 2 ^ (- e)) / 2 ^ (1 - e)
               else 100 * Zpos m * 2 ^ e in
      if s then - n else n
  | _ => 0
  end.

(** [Number(((handledLength / length) * 100).toFixed(2))].  A job calls it
    after it has counted itself, so with [length] at least 1 and no [NaN]. *)
Definition getProgress (handledLength length : nat) : Z :=
  toFixed2 (SFmul 53 1024
              (SFdiv 53 1024 (double (Z.of_nat handledLength))
                             (double (Z.of_nat length)))
              (double 100)).

Definition percent100 : Z := 10000.

(** *** Reading the trace *)

(** A job is over: its session has ended, or the cache had its audio. *)
Definition jobEnded (e : effect) : bool :=
  match e with Synthesized _ _ | CacheHit _ => true | _ => false end.

(** A session ended well. *)
Definition synthOk (e : effect) : bool :=
  match e with Synthesized _ true => true | _ => false end.

(** A session ended in failure. *)
Definition synthFailed (e : effect) : bool :=
  match e with Synthesized _ false => true | _ => false end.

(** The percentages given to [updateProgress], in order. *)
Definition reports (l : list effect) : list Z :=
  flat_map (fun e => match e with UpdateProgress _ p => [p] | _ => [] end) l.

(** The keys written to the cache, with the values. *)
Definition cacheWrites (l : list effect) : list (string * TTSResult) :=
  flat_map (fun e => match e with CacheSet k v => [(k, v)] | _ => [] end) l.

(** The cache after the writes of a trace. *)
Definition applyWrites (writes : list (string * TTSResult))
    (m : gmap string TTSResult) : gmap string TTSResult :=
  foldl (fun m kv => <[kv.1 := kv.2]> m) m writes.

(** The inputs of the audio merges, in order. *)
Definition merges (l : list effect) : list (list string) :=
  flat_map (fun e => match e with ConcatAudio files _ => [files] | _ => [] end) l.

(** The percentage each report carries: the sessions that ended well before
    it, out of [total]. *)
Fixpoint countedReports (total k : nat) (l : list effect) : list Z :=
  match l with
  | [] => []
  | e :: l' =>
      let k' := if synthOk e then S k else k in
      match e with
      | UpdateProgress _ _ => getProgress k' total :: countedReports total k' l'
      | _ => countedReports total k' l'
      end
  end.

Section Service.

(** *** What the service is given *)

(** [taskManager.generateTaskId({ text, pitch, voice, rate, volume })] *)
Variable generateTaskId : string -> string -> string -> string -> string -> string.
(** [splitText] of text.service *)
Variable splitText : string -> Split.
(** [franc], the language detector *)
Variable franc : string -> string.
(** [getPrompt(lang, voiceList, text)] with the voice list of voice.json *)
Variable getPrompt : string -> string -> string.
(** [AUDIO_DIR] and [STATIC_DOMAIN] of the configuration, [Date.now()] *)
Variable AUDIO_DIR : string.
Variable STATIC_DOMAIN : string.
Variable now : Z.
(** The speech service: the error of the session that writes [output], if
    it fails. *)
Variable synthesisError : string -> option error.
(** The language model: the parsed reply to a prompt, or the error. *)
Variable chatCompletion : string -> error + llmResponse.
(** The order in which running jobs finish: in round [r] the job at
    position [finishOrder r] (modulo their number) of the running ones. *)
Variable finishOrder : nat -> nat.

(** [path.resolve(dir, name)] for a plain [name]. *)
Definition resolve (dir name_ : string) : string := dir +:+ "/" +:+ name_.

(** [getLangConfig(text)].lang *)
Definition getLangConfig (text : string) : string :=
  let lang := franc text in
  if decide (lang = "cmn") then "zh" else lang.

(** Modelled from the spec: [runEdgeTTS] and [generateSingleVoice]
    (utils/spawn and edge-tts.service are not in src): one session with the
    speech service per call; a job succeeds with its audio path and cue
    path, the files it was told to write, or fails with an error. *)
Definition runEdgeTTS (output : string) : M TTSResult :=
  do emit (Synthesize output) then
  match synthesisError output with
  | Some e => do emit (Synthesized output false) then throw e
  | None =>
      do emit (Synthesized output true) then
      ret {| audio := output; srt := replace output ".mp3" ".srt"; partial := None |}
  end.

Definition generateSingleVoice (params : TTSParams) : M TTSResult :=
  runEdgeTTS (p_output params).

(** The language and voice check fails for this request. *)
Definition mismatch (params : EdgeSchema) : Prop :=
  getLangConfig (text params) <> "eng"
  /\ startsWith (voice params) "en" = true.

(** [validateLangAndVoice] *)
Definition validateLangAndVoice (lang voice : string) : M unit :=
  if negb (bool_decide (lang = "eng")) && startsWith voice "en"
  then throw (Error_ ErrorMessages.ENG_MODEL_INVALID_TEXT)
  else ret tt.

(** [validateTTSResult]; [result] is [None] for [undefined], and reading
    [audio] of it is a [TypeError]. *)
Definition validateTTSResult (result : option TTSResult) (segmentId : string)
    : M TTSResult :=
  match result with
  | None => throw (Err "TypeError" "Cannot read properties of undefined (reading 'audio')")
  | Some r =>
      if decide (audio r = EmptyString)
      then throw (Error_ (ErrorMessages.INCOMPLETE_RESULT +:+ " for segment " +:+ segmentId))
      else ret r
  end.

(** [fetchLLMSegment] *)
Definition fetchLLMSegment (prompt : string) : M llmResponse :=
  do emit (ChatCompletion prompt) then
  match chatCompletion prompt with
  | inl e => throw e
  | inr r => ret r
  end.

(** [generateWithLLM]; the branch for several segments only logs and so
    returns [undefined]. *)
Definition generateWithLLM (segment : Segment) (lang : string)
    : M (option TTSResult) :=
  let sp := splitText (trim (s_text segment)) in
  if decide (length_ sp <= 1)%nat then
    let* llmResponse := fetchLLMSegment (getPrompt lang (s_text segment)) in
    match result_ llmResponse with
    | OtherResult =>
        throw (Error_ "LLM response is not an array, please switch to Edge TTS mode or use another model")
    | _ =>
        let* r := runEdgeTTS (output llmResponse) in
        ret (Some r)
    end
  else ret None.

(** [buildSegment] with [dir = '']. *)
Definition buildSegment (segment : Segment) (params : TTSParams) : M TTSResult :=
  let output := resolve AUDIO_DIR (id segment) in
  let* _ := generateSingleVoice
         {| p_text := s_text segment; p_pitch := p_pitch params;
            p_voice := p_voice params; p_rate := p_rate params;
            p_volume := p_volume params; p_output := output |} in
  do emit (GenerateSrt (output +:+ ".json") (replace output ".mp3" ".srt")) then
  ret {| audio := STATIC_DOMAIN +:+ "/" +:+ id segment;
         srt := STATIC_DOMAIN +:+ "/" +:+ replace (id segment) ".mp3" ".srt";
         partial := None |}.

(** [concatDirAudio]; the external concatenation tool is taken to produce
    the file. *)
Definition concatDirAudio (fileList : list string) (outputFile : string) : M unit :=
  let mp3Files := sortAudioDir fileList ".mp3" in
  if decide (mp3Files = []) then throw (Error_ "No MP3 files found in input directory")
  else emit (ConcatAudio mp3Files outputFile).

(** [concatDirSrt] *)
Definition concatDirSrt (fileList : list string) (outputFile : string) : M unit :=
  let jsonFiles := sortAudioDir (map (fun file => file +:+ ".json") fileList) ".json" in
  if decide (jsonFiles = []) then throw (Error_ "No JSON files found for subtitles")
  else emit (ConcatSrt jsonFiles (replace outputFile ".mp3" ".srt")).

(** *** [buildSegmentList]: the jobs and the pool that runs them *)

(** The variables the job closures share, and the state of the pool. *)
Record pool := Pool {
  fileList : list string;
  handledLength : nat;
  results : gmap nat jobResult;
  running : list nat;          (* jobs that await their session *)
  started : nat               (* jobs started so far *)
}.

Section Jobs.

Variable tmpDirPath : string.
Variable segments_ : list TTSParams.
Variable task : option string.

Definition outputOf (index : nat) : string :=
  resolve tmpDirPath (showZ (Z.of_nat index + 1) +:+ "_splits.mp3").

Definition keyOf (seg : TTSParams) : string :=
  generateTaskId (p_text seg) (p_pitch seg) (p_voice seg) (p_rate seg) (p_volume seg).

(** The job up to its first wait: the cache is asked; on a hit the job is
    over, otherwise a session opens. *)
Definition startJob (index : nat) (seg : TTSParams) (st : pool * world) : pool * world :=
  let '(p, w) := st in
  match cache w !! keyOf seg with
  | Some c =>
      ({| fileList := fileList p ++ [audio c]; handledLength := handledLength p;
          results := <[index := Fulfilled c]> (results p);
          running := running p; started := S (started p) |},
       {| cache := cache w; log := log w ++ [CacheHit (keyOf seg)] |})
  | None =>
      ({| fileList := fileList p; handledLength := handledLength p;
          results := results p;
          running := running p ++ [index]; started := S (started p) |},
       {| cache := cache w; log := log w ++ [Synthesize (outputOf index)] |})
  end.

(** The rest of the job, once its session has ended. *)
Definition finishJob (index : nat) (seg : TTSParams) (st : pool * world) : pool * world :=
  let '(p, w) := st in
  let output := outputOf index in
  let others := filter (fun j => j <> index) (running p) in
  match synthesisError output with
  | Some e =>
      ({| fileList := fileList p; handledLength := handledLength p;
          results := <[index := Failed e]> (results p);
          running := others; started := started p |},
       {| cache := cache w; log := log w ++ [Synthesized output false] |})
  | None =>
      let res := {| audio := output; srt := replace output ".mp3" ".srt";
                    partial := None |} in
      let handled := S (handledLength p) in
      ({| fileList := fileList p ++ [audio res]; handledLength := handled;
          results := <[index := Fulfilled res]> (results p);
          running := others; started := started p |},
       {| cache := <[keyOf seg := res]> (cache w);
          log := log w ++ [Synthesized output true]
                 ++ from_option
                      (fun taskId => [UpdateProgress taskId
                                        (getProgress handled (length segments_))])
                      [] task
                 ++ [CacheSet (keyOf seg) res] |})
  end.

(** Modelled from the spec: [MapLimitController] (concurrency.controller is
    not in src): at most [limit] jobs run at a time; when a slot is free the
    next job not yet started, in the original order, is started; a failure
    is recorded at the position of its job and stops nothing; the run is
    complete when every job is over. *)
Fixpoint admission (limit fuel : nat) (st : pool * world) : pool * world :=
  match fuel with
  | O => st
  | S fuel' =>
      if decide (length (running st.1) < limit)%nat then
        match segments_ !! started st.1 with
        | Some seg => admission limit fuel' (startJob (started st.1) seg st)
        | None => st
        end
      else st
  end.

Fixpoint rounds (limit fuel round : nat) (st : pool * world) : pool * world :=
  match fuel with
  | O => st
  | S fuel' =>
      let st := admission limit (length segments_) st in
      match running st.1 !! (finishOrder round mod length (running st.1))%nat with
      | Some index =>
          match segments_ !! index with
          | Some seg => rounds limit fuel' (S round) (finishJob index seg st)
          | None => st
          end
      | None => st
      end
  end.

Definition runConcurrentTasks (limit : nat) (w : world) : pool * world :=
  rounds limit (S (length segments_)) 0
         ({| fileList := []; handledLength := 0; results := ∅;
             running := []; started := 0 |}, w).

(** *** Invariants of the pool *)

(** What a job may do to the outside. *)
Definition jobEffect (e : effect) : Prop :=
  match e with
  | CacheSet k v =>
      partial v = None /\
      exists index seg,
        segments_ !! index = Some seg /\ k = keyOf seg /\ audio v = outputOf index
  | UpdateProgress taskId _ => task = Some taskId
  | Synthesize _ | Synthesized _ _ | CacheHit _ => True
  | _ => False
  end.

(** The state of the pool after some steps, [new] being what was logged. *)
Definition pooled (w0 : world) (st : pool * world) : Prop :=
  exists new,
    log st.2 = log w0 ++ new /\
    cache st.2 = applyWrites (cacheWrites new) (cache w0) /\
    (handledLength st.1 + length (running st.1) <= started st.1)%nat /\
    (started st.1 <= length segments_)%nat /\
    Forall (fun i => (i < started st.1)%nat) (running st.1) /\
    NoDup (running st.1) /\
    (length (filter (fun e => jobEnded e = true) new) + length (running st.1)
     = started st.1)%nat /\
    length (filter (fun e => synthOk e = true) new) = handledLength st.1 /\
    (forall i, (i < started st.1)%nat ->
               i ∈ running st.1 \/ is_Some (results st.1 !! i)) /\
    Forall jobEffect new /\
    reports new = countedReports (length segments_) 0 new.

(** Jobs not yet over. *)
Definition pending (st : pool * world) : nat :=
  (length segments_ - started st.1 + length (running st.1))%nat.

(** The state of the pool as long as no job found its audio in the cache:
    [ended] are the jobs that succeeded, in the order in which they got
    over, and no segment still to start has an entry in the cache. *)
Definition listed (st : pool * world) : Prop :=
  exists ended : list nat,
    fileList st.1 = map outputOf ended /\
    NoDup ended /\
    (forall i, i ∈ ended <-> success <$> results st.1 !! i = Some true) /\
    (forall i, is_Some (results st.1 !! i) ->
               (i < started st.1)%nat /\ i ∉ running st.1) /\
    (started st.1 <= length segments_)%nat /\
    Forall (fun i => (i < started st.1)%nat) (running st.1) /\
    Forall (fun seg => cache st.2 !! keyOf seg = None)
           (drop (started st.1) segments_).

(** Failed sessions are on record: the trace since [w0] has the end of a
    failed session only if some job has the result [Failed]; the jobs with
    a result are started and run no more. *)
Definition recorded (w0 : world) (st : pool * world) : Prop :=
  exists new,
    log st.2 = log w0 ++ new /\
    (forall o, Synthesized o false ∈ new ->
               exists i e, results st.1 !! i = Some (Failed e)) /\
    (forall i, is_Some (results st.1 !! i) ->
               (i < started st.1)%nat /\ i ∉ running st.1) /\
    Forall (fun i => (i < started st.1)%nat) (running st.1).

End Jobs.

(** [results?.some((result) => !result.success)] *)
Definition someFailed (results : gmap nat jobResult) (n : nat) : bool :=
  existsb (fun i => match results !! i with
                    | Some r => negb (success r)
                    | None => false
                    end) (seq 0 n).

(** The jobs that succeeded, by index. *)
Definition survivors (results : gmap nat jobResult) (n : nat) : list nat :=
  filter (fun i => success <$> results !! i = Some true) (seq 0 n).

(** [buildSegmentList] *)
Definition buildSegmentList (segment : Segment) (segments_ : list TTSParams)
    (task : option string) : M TTSResult :=
  fun w =>
    let tmpDirPath := resolve AUDIO_DIR (replace (id segment) ".mp3" EmptyString) in
    let '(p, w) := runConcurrentTasks tmpDirPath segments_ task 3 w in
    let partial_ := someFailed (results p) (length segments_) in
    let outputFile := resolve AUDIO_DIR (id segment) in
    (do concatDirAudio (fileList p) outputFile then
     do concatDirSrt (fileList p) outputFile then
     do from_option (fun taskId => emit (UpdateProgress taskId percent100)) (ret tt) task then
     ret {| audio := STATIC_DOMAIN +:+ "/" +:+ id segment;
            srt := STATIC_DOMAIN +:+ "/" +:+ replace (id segment) ".mp3" ".srt";
            partial := Some partial_ |}) w.

(** [generateWithoutLLM] *)
Definition generateWithoutLLM (segment : Segment) (params : TTSParams)
    (task : option string) : M TTSResult :=
  let sp := splitText (p_text params) in
  if decide (length_ sp <= 1)%nat then buildSegment segment params
  else
    buildSegmentList segment
      (map (fun seg => {| p_text := seg; p_pitch := p_pitch params;
                          p_voice := p_voice params; p_rate := p_rate params;
                          p_volume := p_volume params; p_output := p_output params |})
           (segments sp))
      task.

(** [generateTTS] *)
Definition generateTTS (params : EdgeSchema) (task : option string) : M TTSResult :=
  let cacheKey := generateTaskId (text params) (pitch params) (voice params)
                                 (rate params) (volume params) in
  let* cached := getAudio cacheKey in
  match cached with
  | Some c => ret c
  | None =>
      let segment := {| id := generateId now (voice params) (text params);
                        s_text := text params |} in
      let lang := getLangConfig (s_text segment) in
      do validateLangAndVoice lang (voice params) then
      let* result :=
        (if useLLM params then
           generateWithLLM segment lang
         else
           let* r := generateWithoutLLM segment
                  {| p_text := text params; p_pitch := pitch params;
                     p_voice := voice params; p_rate := rate params;
                     p_volume := volume params; p_output := id segment |}
                  task in
           ret (Some r)) in
      let* result := validateTTSResult result (id segment) in
      do (if decide (partial result = Some true) then ret tt
          else setAudio cacheKey result) then
      ret result
  end.

(** *** Names used in the statements *)

Definition tmpDirOf (segment : Segment) : string :=
  resolve AUDIO_DIR (replace (id segment) ".mp3" EmptyString).

(** What [buildSegmentList] does once the jobs are over. *)
Definition mergeTail (segment : Segment) (task : option string) (p : pool)
    : list effect :=
  [ConcatAudio (sortAudioDir (fileList p) ".mp3") (resolve AUDIO_DIR (id segment));
   ConcatSrt (sortAudioDir (map (fun file => file +:+ ".json") (fileList p)) ".json")
             (replace (resolve AUDIO_DIR (id segment)) ".mp3" ".srt")]
  ++ from_option (fun taskId => [UpdateProgress taskId percent100]) [] task.

(** The segments of a request, as [generateWithoutLLM] builds them. *)
Definition segmentsOf (params : EdgeSchema) (output : string) : list TTSParams :=
  map (fun seg => {| p_text := seg; p_pitch := pitch params;
                     p_voice := voice params; p_rate := rate params;
                     p_volume := volume params; p_output := output |})
      (segments (splitText (text params))).

Definition cacheKeyOf (params : EdgeSchema) : string :=
  generateTaskId (text params) (pitch params) (voice params)
                 (rate params) (volume params).

(** No segment has the key of the whole request. *)
Definition segmentKeysDiffer (params : EdgeSchema) : Prop :=
  Forall (fun seg =>
            generateTaskId seg (pitch params) (voice params) (rate params)
                           (volume params)
            <> cacheKeyOf params)
         (segments (splitText (text params))).

End Service.

(** ** Sample inputs *)

Module Sample.

(** A stand-in for the task key: the fields, joined. *)
Definition generateTaskId (text pitch voice rate volume : string) : string :=
  text +:+ "|" +:+ pitch +:+ "|" +:+ voice +:+ "|" +:+ rate +:+ "|" +:+ volume.

(** A stand-in for [splitText]: one segment per sentence, cut after each
    full stop. *)
Fixpoint sentences (chars : list ascii) (cur : string) : list string :=
  match chars with
  | [] => if decide (cur = EmptyString) then [] else [cur]
  | c :: chars' =>
      if decide (c = "."%char)
      then (cur +:+ String c EmptyString) :: sentences chars' EmptyString
      else sentences chars' (cur +:+ String c EmptyString)
  end.

Definition splitText (text : string) : Split :=
  let segs := sentences (list_ascii_of_string text) EmptyString in
  {| length_ := length segs; segments := segs |}.

(** A stand-in for the language detector. *)
Definition franc (text : string) : string :=
  if startsWith text "Bonjour" then "fra" else "eng".

Definition getPrompt (lang text : string) : string := lang +:+ ": " +:+ text.

Definition AUDIO_DIR : string := "/app/audio".
Definition STATIC_DOMAIN : string := EmptyString.
Definition now : Z := 1700000000000.

(** The speech service never fails, or fails on the second segment. *)
Definition allFine (output : string) : option error := None.
Definition secondFails (output : string) : option error :=
  if includes output "/2_splits.mp3" then Some (Error_ "Timed out") else None.

Definition chatCompletion (prompt : string) : error + llmResponse :=
  inr {| result_ := ArrayResult; output := "/app/audio/llm.mp3" |}.

(** Running jobs finish in the order they started, or the second first. *)
Definition inOrder (round : nat) : nat := 0%nat.
Definition secondFirst (round : nat) : nat :=
  match round with O => 1%nat | _ => 0%nat end.

Definition request (text voice : string) (useLLM : bool) : EdgeSchema :=
  {| text := text; pitch := "default"; voice := voice; rate := "default";
     volume := "default"; useLLM := useLLM |}.

Definition emptyWorld : world := {| cache := ∅; log := [] |}.

Definition run (synthesisError : string -> option error) (finishOrder : nat -> nat)
    (params : EdgeSchema) (task : option string) (w : world)
    : result TTSResult * world :=
  generateTTS generateTaskId splitText franc getPrompt AUDIO_DIR STATIC_DOMAIN
              now synthesisError chatCompletion finishOrder params task w.

(** Frames of one turn of the protocol client. *)
Definition parseMetadata (json : string) : list (option EdgeTTS.boundary) :=
  [Some {| EdgeTTS.Text := "Hello"; EdgeTTS.Offset := Some 1000000;
           EdgeTTS.Duration := Some 3755000 |};
   Some {| EdgeTTS.Text := "world"; EdgeTTS.Offset := Some 5000000;
           EdgeTTS.Duration := Some 4000000 |}].

Definition turnEvents : list EdgeTTS.wsEvent :=
  [EdgeTTS.Open;
   EdgeTTS.TextMessage ("Path:turn.start" +:+ CRLF +:+ "{}");
   EdgeTTS.BinaryMessage (list_byte_of_string ("Path:audio" +:+ CRLF +:+ "ID3"));
   EdgeTTS.TextMessage ("Path:audio.metadata" +:+ CRLF +:+ "{}");
   EdgeTTS.TextMessage ("Path:turn.end" +:+ CRLF +:+ "{}");
   EdgeTTS.Close 1005 EmptyString].

Definition saving : EdgeTTS.configure :=
  {| EdgeTTS.voice := "en-US-AriaNeural"; EdgeTTS.lang := "en-US";
     EdgeTTS.outputFormat := "audio-24khz-48kbitrate-mono-mp3";
     EdgeTTS.saveSubtitles := true; EdgeTTS.proxy := EmptyString;
     EdgeTTS.rate := "default"; EdgeTTS.pitch := "default";
     EdgeTTS.volume := "default"; EdgeTTS.timeout := 10000 |}.

Definition aria : string := "en-US-AriaNeural".

Definition alwaysFails (output : string) : option error := Some (Error_ "Timed out").


(** The world after a first request for an English text whose second
    sentence is French. *)
Definition afterMixedText : world :=
  (run allFine inOrder (request "Hello there.Bonjour le monde." aria false)
       None emptyWorld).2.

(** The world after the same text was asked for without the language model. *)
Definition afterPlainRequest : world :=
  (run allFine inOrder (request "One.Two." aria false) None emptyWorld).2.

Definition twoSegments : list TTSParams :=
  segmentsOf splitText (request "One.Two." aria false) "out.mp3".

Definition threeSegments : list TTSParams :=
  segmentsOf splitText (request "One.Two.Three." aria false) "out.mp3".

(** Only the session of the first segment succeeds, and of the running
    jobs the second one is always the first to finish. *)
Definition onlyFirstWorks (output : string) : option error :=
  if includes output "/1_splits.mp3" then None else Some (Error_ "Timed out").
Definition secondOfRunning (round : nat) : nat := 1%nat.

Definition theSegment : Segment :=
  {| id := generateId now aria "One.Two."; s_text := "One.Two." |}.

Definition cues : list subLine :=
  [SubLine "Hello" 100 475; SubLine "world" 500 900].

Definition sixteenBytes : list byte :=
  [x00; x01; x02; x03; x04; x05; x06; x07; x08; x09; x0a; x0b; x0c; x0d; xfe; xff].

End Sample.


(** ** Retrying a call ([safeRunWithRetry]) *)

Module Retry.

(** What [safeRunWithRetry] does, in order. *)
Inductive op (E : Type) :=
| Call                               (* [await fn()] *)
| OnError (err : E) (attempt : Z)    (* [onError(err, attempt + 1)] *)
| Sleep (ms : Z).                    (* [await asyncSleep(ms)] *)

Arguments Call {E}.
Arguments OnError {E} err attempt.
Arguments Sleep {E} ms.

(** What the call throws: what a [catch] block let through, or the error
    of the last line, [new Error('Unexpected execution flow')]. *)
Inductive thrown (E : Type) :=
| Caught (err : E)
| Unexpected.

Arguments Caught {E} err.
Arguments Unexpected {E}.

Section Loop.

Context {T E : Type}.

(** The call of [fn] made in the iteration [attempt] returns or throws. *)
Variable fn : nat -> E + T.
(** [onError] returns ([None]) or throws. *)
Variable onError : E -> Z -> option E.
(** [retries] and [baseDelayMs], integers. *)
Variable retries : Z.
Variable baseDelayMs : Z.

(** The [for] loop from the iteration [attempt] on. *)
Fixpoint loop (fuel attempt : nat) : (thrown E + T) * list (op E) :=
  match fuel with
  | O => (inl Unexpected, [])
  | S fuel' =>
      if decide (Z.of_nat attempt < retries) then
        match fn attempt with
        | inr value => (inr value, [Call])
        | inl err =>
            match onError err (Z.of_nat attempt + 1) with
            | Some err' => (inl (Caught err'), [Call; OnError err (Z.of_nat attempt + 1)])
            | None =>
                if decide (Z.of_nat attempt < retries - 1) then
                  let '(r, rest) := loop fuel' (S attempt) in
                  (r, [Call; OnError err (Z.of_nat attempt + 1);
                       Sleep (baseDelayMs * (Z.of_nat attempt + 1))] ++ rest)
                else
                  (inl (Caught err), [Call; OnError err (Z.of_nat attempt + 1)])
            end
        end
      else (inl Unexpected, [])
  end.

(** [safeRunWithRetry(fn, { retries, baseDelayMs, onError })]; the loop
    makes at most [retries] iterations. *)
Definition safeRunWithRetry : (thrown E + T) * list (op E) :=
  loop (Z.to_nat retries) 0.

(** What is done for the failed call of the iteration [attempt] when
    another one follows. *)
Definition retried (attempt : nat) : list (op E) :=
  match fn attempt with
  | inl err => [Call; OnError err (Z.of_nat attempt + 1);
                Sleep (baseDelayMs * (Z.of_nat attempt + 1))]
  | inr _ => []
  end.

(** The call of the iteration [attempt] throws and [onError] returns. *)
Definition fails (attempt : nat) : Prop :=
  exists err, fn attempt = inl err /\ onError err (Z.of_nat attempt + 1) = None.

End Loop.

(** How often [fn] was called and how long the call slept in all. *)
Definition calls {E} (trace : list (op E)) : nat :=
  foldr (fun o acc => match o with Call => S acc | _ => acc end) 0%nat trace.

Definition slept {E} (trace : list (op E)) : Z :=
  foldr (fun o acc => match o with Sleep ms => ms + acc | _ => acc end) 0 trace.

End Retry.

(** ** Sending a file at a limited rate ([streamWithLimit]) *)

Module Stream.

(** [buf.slice(start, end)] of a [Buffer], for integers: a negative index
    counts from the end, and both are clamped to the buffer. *)
Definition sliceIndex (len i : Z) : Z :=
  if decide (i < 0) then Z.max (len + i) 0 else Z.min i len.

Definition slice (buf : list byte) (start end_ : Z) : list byte :=
  let len := Z.of_nat (length buf) in
  drop (Z.to_nat (sliceIndex len start))
       (take (Z.to_nat (sliceIndex len end_)) buf).

(** What happens to the file stream, the timer and the response. *)
Inductive event :=
| Data (chunk : list byte)         (* [fileStream] emits ['data'] *)
| End                              (* [fileStream] emits ['end'] *)
| StreamError (message : string)   (* [fileStream] emits ['error'] *)
| Tick                             (* the interval of 100 ms elapses *)
| ResClose.                        (* [res] emits ['close'] *)

(** What [streamWithLimit] does, in order. *)
Inductive op :=
| SetHeader (name value : string)
| ResWrite (chunk : list byte)
| ResEnd (chunk : list byte)
| Status500Send (body : string)
| Pause
| Resume
| Destroy.

Record state := State {
  buffer : list byte;
  paused : bool;      (* [fileStream.isPaused()] *)
  timer : bool;       (* the interval is not cleared *)
  ops : list op
}.

Section Handlers.

(** [bitrate], an integer; [chunkSize] is [bitrate * 1024 / 8 / 10], that
    is [64 * bitrate / 5], and is compared with lengths as a fraction. *)
Variable bitrate : Z.

(** [Math.min(chunkSize, buffer.length)], cut to an integer as [slice]
    does with its arguments. *)
Definition sendSize (len : Z) : Z :=
  if decide (64 * bitrate <= 5 * len) then Z.quot (64 * bitrate) 5 else len.

Definition opened : state :=
  {| buffer := []; paused := false; timer := true;
     ops := [SetHeader "Content-Type" "audio/opus"] |}.

Definition onEvent (s : state) (ev : event) : state :=
  match ev with
  | Data chunk =>
      let buffer' := buffer s ++ chunk in
      if negb (paused s) && bool_decide (128 * bitrate <= 5 * Z.of_nat (length buffer'))
      then {| buffer := buffer'; paused := true; timer := timer s;
              ops := ops s ++ [Pause] |}
      else {| buffer := buffer'; paused := paused s; timer := timer s;
              ops := ops s |}
  | End =>
      {| buffer := buffer s; paused := paused s; timer := false;
         ops := ops s ++ [ResEnd (buffer s)] |}
  | StreamError message =>
      {| buffer := buffer s; paused := paused s; timer := timer s;
         ops := ops s ++ [Status500Send ("Stream error: " +:+ message)] |}
  | Tick =>
      if timer s && bool_decide (0 < length (buffer s))%nat then
        let len := Z.of_nat (length (buffer s)) in
        let size := sendSize len in
        let buffer' := slice (buffer s) size len in
        let written := ops s ++ [ResWrite (slice (buffer s) 0 size)] in
        if bool_decide (5 * Z.of_nat (length buffer') < 64 * bitrate) && paused s
        then {| buffer := buffer'; paused := false; timer := timer s;
                ops := written ++ [Resume] |}
        else {| buffer := buffer'; paused := paused s; timer := timer s;
                ops := written |}
      else s
  | ResClose =>
      {| buffer := buffer s; paused := paused s; timer := false;
         ops := ops s ++ [Destroy] |}
  end.

Definition streamWithLimit (events : list event) : state :=
  foldl onEvent opened events.

End Handlers.

(** The bytes read from the file, and those given to the response. *)
Definition received (events : list event) : list byte :=
  flat_map (fun ev => match ev with Data chunk => chunk | _ => [] end) events.

Definition delivered (l : list op) : list byte :=
  flat_map (fun o => match o with
                     | ResWrite chunk | ResEnd chunk => chunk
                     | _ => []
                     end) l.

(** The bytes written by the timer, and how often it elapsed. *)
Definition written (l : list op) : list byte :=
  flat_map (fun o => match o with ResWrite chunk => chunk | _ => [] end) l.

Definition isTick (ev : event) : bool :=
  match ev with Tick => true | _ => false end.

Definition ticks (events : list event) : nat :=
  length (filter (fun ev => isTick ev = true) events).

Definition isEnd (ev : event) : bool :=
  match ev with End => true | _ => false end.

(** A paused stream emits no data. *)
Definition canOccur (s : state) (ev : event) : bool :=
  match ev with
  | Data _ => negb (paused s)
  | _ => true
  end.

Fixpoint feasibleFrom (bitrate : Z) (s : state) (events : list event) : bool :=
  match events with
  | [] => true
  | ev :: events' =>
      canOccur s ev && feasibleFrom bitrate (onEvent bitrate s ev) events'
  end.

Definition chunkOf (ev : event) : list byte :=
  match ev with Data chunk => chunk | _ => [] end.

End Stream.

(** ** Names used in further statements *)

(** [sep] stands in [data] from the position [i] on. *)
Definition occursAt (data sep : list byte) (i : nat) : Prop :=
  take (length sep) (drop i data) = sep.

(** [body] is the audio a binary frame carries: what follows its first
    [Path:audio] line, and for a frame without such a line what follows its
    first eleven bytes. *)
Definition payload (data body : list byte) : Prop :=
  (exists header,
      data = header ++ EdgeTTS.separator ++ body
      /\ forall j, (j < length header)%nat -> ~ occursAt data EdgeTTS.separator j)
  \/ ((forall j, ~ occursAt data EdgeTTS.separator j) /\ body = drop 11 data).

(** The reason [ttsPromise] rejects with at an event, before the socket
    has opened (the handlers of [_connectWebSocket]) and after (those of
    [ttsPromise]). *)
Definition rejection (opened : bool) (ev : EdgeTTS.wsEvent) : option string :=
  match ev with
  | EdgeTTS.Error message =>
      Some (if opened then "WebSocket error during transmission: " +:+ message
            else "WebSocket error: " +:+ message)
  | EdgeTTS.Close code reason =>
      if decide (code = 1000) then None
      else Some (if opened
                 then "WebSocket closed unexpectedly during transmission with code "
                      +:+ showZ code +:+ ": " +:+ reason
                 else "WebSocket closed unexpectedly with code "
                      +:+ showZ code +:+ ": " +:+ reason)
  | EdgeTTS.Timeout EdgeTTS.ConnectTimer =>
      if opened then None else Some "WebSocket connection timed out"
  | EdgeTTS.Timeout EdgeTTS.TurnTimer =>
      if opened then Some "Timed out" else None
  | _ => None
  end.

(** The number [sortAudioDir] sorts a file by. *)
Definition fileKey (file : string) : option Z :=
  Number (beforeUnderscore (parseName file)).

(** Files in ascending order of their numbers. *)
Definition keyLe (a b : string) : Prop :=
  exists x y, fileKey a = Some x /\ fileKey b = Some y /\ x <= y.

(** ** More sample inputs *)

Module Sample2.

(** A call that fails twice and then returns 7, one that always fails,
    a handler that returns and one that throws. *)
Definition flaky (attempt : nat) : string + nat :=
  if decide (attempt < 2)%nat then inl "Invalid response status" else inr 7%nat.

Definition down (attempt : nat) : string + nat := inl "down".

Definition logs (err : string) (attempt : Z) : option string := None.

Definition rethrows (err : string) (attempt : Z) : option string :=
  Some ("handler: " +:+ err).

(** A file read in chunks of thirty bytes. *)
Definition thirtyBytes : list byte := repeat x00 30.

Definition reading : list Stream.event :=
  [Stream.Data thirtyBytes; Stream.Tick; Stream.Tick; Stream.Data thirtyBytes;
   Stream.Tick].

(** A binary frame: two bytes, the line [Path:audio], three bytes of audio. *)
Definition frameHeader : list byte := [x00; x0c].
Definition frameBody : list byte := [x49; x44; x33].


Definition pieces : list string :=
  ["/app/audio/tmp/2_splits.mp3"; "/app/audio/tmp/notes.txt";
   "/app/audio/tmp/1_splits.MP3"].

End Sample2.
(** * Properties *)




(** ** Facts on strings *)

Section StringFacts.

Lemma str_app_nil_l s : EmptyString +:+ s = s.
Proof. reflexivity. Qed.

Lemma str_app_cons a s1 s2 : String a s1 +:+ s2 = String a (s1 +:+ s2).
Proof. reflexivity. Qed.

Lemma str_app_nil_r s : s +:+ EmptyString = s.
Proof. induction s as [|a s IH]; [done|]. by rewrite str_app_cons, IH. Qed.

Lemma str_app_assoc s1 s2 s3 : (s1 +:+ s2) +:+ s3 = s1 +:+ (s2 +:+ s3).
Proof.
  induction s1 as [|a s1 IH]; [done|].
  by rewrite !str_app_cons, IH.
Qed.

Lemma str_length_app s1 s2 :
  String.length (s1 +:+ s2) = (String.length s1 + String.length s2)%nat.
Proof.
  induction s1 as [|a s1 IH]; [done|].
  rewrite str_app_cons. simpl. by rewrite IH.
Qed.

Lemma str_of_list_app l1 l2 :
  string_of_list_ascii (l1 ++ l2)
  = string_of_list_ascii l1 +:+ string_of_list_ascii l2.
Proof.
  induction l1 as [|a l1 IH]; [done|].
  simpl. by rewrite str_app_cons, IH.
Qed.

Lemma str_length_of_list l :
  String.length (string_of_list_ascii l) = length l.
Proof. induction l as [|a l IH]; simpl; [done|by rewrite IH]. Qed.

End StringFacts.

(** ** The subtitle pass: what one scan returns *)

Section ScanFacts.

Import EdgeTTS.

Lemma scanCue_spec cuePart next0 rest : forall sci stepIndex fullPart,
  match scanCue cuePart next0 rest sci stepIndex fullPart with
  | (out, None) => out = fullPart +:+ string_of_list_ascii rest
  | (out, Some k) =>
      exists pre c post,
        rest = pre ++ c :: post /\ k = (sci + length pre)%nat /\
        out = fullPart +:+ string_of_list_ascii pre /\ next0 = Some c
  end.
Proof.
  induction rest as [|c rest IH]; intros sci stepIndex fullPart; simpl.
  { by rewrite str_app_nil_r. }
  destruct (decide (String.get stepIndex cuePart = Some c)) as [Hm|Hm].
  - specialize (IH (S sci) (S stepIndex) (fullPart +:+ String c EmptyString)).
    destruct (scanCue _ _ _ _ _ _) as [out [k|]].
    + destruct IH as (pre & c' & post & -> & -> & -> & Hn).
      exists (c :: pre), c', post. simpl.
      rewrite str_app_assoc. repeat split; [lia|done..].
    + by rewrite IH, str_app_assoc.
  - destruct (decide (next0 = Some c)) as [Hn|Hn].
    + exists [], c, rest. simpl. rewrite str_app_nil_r.
      repeat split; [lia|done].
    + specialize (IH (S sci) stepIndex (fullPart +:+ String c EmptyString)).
      destruct (scanCue _ _ _ _ _ _) as [out [k|]].
      * destruct IH as (pre & c' & post & -> & -> & -> & Hn').
        exists (c :: pre), c', post. simpl.
        rewrite str_app_assoc. repeat split; [lia|done..].
      * by rewrite IH, str_app_assoc.
Qed.

(** The last cue has no successor, so its scan never breaks. *)
Lemma scanCue_last cuePart rest sci stepIndex fullPart :
  scanCue cuePart None rest sci stepIndex fullPart
  = (fullPart +:+ string_of_list_ascii rest, None).
Proof.
  pose proof (scanCue_spec cuePart None rest sci stepIndex fullPart) as H.
  destruct (scanCue _ _ _ _ _ _) as [out [k|]].
  - by destruct H as (? & ? & ? & _ & _ & _ & ?).
  - by rewrite H.
Qed.

(** The in-place [forEach] computes [rebuild]. *)
Lemma foldl_cueStep subChars todo : forall before subCharIndex,
  fst (foldl (cueStep subChars) (before ++ todo, subCharIndex)
             (seq (length before) (length todo)))
  = before ++ rebuild subChars todo subCharIndex.
Proof.
  induction todo as [|cue later IH]; intros before subCharIndex.
  { simpl. done. }
  cbn [length seq foldl rebuild]. unfold cueStep at 2.
  rewrite list_lookup_middle by done.
  assert (nextFirst (before ++ cue :: later) (length before)
          = nextFirst (cue :: later) 0) as ->.
  { unfold nextFirst.
    replace (S (length before)) with (length before + 1)%nat by lia.
    by rewrite lookup_app_r, Nat.add_comm, Nat.add_sub by lia. }
  destruct (scanCue _ _ _ _ _ _) as [fullPart brk].
  rewrite insert_app_r_alt, Nat.sub_diag by lia. cbn [insert list_insert].
  change (before ++ ?x :: later) with (before ++ [x] ++ later).
  rewrite (assoc (++)).
  replace (S (length before)) with (length (before ++ [cue])) by
    (rewrite length_app; simpl; lia).
  replace (length (before ++ [cue])) with
    (length (before ++ [SubLine fullPart (start cue) (end_ cue)])) by
    (rewrite !length_app; done).
  rewrite IH. by rewrite <- (assoc (++)).
Qed.

Lemma _saveSubFile_rebuild subFile text :
  _saveSubFile subFile text = rebuild (list_ascii_of_string text) subFile 0.
Proof. apply (foldl_cueStep _ subFile [] 0%nat). Qed.

Lemma rebuild_length subChars cues : forall subCharIndex,
  length (rebuild subChars cues subCharIndex) = length cues.
Proof.
  induction cues as [|cue later IH]; intros subCharIndex; simpl; [done|].
  destruct (scanCue _ _ _ _ _ _). simpl. by rewrite IH.
Qed.

Lemma concatParts_cons cue cues :
  concatParts (cue :: cues) = part cue +:+ concatParts cues.
Proof. reflexivity. Qed.

Lemma rebuild_cons subChars cue later subCharIndex :
  rebuild subChars (cue :: later) subCharIndex
  = let r := scanCue (part cue) (nextFirst (cue :: later) 0)
               (drop subCharIndex subChars) subCharIndex 0 EmptyString in
    SubLine r.1 (start cue) (end_ cue)
      :: rebuild subChars later (default subCharIndex r.2).
Proof. simpl. by destruct (scanCue _ _ _ _ _ _). Qed.

Lemma everyScanStops_cons subChars cue nxt later subCharIndex :
  everyScanStops subChars (cue :: nxt :: later) subCharIndex
  = match (scanCue (part cue) (nextFirst (cue :: nxt :: later) 0)
             (drop subCharIndex subChars) subCharIndex 0 EmptyString).2 with
    | Some k => everyScanStops subChars (nxt :: later) k
    | None => false
    end.
Proof. reflexivity. Qed.

Lemma rebuild_concat subChars cues : forall subCharIndex,
  cues <> [] ->
  everyScanStops subChars cues subCharIndex = true ->
  concatParts (rebuild subChars cues subCharIndex)
  = string_of_list_ascii (drop subCharIndex subChars).
Proof.
  induction cues as [|cue later IH]; intros subCharIndex Hne Hstop; [done|].
  rewrite rebuild_cons, concatParts_cons. cbn zeta. cbn [part].
  destruct later as [|nxt later].
  - unfold nextFirst. simpl. rewrite scanCue_last. simpl.
    by rewrite str_app_nil_r.
  - rewrite everyScanStops_cons in Hstop.
    pose proof (scanCue_spec (part cue) (nextFirst (cue :: nxt :: later) 0)
                  (drop subCharIndex subChars) subCharIndex 0 EmptyString) as H.
    destruct (scanCue _ _ _ _ _ _) as [fullPart [k|]]; [|done].
    destruct H as (pre & c & post & Hrest & -> & -> & _).
    cbn [fst snd default from_option] in *. unfold Datatypes.id in *.
    rewrite IH by done.
    rewrite <- drop_drop, Hrest, drop_app_length, str_of_list_app. done.
Qed.

End ScanFacts.

(** ** The subtitle pass: when the text is kept *)

Section ScanLengths.

Import EdgeTTS.

Lemma concatParts_length_cons cue cues :
  String.length (concatParts (cue :: cues))
  = (String.length (part cue) + String.length (concatParts cues))%nat.
Proof. by rewrite concatParts_cons, str_length_app. Qed.

(** The cue texts together are never shorter than what is left of the
    source text, and exactly as long only if every scan but the last
    stopped. *)
Lemma rebuild_total_length subChars cues : forall subCharIndex,
  cues <> [] -> (subCharIndex < length subChars)%nat ->
  if everyScanStops subChars cues subCharIndex
  then String.length (concatParts (rebuild subChars cues subCharIndex))
       = (length subChars - subCharIndex)%nat
  else (length subChars - subCharIndex
        < String.length (concatParts (rebuild subChars cues subCharIndex)))%nat.
Proof.
  induction cues as [|cue later IH]; intros subCharIndex Hne Hlt; [done|].
  rewrite rebuild_cons. cbn zeta. rewrite concatParts_length_cons. cbn [part].
  destruct later as [|nxt later].
  - unfold nextFirst. simpl. rewrite scanCue_last. simpl.
    rewrite str_app_nil_l, str_length_of_list, length_drop. lia.
  - rewrite everyScanStops_cons.
    pose proof (scanCue_spec (part cue) (nextFirst (cue :: nxt :: later) 0)
                  (drop subCharIndex subChars) subCharIndex 0 EmptyString) as H.
    destruct (scanCue _ _ _ _ _ _) as [fullPart [k|]];
      cbn [fst snd default from_option]; unfold Datatypes.id.
    + destruct H as (pre & c & post & Hrest & -> & -> & _).
      assert (length (drop subCharIndex subChars)
              = (length pre + S (length post))%nat) as Hlen
        by (by rewrite Hrest, length_app).
      rewrite length_drop in Hlen.
      specialize (IH (subCharIndex + length pre)%nat ltac:(done) ltac:(lia)).
      rewrite str_app_nil_l, str_length_of_list.
      destruct (everyScanStops subChars (nxt :: later) _); lia.
    + rewrite H, str_app_nil_l, str_length_of_list, length_drop.
      specialize (IH subCharIndex ltac:(done) Hlt).
      destruct (everyScanStops subChars (nxt :: later) _); lia.
Qed.

(** For a text that is not empty and at least one cue, the cue texts make
    up the source text exactly when every scan but the last stopped. *)
Lemma subtitle_text_preserved_iff (subFile_ : list subLine) (text_ : string) :
  subFile_ <> [] -> text_ <> EmptyString ->
  concatParts (_saveSubFile subFile_ text_) = text_
  <-> everyScanStops (list_ascii_of_string text_) subFile_ 0 = true.
Proof.
  intros Hne Htext. rewrite _saveSubFile_rebuild. split.
  - intros Heq.
    assert (0 < length (list_ascii_of_string text_))%nat as Hpos.
    { destruct text_; [done|simpl; lia]. }
    pose proof (rebuild_total_length (list_ascii_of_string text_) subFile_ 0
                  Hne Hpos) as H.
    destruct (everyScanStops _ _ _); [done|].
    rewrite Heq in H.
    rewrite <- (string_of_list_ascii_of_string text_) in H at 2.
    rewrite str_length_of_list in H. lia.
  - intros Hstop. rewrite rebuild_concat by done. simpl.
    apply string_of_list_ascii_of_string.
Qed.

(** An empty text stays empty, whatever the cues. *)
Lemma subtitle_text_empty (subFile_ : list subLine) :
  concatParts (_saveSubFile subFile_ EmptyString) = EmptyString.
Proof.
  rewrite _saveSubFile_rebuild. simpl.
  generalize 0%nat. induction subFile_ as [|cue later IH]; intros i; [done|].
  rewrite rebuild_cons. cbn zeta. rewrite concatParts_cons. cbn [part].
  rewrite drop_nil. simpl. by rewrite IH.
Qed.

End ScanLengths.

(** ** The protocol client: how a turn settles *)

Section Protocol.

Import EdgeTTS.

Variable parseMetadata : string -> list (option boundary).
Variable cfg : configure.
Variable text : string.
Variable requestId : string.

Local Abbreviation onEvent := (onEvent parseMetadata cfg text requestId).
Local Abbreviation onTurn := (onTurn parseMetadata cfg text).
Local Abbreviation ttsPromise := (ttsPromise parseMetadata cfg text requestId).
Local Abbreviation feasibleFrom := (feasibleFrom parseMetadata cfg text requestId).
Local Abbreviation feasible := (feasible parseMetadata cfg text requestId).
Local Abbreviation beginTurn := (beginTurn cfg text requestId).

Lemma waiting_start : waiting {| conn := connecting; job := None |}.
Proof. repeat split; try done. by intros []. Qed.

Lemma settle_pending new : settle Pending new = new.
Proof. done. Qed.

Lemma settle_settled now new : now <> Pending -> settle now new = now.
Proof. by destruct now. Qed.

Ltac case_event ev :=
  destruct ev as [|m|data|m|code reason|[|]]; simpl in *;
  repeat case_decide; repeat case_match; simplify_eq/=.

Lemma quiet_event ev :
  decisive ev = false ->
  match ev with
  | TextMessage m => isTurnEnd m = false
  | Close code _ => code = 1000
  | Error _ | Timeout _ => False
  | _ => True
  end.
Proof.
  unfold decisive. destruct ev as [|m|data|m|code reason|t]; simpl; try done.
  - by rewrite orb_false_r.
  - intros H%negb_false_iff. by apply Z.eqb_eq.
Qed.

Lemma waiting_quiet s ev :
  waiting s -> canOccur s ev = true -> decisive ev = false ->
  waiting (onEvent s ev).
Proof.
  intros (Hout & Hnone & Htimer) Hcan Hquiet%quiet_event.
  destruct s as [c [t|]]; unfold outcome, waiting, onEvent in *; simpl in *.
  - specialize (Htimer ltac:(eauto)).
    destruct ev as [|m|data|m|code reason|[|]]; simpl in *;
      try done; subst; rewrite ?Hquiet; repeat split; try done.
    + by destruct (isMetadata m).
    + unfold streamWrite. by destruct (streamEnded t).
  - destruct (Hnone eq_refl) as [Hp Hr].
    destruct ev as [|m|data|m|code reason|[|]]; simpl in *;
      try done; subst;
      repeat match goal with
             | H : bool_decide _ = true |- _ => apply bool_decide_eq_true in H
             end;
      rewrite ?Hp; simpl; rewrite ?Hp; simpl;
      repeat split; try done; by intros [].
Qed.


(** A settled promise stays as it is. *)
Lemma outcome_stable s ev :
  outcome s <> Pending -> outcome (onEvent s ev) = outcome s.
Proof.
  destruct s as [c [t|]]; unfold outcome, onEvent; simpl; intros Hs.
  - destruct ev as [|m|data|m|code reason|[|]]; simpl; unfold streamWrite;
      repeat case_match; simpl; try done; by rewrite ?settle_settled.
  - destruct (connPromise c) as [| |e] eqn:Hp; try done.
    destruct ev as [|m|data|m|code reason|[|]]; simpl;
      repeat case_decide; try destruct (connTimer c); simpl;
      rewrite ?Hp; simpl; rewrite ?Hp; done.
Qed.

Lemma outcome_stable_all events : forall s,
  outcome s <> Pending -> outcome (foldl onEvent s events) = outcome s.
Proof.
  induction events as [|ev events IH]; intros s Hs; [done|].
  simpl. rewrite IH; rewrite outcome_stable; done.
Qed.





(** *** Audio and cues gathered up to [turn.end] *)

Lemma rebuild_times subChars cues : forall subCharIndex,
  map times (rebuild subChars cues subCharIndex) = map times cues.
Proof.
  induction cues as [|cue later IH]; intros subCharIndex; [done|].
  rewrite rebuild_cons. cbn zeta. cbn [map]. by rewrite IH.
Qed.

Lemma _saveSubFile_times subFile_ text_ :
  map times (_saveSubFile subFile_ text_) = map times subFile_.
Proof. rewrite _saveSubFile_rebuild. apply rebuild_times. Qed.

Lemma pushCues_readable entries : forall subFile_,
  pushCues subFile_ entries = subFile_ ++ map cueOf (readable entries).
Proof.
  induction entries as [|[d|] entries IH]; intros subFile_; simpl;
    rewrite ?app_nil_r; [done| |done].
  by rewrite IH, <- (assoc (++)).
Qed.

(** Every message handler call appends the cues of the frame, with the
    times the handler computes, and changes no time already there. *)
Lemma onTurn_times t ev :
  map times (subFile (onTurn t ev))
  = map times (subFile t) ++ map (times ∘ cueOf) (boundariesOf parseMetadata [ev]).
Proof.
  destruct ev as [|m|data|m|code reason|[|]]; simpl;
    rewrite ?app_nil_r; try done.
  - destruct (isTurnEnd m); simpl.
    + rewrite app_nil_r. destruct (saveSubtitles cfg); [|done].
      apply _saveSubFile_times.
    + destruct (isMetadata m); simpl; [|by rewrite app_nil_r].
      by rewrite pushCues_readable, map_app, map_map.
  - unfold streamWrite. by destruct (streamEnded t).
  - by case_decide.
  - by destruct (turnTimer t).
Qed.

Lemma boundariesOf_app events1 events2 :
  boundariesOf parseMetadata (events1 ++ events2)
  = boundariesOf parseMetadata events1 ++ boundariesOf parseMetadata events2.
Proof. apply flat_map_app. Qed.


Lemma foldl_onTurn_times events : forall t,
  map times (subFile (foldl onTurn t events))
  = map times (subFile t) ++ map (times ∘ cueOf) (boundariesOf parseMetadata events).
Proof.
  induction events as [|ev events IH]; intros t.
  { simpl. by rewrite app_nil_r. }
  change (ev :: events) with ([ev] ++ events).
  rewrite boundariesOf_app, map_app, (assoc (++)), <- onTurn_times.
  simpl. apply IH.
Qed.



Lemma feasibleFrom_app events1 : forall s events2,
  feasibleFrom s (events1 ++ events2) = true ->
  feasibleFrom s events1 = true
  /\ feasibleFrom (foldl onEvent s events1) events2 = true.
Proof.
  induction events1 as [|ev events1 IH]; intros s events2 Hf; [done|].
  simpl in *. apply andb_true_iff in Hf as [Hcan Hf].
  apply IH in Hf as [? ?]. by rewrite Hcan.
Qed.





End Protocol.
(** ** Reading the frames received *)

Section Reading.

Import EdgeTTS.

Lemma list_ascii_app s1 s2 :
  list_ascii_of_string (s1 +:+ s2)
  = list_ascii_of_string s1 ++ list_ascii_of_string s2.
Proof.
  induction s1 as [|a s1 IH]; [done|].
  rewrite str_app_cons. simpl. by rewrite IH.
Qed.

Lemma includes_here s needle : includes (needle +:+ s) needle = true.
Proof.
  assert (String.prefix needle (needle +:+ s) = true) as H.
  { induction needle as [|c needle IH]; simpl; [by destruct s|].
    destruct (ascii_dec c c); [apply IH|done]. }
  destruct (needle +:+ s); simpl in *; by rewrite H.
Qed.

Lemma includes_later front s needle :
  includes s needle = true -> includes (front +:+ s) needle = true.
Proof.
  induction front as [|c front IH]; intros H; [done|].
  rewrite str_app_cons. cbn [includes]. rewrite IH by done.
  apply orb_true_r.
Qed.

Lemma includes_middle front back needle :
  includes (front +:+ needle +:+ back) needle = true.
Proof. apply includes_later, includes_here. Qed.

Lemma prefix_app needle : forall s,
  String.prefix needle s = true -> exists back, s = needle +:+ back.
Proof.
  induction needle as [|c needle IH]; intros s H.
  { by exists s. }
  destruct s as [|c' s]; [done|]. simpl in H.
  destruct (ascii_dec c c') as [->|]; [|done].
  destruct (IH s H) as [back ->]. by exists back.
Qed.

(** [includes] is true exactly when the pattern stands in the string. *)
Lemma includes_contains s needle :
  includes s needle = true <-> contains s needle.
Proof.
  split.
  - induction s as [|c s IH]; cbn [includes]; intros H.
    + rewrite orb_false_r in H. apply prefix_app in H as [back ->].
      by exists EmptyString, back.
    + apply orb_true_iff in H as [H|H].
      * apply prefix_app in H as [back Hb]. by exists EmptyString, back.
      * destruct (IH H) as (front & back & ->).
        by exists (String c front), back.
  - intros (front & back & ->). apply includes_middle.
Qed.

Lemma includes_not_contains s needle :
  includes s needle = false <-> ~ contains s needle.
Proof.
  rewrite <- includes_contains. by destruct (includes s needle).
Qed.

(** A line break has two characters. *)
Lemma no_break_short s :
  (String.length s <= 1)%nat -> includes s CRLF = false.
Proof.
  destruct s as [|c [|c' s]]; intros H; [done| |simpl in H; lia].
  change CRLF with (String (ascii_of_nat 13) (String (ascii_of_nat 10) EmptyString)).
  cbn [includes String.prefix].
  by destruct (ascii_dec (ascii_of_nat 13) c).
Qed.

Lemma prefix_break a b rest :
  String.prefix CRLF (String a (String b rest))
  = bool_decide (a = ascii_of_nat 13 /\ b = ascii_of_nat 10).
Proof.
  change CRLF with (String (ascii_of_nat 13) (String (ascii_of_nat 10) EmptyString)).
  cbn [String.prefix].
  destruct (ascii_dec _ a) as [<-|Ha]; [destruct (ascii_dec _ b) as [<-|Hb]|].
  - rewrite bool_decide_eq_true_2 by done. by destruct rest.
  - rewrite bool_decide_eq_false_2; [done|]. by intros [_ ->].
  - rewrite bool_decide_eq_false_2; [done|]. by intros [-> _].
Qed.

(** One more character after a piece without line break gives a line
    break only at the end. *)
Lemma no_break_snoc cur : forall c c',
  includes (cur +:+ String c EmptyString) CRLF = false ->
  ~ (c = ascii_of_nat 13 /\ c' = ascii_of_nat 10) ->
  includes (cur +:+ String c (String c' EmptyString)) CRLF = false.
Proof.
  induction cur as [|a cur IH]; intros c c' Hcur Hpair.
  - rewrite str_app_nil_l. cbn [includes].
    rewrite prefix_break, bool_decide_eq_false_2 by done.
    apply (no_break_short (String c' EmptyString)). simpl. lia.
  - rewrite str_app_cons in *. cbn [includes] in *.
    apply orb_false_iff in Hcur as [Hp Hcur].
    rewrite (IH c c' Hcur Hpair), orb_false_r.
    destruct cur as [|b cur].
    + rewrite str_app_nil_l in *. by rewrite prefix_break in *.
    + rewrite str_app_cons in *. by rewrite prefix_break in *.
Qed.

(** [lastPiece] gives what follows the last line break. *)
Lemma lastPiece_spec n : forall s cur,
  (String.length s <= n)%nat ->
  includes (cur +:+ String.substring 0 1 s) CRLF = false ->
  includes (lastPiece s cur) CRLF = false
  /\ (cur +:+ s = lastPiece s cur
      \/ exists front, cur +:+ s = front +:+ CRLF +:+ lastPiece s cur).
Proof.
  induction n as [|n IH]; intros s cur Hlen Hcur.
  { destruct s; [|simpl in Hlen; lia].
    simpl in *. rewrite str_app_nil_r in *. by split; [|left]. }
  destruct s as [|c [|c' s]].
  - simpl in *. rewrite str_app_nil_r in *. by split; [|left].
  - simpl in *. by split; [|left].
  - cbn [lastPiece]. case_decide as Hpair.
    + destruct Hpair as [-> ->].
      destruct (IH s EmptyString) as [Hno Hsplit].
      { simpl in Hlen. lia. }
      { rewrite str_app_nil_l. apply no_break_short.
        destruct s; simpl; [lia|]. destruct s; simpl; lia. }
      split; [done|]. right.
      rewrite str_app_nil_l in Hsplit.
      destruct Hsplit as [Hs|[front Hs]].
      * exists cur. by rewrite <- Hs.
      * exists (cur +:+ CRLF +:+ front).
        rewrite !str_app_assoc. by rewrite <- Hs.
    + destruct (IH (String c' s) (cur +:+ String c EmptyString))
        as [Hno Hsplit].
      { simpl in *. lia. }
      { rewrite str_app_assoc. simpl String.substring.
        replace (String.substring 0 0 s) with EmptyString by (by destruct s).
        apply no_break_snoc; [|done].
        simpl in Hcur.
        by replace (String.substring 0 0 (String c' s)) with EmptyString
          in Hcur. }
      rewrite str_app_assoc in Hsplit. by split.
Qed.

Lemma lastLine_lastPiece message :
  lastLine message (lastPiece message EmptyString).
Proof.
  destruct (lastPiece_spec (String.length message) message EmptyString)
    as [Hno Hsplit]; [done| |].
  { rewrite str_app_nil_l. apply no_break_short.
    destruct message as [|c s]; simpl; [lia|]. destruct s; simpl; lia. }
  split; [by apply includes_not_contains|].
  by rewrite str_app_nil_l in Hsplit.
Qed.

Lemma lastPiece_two c c' s cur :
  lastPiece (String c (String c' s)) cur
  = if decide (c = ascii_of_nat 13 /\ c' = ascii_of_nat 10)
    then lastPiece s EmptyString
    else lastPiece (String c' s) (cur +:+ String c EmptyString).
Proof. done. Qed.

Lemma lastPiece_no_break line : forall cur,
  includes line CRLF = false -> lastPiece line cur = cur +:+ line.
Proof.
  induction line as [|c rest IH]; intros cur Hno.
  { simpl. by rewrite str_app_nil_r. }
  destruct rest as [|c' rest]; [done|].
  change (includes (String c (String c' rest)) CRLF)
    with (String.prefix CRLF (String c (String c' rest))
          || includes (String c' rest) CRLF) in Hno.
  apply orb_false_iff in Hno as [Hp Hno].
  rewrite prefix_break in Hp. apply bool_decide_eq_false in Hp.
  rewrite lastPiece_two, decide_False by done.
  rewrite IH by done. by rewrite str_app_assoc.
Qed.

Lemma lastPiece_after_break line n : forall front cur,
  (String.length front <= n)%nat ->
  includes line CRLF = false ->
  lastPiece (front +:+ CRLF +:+ line) cur = line.
Proof.
  induction n as [|n IH]; intros front cur Hlen Hno.
  { destruct front; [|simpl in Hlen; lia].
    rewrite str_app_nil_l.
    change (CRLF +:+ line)
      with (String (ascii_of_nat 13) (String (ascii_of_nat 10) line)).
    rewrite lastPiece_two, decide_True by done.
    by rewrite lastPiece_no_break. }
  destruct front as [|c front].
  { rewrite str_app_nil_l.
    change (CRLF +:+ line)
      with (String (ascii_of_nat 13) (String (ascii_of_nat 10) line)).
    rewrite lastPiece_two, decide_True by done.
    by rewrite lastPiece_no_break. }
  rewrite str_app_cons. simpl in Hlen.
  destruct front as [|c' front].
  - rewrite str_app_nil_l.
    change (CRLF +:+ line)
      with (String (ascii_of_nat 13) (String (ascii_of_nat 10) line)).
    rewrite lastPiece_two, decide_False by (by intros [_ ?]).
    change (String (ascii_of_nat 13) (String (ascii_of_nat 10) line))
      with (EmptyString +:+ CRLF +:+ line).
    apply IH; [simpl; lia|done].
  - rewrite str_app_cons, lastPiece_two. case_decide.
    + apply IH; [simpl in *; lia|done].
    + rewrite <- str_app_cons. apply IH; [simpl in *; lia|done].
Qed.

(** The last line of a frame is what [lastPiece] gives, and nothing else. *)
Lemma lastLine_unique message line :
  lastLine message line -> lastPiece message EmptyString = line.
Proof.
  intros [Hno%includes_not_contains [->|[front ->]]].
  - by rewrite lastPiece_no_break.
  - by apply (lastPiece_after_break line (String.length front)).
Qed.

(** [indexOf] finds the first place where the separator stands. *)
Lemma indexOf_found data sep : forall i k,
  occursAt data sep k ->
  (forall j, (j < k)%nat -> ~ occursAt data sep j) ->
  indexOf data sep i = i + Z.of_nat k.
Proof.
  induction data as [|b data IH]; intros i k Hk Hfirst.
  - destruct k as [|k].
    + unfold occursAt in Hk. simpl in *. rewrite Hk.
      rewrite decide_True by done. lia.
    + unfold occursAt in Hk. simpl in Hk. rewrite take_nil in Hk.
      destruct (Hfirst 0%nat ltac:(lia)). unfold occursAt. simpl.
      by rewrite take_nil.
  - destruct k as [|k].
    + unfold occursAt in Hk. rewrite drop_0 in Hk. simpl.
      rewrite decide_True by done. lia.
    + simpl. rewrite decide_False.
      * rewrite (IH (i + 1) k); [lia|done|].
        intros j Hj. apply (Hfirst (S j)). lia.
      * apply (Hfirst 0%nat). lia.
Qed.

Lemma indexOf_absent data sep : forall i,
  (forall j, ~ occursAt data sep j) -> indexOf data sep i = -1.
Proof.
  induction data as [|b data IH]; intros i Hnone; simpl.
  - rewrite decide_False; [done|]. apply (Hnone 0%nat).
  - rewrite decide_False by apply (Hnone 0%nat).
    apply IH. intros j. apply (Hnone (S j)).
Qed.



(** A frame carries one audio only. *)
Lemma payload_unique data body : payload data body -> body = audioData data.
Proof.
  unfold audioData. intros [(header & Hdata & Hfirst)|[Hnone ->]].
  - rewrite (indexOf_found _ _ 0 (length header)); [|by subst; unfold occursAt; rewrite drop_app_length, take_app_length|done].
    replace (Z.to_nat (0 + Z.of_nat (length header) + Z.of_nat (length separator)))
      with (length header + length separator)%nat by lia.
    rewrite Hdata.
    by rewrite <- drop_drop, drop_app_length, drop_app_length.
  - by rewrite indexOf_absent.
Qed.


Lemma floor_10000 x : 10000 * (x / 10000) <= x < 10000 * (x / 10000) + 10000.
Proof.
  pose proof (Z.div_mod x 10000 ltac:(lia)).
  pose proof (Z.mod_pos_bound x 10000 ltac:(lia)). lia.
Qed.

(** The cue pushed for an entry is the cue for it. *)
Lemma cueFor_cueOf d : cueFor d (cueOf d).
Proof.
  split; [done|]. unfold timesFor, times, cueOf. simpl.
  destruct (Offset d) as [x|], (Duration d) as [y|]; simpl;
    repeat split; try done; apply floor_10000.
Qed.

Lemma cueFor_map l : Forall2 cueFor l (map cueOf l).
Proof.
  induction l as [|d l IH]; constructor; [apply cueFor_cueOf|done].
Qed.

Section TakenFacts.

Variable parseMetadata : string -> list (option boundary).
Variable cfg : configure.
Variable text : string.

Local Abbreviation onTurn := (onTurn parseMetadata cfg text).
Local Abbreviation boundariesOf := (boundariesOf parseMetadata).

(** What the handler takes from an event is what the event brings. *)
Lemma brings_taken ev : brings parseMetadata ev (boundariesOf [ev]).
Proof.
  destruct ev as [|m|data|m|code reason|tm];
    try (apply brings_nothing; by intros).
  simpl. rewrite app_nil_r. unfold isTurnEnd, isMetadata.
  destruct (includes m "Path:turn.end") eqn:Hend.
  { apply brings_turnEnd. by apply includes_contains. }
  apply includes_not_contains in Hend.
  destruct (includes m "Path:audio.metadata") eqn:Hmeta.
  - apply brings_metadata; [done|by apply includes_contains|].
    apply lastLine_lastPiece.
  - apply brings_other; [done|]. by apply includes_not_contains.
Qed.

(** An event brings one list of entries only. *)
Lemma brings_unique ev entries :
  brings parseMetadata ev entries -> entries = boundariesOf [ev].
Proof.
  intros Hb. destruct Hb as [m json Hend Hmeta Hline|m Hend|m Hend Hmeta|ev Hev];
    simpl; rewrite ?app_nil_r; unfold isTurnEnd, isMetadata.
  - apply includes_not_contains in Hend. apply includes_contains in Hmeta.
    by rewrite Hend, Hmeta, (lastLine_unique m json).
  - apply includes_contains in Hend. by rewrite Hend.
  - apply includes_not_contains in Hend, Hmeta. by rewrite Hend, Hmeta.
  - destruct ev as [|m| | | |]; try done. by destruct (Hev m).
Qed.

Lemma brings_all events :
  Forall2 (brings parseMetadata) events
          (map (fun ev => boundariesOf [ev]) events)
  /\ concat (map (fun ev => boundariesOf [ev]) events) = boundariesOf events.
Proof.
  induction events as [|ev events [IH1 IH2]]; [by split; [constructor|]|].
  split; [constructor; [apply brings_taken|done]|].
  cbn [map concat]. rewrite IH2.
  change (ev :: events) with ([ev] ++ events).
  unfold EdgeTTS.boundariesOf. by rewrite flat_map_app.
Qed.

Lemma brings_all_unique events others :
  Forall2 (brings parseMetadata) events others ->
  others = map (fun ev => boundariesOf [ev]) events.
Proof.
  intros Hall. induction Hall as [|ev entries events others Hb _ IH]; [done|].
  cbn [map]. by rewrite <- IH, <- (brings_unique ev entries).
Qed.

(** Without a rewrite of the buffer, what is in it stays and the cues of
    the entries taken are appended. *)
Lemma foldl_onTurn_subFile events : forall t,
  saveSubtitles cfg = false
  \/ Forall (fun ev => forall m, ev = TextMessage m
                                 -> ~ contains m "Path:turn.end") events ->
  subFile (foldl onTurn t events)
  = subFile t ++ map cueOf (boundariesOf events).
Proof.
  induction events as [|ev events IH]; intros t Hkeep.
  { simpl. by rewrite app_nil_r. }
  assert (subFile (onTurn t ev) = subFile t ++ map cueOf (boundariesOf [ev]))
    as Hstep.
  { destruct ev as [|m|data|m|code reason|[|]]; simpl;
      rewrite ?app_nil_r; try done.
    - unfold isTurnEnd, isMetadata.
      destruct (includes m "Path:turn.end") eqn:Hend; simpl.
      + rewrite app_nil_r. destruct Hkeep as [->|Hall]; [done|].
        apply Forall_cons in Hall as [Hm _].
        destruct (Hm m eq_refl). by apply includes_contains.
      + destruct (includes m "Path:audio.metadata"); simpl;
          [|by rewrite app_nil_r].
        by rewrite pushCues_readable.
    - unfold streamWrite. by destruct (streamEnded t).
    - by case_decide.
    - by destruct (turnTimer t). }
  change (ev :: events) with ([ev] ++ events) at 2.
  unfold EdgeTTS.boundariesOf in *. rewrite flat_map_app, map_app, (assoc (++)).
  rewrite <- Hstep. simpl foldl. apply IH.
  destruct Hkeep as [?|Hall]; [by left|right].
  by apply Forall_cons in Hall as [_ ?].
Qed.

End TakenFacts.

End Reading.
(** ** Claims on the protocol client *)

Section ProtocolClaims.

Import EdgeTTS.

Variable parseMetadata : string -> list (option boundary).
Variable cfg : configure.
Variable text : string.
Variable requestId : string.

Local Abbreviation ttsPromise := (ttsPromise parseMetadata cfg text requestId).
Local Abbreviation feasible := (feasible parseMetadata cfg text requestId).
Local Abbreviation onTurn := (onTurn parseMetadata cfg text).

(** A frame ends the turn exactly when [Path:turn.end] stands in it. *)
Lemma turnEnd_contains ev :
  turnEnd ev = true
  <-> exists message, ev = TextMessage message
                      /\ contains message "Path:turn.end".
Proof.
  destruct ev as [|m|data|m|code reason|tm]; simpl;
    try (split; [done|by intros (? & ? & _)]).
  rewrite includes_contains. split; [by eauto|].
  by intros (? & [= <-] & ?).
Qed.


(** C7.  Whatever events a turn receives, its cue buffer grows by one cue
    for every metadata entry the events bring, in the order in which the
    entries arrive: the entries are those written on the last line of each
    text frame with [Path:audio.metadata], up to the first entry that
    cannot be read, and the events bring no other list of entries.  The
    cue has the text of its entry, it starts at the floor of
    [Offset / 10000] and ends at the floor of [(Offset + Duration) / 10000],
    and a time is [NaN] when a tick count it is computed from is missing.
    The times of the cues never change afterwards; the texts are as pushed
    until [turn.end] has the buffer rewritten for the subtitle file. *)
Theorem cue_times_in_arrival_order (t : turn) (events : list wsEvent) :
  exists (arrived : list (list boundary)) (added : list subLine),
    Forall2 (brings parseMetadata) events arrived /\
    (forall others, Forall2 (brings parseMetadata) events others
                    -> others = arrived) /\
    Forall2 cueFor (concat arrived) added /\
    map times (subFile (foldl onTurn t events))
    = map times (subFile t) ++ map times added /\
    (saveSubtitles cfg = false
     \/ Forall (fun ev => forall message,
                   ev = TextMessage message
                   -> ~ contains message "Path:turn.end") events ->
     subFile (foldl onTurn t events) = subFile t ++ added).
Proof.
  destruct (brings_all parseMetadata events) as [Hbrings Hconcat].
  exists (map (fun ev => boundariesOf parseMetadata [ev]) events),
         (map cueOf (boundariesOf parseMetadata events)).
  split; [done|]. split; [apply brings_all_unique|].
  split; [rewrite Hconcat; apply cueFor_map|]. split.
  - by rewrite foldl_onTurn_times, map_map.
  - apply foldl_onTurn_subFile.
Qed.

End ProtocolClaims.
(** ** The frames the client sends *)

Section Frames.

Import EdgeTTS.

Lemma compact_app s1 s2 : compact (s1 +:+ s2) = compact s1 +:+ compact s2.
Proof.
  unfold compact. by rewrite list_ascii_app, filter_app, str_of_list_app.
Qed.

(** A header value without carriage return does not end the header block. *)
Lemma splitFrame_skip s rest :
  Forall (fun c => c <> "013"%char) (list_ascii_of_string s) ->
  splitFrame (s +:+ rest)
  = match splitFrame rest with
    | Some (header, body) => Some (s +:+ header, body)
    | None => None
    end.
Proof.
  induction s as [|c s IH]; intros Hs.
  { rewrite str_app_nil_l. by destruct (splitFrame rest) as [[? ?]|]. }
  simpl in Hs. apply Forall_cons in Hs as [Hc Hs].
  rewrite str_app_cons. cbn [splitFrame].
  apply Ascii.eqb_neq in Hc. rewrite Hc, IH by done.
  by destruct (splitFrame rest) as [[? ?]|].
Qed.

Lemma hexDigit_byte (b : byte) :
  let hi := hexDigit (Byte.to_N b / 16) in
  let lo := hexDigit (Byte.to_N b mod 16) in
  isHexChar hi = true /\ isHexChar lo = true
  /\ hi <> "013"%char /\ lo <> "013"%char.
Proof. destruct b; vm_compute; repeat split; congruence. Qed.

Lemma toHex_chars buf :
  String.length (toHex buf) = (2 * length buf)%nat
  /\ Forall (fun c => isHexChar c = true) (list_ascii_of_string (toHex buf))
  /\ Forall (fun c => c <> "013"%char) (list_ascii_of_string (toHex buf)).
Proof.
  unfold toHex. rewrite str_length_of_list, list_ascii_of_string_of_list_ascii.
  induction buf as [|b buf (IHl & IHh & IHc)]; [by repeat constructor|].
  destruct (hexDigit_byte b) as (? & ? & ? & ?).
  cbn [flat_map length app]. repeat split.
  - rewrite IHl. simpl. lia.
  - by repeat constructor.
  - by repeat constructor.
Qed.

End Frames.

Section Sent.

Import EdgeTTS.

Variable parseMetadata : string -> list (option boundary).
Variable cfg : configure.
Variable text : string.
Variable requestId : string.

Local Abbreviation onEvent := (onEvent parseMetadata cfg text requestId).
Local Abbreviation onTurn := (onTurn parseMetadata cfg text).
Local Abbreviation feasibleFrom := (feasibleFrom parseMetadata cfg text requestId).

Local Abbreviation sending := (sending cfg text requestId).

Lemma sending_start : sending false {| conn := connecting; job := None |}.
Proof. by repeat split. Qed.

Lemma turnSent_onTurn t ev : turnSent (onTurn t ev) = turnSent t.
Proof.
  destruct ev as [|m|data|m|code reason|[|]]; simpl; unfold streamWrite;
    repeat case_match; done.
Qed.

Lemma sending_step opened s ev :
  sending opened s -> canOccur s ev = true ->
  sending (opened || isOpen ev) (onEvent s ev).
Proof.
  intros (Hsent & Hready & Hjob) Hcan.
  destruct s as [c [t|]]; unfold sending, EdgeTTS.onEvent in *; simpl in *.
  - destruct Hjob as [-> Hts]. specialize (Hready eq_refl).
    rewrite turnSent_onTurn.
    destruct ev as [|m|data|m|code reason|[|]]; simpl in *;
      repeat case_match; simpl;
      try apply bool_decide_eq_true in Hcan; done.
  - assert (isOpen ev = true -> opened = false) as Hop.
    { destruct ev; try done. intros _. simpl in Hcan.
      apply bool_decide_eq_true in Hcan.
      destruct opened; [by specialize (Hready eq_refl)|done]. }
    destruct ev as [|m|data|m|code reason|[|]]; simpl in *;
      rewrite ?orb_false_r; rewrite ?Hop by done;
      repeat case_decide; try destruct (connTimer c);
      destruct (connPromise c) eqn:Hp; simpl; rewrite ?Hp, ?Hsent; simpl;
      try rewrite (Hop eq_refl); try done.
Qed.

Lemma sending_all events : forall opened s,
  sending opened s -> feasibleFrom s events = true ->
  sending (opened || existsb isOpen events) (foldl onEvent s events).
Proof.
  induction events as [|ev events IH]; intros opened s Hs Hf.
  { simpl. by rewrite orb_false_r. }
  simpl in Hf. apply andb_true_iff in Hf as [Hcan Hf].
  simpl. rewrite orb_assoc. apply IH; [|done]. by apply sending_step.
Qed.

End Sent.

(** ** Claim on the frames *)

Section FrameClaims.

Import EdgeTTS.

Variable parseMetadata : string -> list (option boundary).
Variable cfg : configure.
Variable text : string.

(** C8.  When the socket opens the client sends one [speech.config] frame,
    and it opens once; the turn then sends one [ssml] frame.  The first has
    the headers [Content-Type:application/json; charset=utf-8] and
    [Path:speech.config], a blank line, and a JSON text that switches the
    sentence boundary off and the word boundary on and names the output
    format.  The second has the headers [X-RequestId] with 32 hexadecimal
    digits, [Content-Type:application/ssml+xml] and [Path:ssml], a blank
    line, and the SSML text with the language, the voice name, the rate,
    pitch and volume of the prosody and the text as it is. *)
Theorem wire_frames (randomBytes : list byte) (events : list wsEvent) :
  length randomBytes = 16%nat ->
  feasible parseMetadata cfg text (requestIdOf randomBytes) events = true ->
  let requestId := requestIdOf randomBytes in
  let s := ttsPromise parseMetadata cfg text requestId events in
  sent s = (if existsb isOpen events then [speechConfig cfg] else [])
           ++ match job s with
              | Some _ => [ssml cfg requestId text]
              | None => []
              end /\
  (is_Some (job s) -> existsb isOpen events = true) /\
  (exists body,
      splitFrame (speechConfig cfg)
      = Some ("Content-Type:application/json; charset=utf-8" +:+ CRLF
              +:+ "Path:speech.config", body) /\
      compact body
      = "{" +:+ q "context" +:+ ":{" +:+ q "synthesis" +:+ ":{" +:+ q "audio"
        +:+ ":{" +:+ q "metadataoptions" +:+ ":{"
        +:+ q "sentenceBoundaryEnabled" +:+ ":" +:+ q "false" +:+ ","
        +:+ q "wordBoundaryEnabled" +:+ ":" +:+ q "true" +:+ "},"
        +:+ q "outputFormat" +:+ ":" +:+ q (compact (outputFormat cfg))
        +:+ "}}}}") /\
  String.length requestId = 32%nat /\
  Forall (fun c => isHexChar c = true) (list_ascii_of_string requestId) /\
  splitFrame (ssml cfg requestId text)
  = Some ("X-RequestId:" +:+ requestId +:+ CRLF
          +:+ "Content-Type:application/ssml+xml" +:+ CRLF +:+ "Path:ssml",
          LF +:+ "        <speak version=" +:+ q "1.0"
          +:+ " xmlns=" +:+ q "http://www.w3.org/2001/10/synthesis"
          +:+ " xmlns:mstts=" +:+ q "https://www.w3.org/2001/mstts"
          +:+ " xml:lang=" +:+ q (lang cfg) +:+ ">" +:+ LF
          +:+ "          <voice name=" +:+ q (voice cfg) +:+ ">" +:+ LF
          +:+ "            <prosody rate=" +:+ q (rate cfg)
          +:+ " pitch=" +:+ q (pitch cfg)
          +:+ " volume=" +:+ q (volume cfg) +:+ ">" +:+ LF
          +:+ "              " +:+ text +:+ LF
          +:+ "            </prosody>" +:+ LF
          +:+ "          </voice>" +:+ LF
          +:+ "        </speak>").
Proof.
  intros Hlen Hf requestId s.
  destruct (toHex_chars randomBytes) as (Hl & Hhex & Hcr).
  split; [|split; [|split; [|split; [|split]]]].
  - pose proof (sending_all parseMetadata cfg text requestId events false _
                  (sending_start cfg text requestId) Hf) as (Hsent & _ & Hjob).
    change (foldl _ _ events) with s in Hsent, Hjob.
    unfold sent. rewrite Hsent. simpl in *.
    destruct (job s) as [t|]; simpl; [|done].
    destruct Hjob as [-> ->]. done.
  - pose proof (sending_all parseMetadata cfg text requestId events false _
                  (sending_start cfg text requestId) Hf) as (_ & _ & Hjob).
    change (foldl _ _ events) with s in Hjob.
    intros [t Ht]. rewrite Ht in Hjob. by destruct Hjob.
  - eexists. split; [reflexivity|].
    unfold q. rewrite !compact_app. reflexivity.
  - unfold requestId, requestIdOf. rewrite Hl, Hlen. done.
  - done.
  - unfold ssml. 
    change ("X-RequestId:" +:+ ?r) with (String.append "X-RequestId:" r).
    rewrite (splitFrame_skip "X-RequestId:") by (by repeat constructor).
    rewrite (splitFrame_skip requestId) by done.
    reflexivity.
Qed.

End FrameClaims.
(** ** The orchestrator: cache check, validation, single segment *)

Section Orchestrator.

Variable generateTaskId : string -> string -> string -> string -> string -> string.
Variable splitText : string -> Split.
Variable franc : string -> string.
Variable getPrompt : string -> string -> string.
Variable AUDIO_DIR : string.
Variable STATIC_DOMAIN : string.
Variable now : Z.
Variable synthesisError : string -> option error.
Variable chatCompletion : string -> error + llmResponse.
Variable finishOrder : nat -> nat.

Local Abbreviation generateTTS' :=
  (generateTTS generateTaskId splitText franc getPrompt AUDIO_DIR STATIC_DOMAIN
               now synthesisError chatCompletion finishOrder).
Local Abbreviation generateWithLLM' :=
  (generateWithLLM splitText getPrompt synthesisError chatCompletion).
Local Abbreviation buildSegment' :=
  (buildSegment AUDIO_DIR STATIC_DOMAIN synthesisError).
Local Abbreviation cacheKeyOf := (cacheKeyOf generateTaskId).

Local Abbreviation mismatch := (mismatch franc).
Local Abbreviation getLangConfig' := (getLangConfig franc).

Lemma generateTTS_hit params task w c :
  cache w !! cacheKeyOf params = Some c ->
  generateTTS' params task w = (Return c, w).
Proof.
  intros H. unfold cacheKeyOf in H. unfold generateTTS, bind, getAudio.
  by rewrite H.
Qed.

Lemma validate_mismatch params w :
  mismatch params ->
  validateLangAndVoice (getLangConfig franc (text params)) (voice params) w
  = (Throw (Error_ ErrorMessages.ENG_MODEL_INVALID_TEXT), w).
Proof.
  intros [Hl Hv]. unfold validateLangAndVoice.
  by rewrite bool_decide_eq_false_2, Hv.
Qed.

Lemma validate_pass params w :
  ~ mismatch params ->
  validateLangAndVoice (getLangConfig franc (text params)) (voice params) w
  = (Return tt, w).
Proof.
  intros H. unfold validateLangAndVoice, mismatch in *.
  case_bool_decide as Hl; simpl; [done|].
  destruct (startsWith (voice params) "en") eqn:Hv; [|done].
  by destruct H.
Qed.

Lemma generateTTS_mismatch params task w :
  cache w !! cacheKeyOf params = None -> mismatch params ->
  generateTTS' params task w
  = (Throw (Error_ ErrorMessages.ENG_MODEL_INVALID_TEXT), w).
Proof.
  intros Hc Hm. unfold cacheKeyOf in Hc.
  unfold generateTTS, bind, getAudio. rewrite Hc.
  cbn [s_text]. by rewrite validate_mismatch.
Qed.

(** [generateWithLLM] on a text of several segments: [undefined], and
    nothing done. *)
Lemma generateWithLLM_undefined segment lang w :
  (1 < length_ (splitText (trim (s_text segment))))%nat ->
  generateWithLLM' segment lang w = (Return None, w).
Proof.
  intros H. unfold generateWithLLM. by rewrite decide_False by lia.
Qed.

Lemma generateTTS_LLM_several params task w :
  cache w !! cacheKeyOf params = None -> ~ mismatch params ->
  useLLM params = true ->
  (1 < length_ (splitText (trim (text params))))%nat ->
  generateTTS' params task w
  = (Throw (Err "TypeError" "Cannot read properties of undefined (reading 'audio')"), w).
Proof.
  intros Hc Hm Hllm Hlen. unfold cacheKeyOf in Hc.
  unfold generateTTS, bind, getAudio.
  rewrite Hc. cbn [s_text]. rewrite validate_pass, Hllm by done.
  by rewrite generateWithLLM_undefined.
Qed.

(** C5, as the code has it.  When the detected language is not [eng] and
    the voice name starts with [en], a request whose key is not in the cache
    fails with the validation error, and one whose key is in the cache gets
    the cached result; either way the world is left as it was: no session
    is opened, nothing is asked of the language model, nothing is cached. *)
Theorem validation_before_synthesis params task w :
  mismatch params ->
  match cache w !! cacheKeyOf params with
  | None =>
      generateTTS' params task w
      = (Throw (Error_ "English model cannot process non-English text"), w)
  | Some c => generateTTS' params task w = (Return c, w)
  end.
Proof.
  intros Hm. destruct (cache w !! cacheKeyOf params) as [c|] eqn:Hc.
  - by apply generateTTS_hit.
  - by apply generateTTS_mismatch.
Qed.

(** C10, as the code has it.  With [useLLM] set, a text that [splitText]
    cuts (once trimmed) into several segments, and no cache entry for the
    request, [generateWithLLM] returns [undefined] and the call throws:
    the validation error when language and voice do not fit, else the
    [TypeError] of reading [audio] of [undefined].  Nothing is done to the
    outside. *)
Theorem llm_several_segments_throws params task w :
  useLLM params = true ->
  (1 < length_ (splitText (trim (text params))))%nat ->
  cache w !! cacheKeyOf params = None ->
  generateWithLLM'
    {| id := generateId now (voice params) (text params);
       s_text := text params |}
    (getLangConfig franc (text params)) w
  = (Return None, w)
  /\ exists e,
       generateTTS' params task w = (Throw e, w) /\
       (~ mismatch params ->
        e = Err "TypeError" "Cannot read properties of undefined (reading 'audio')").
Proof.
  intros Hllm Hlen Hc. split; [by apply generateWithLLM_undefined|].
  destruct (decide (getLangConfig franc (text params) = "eng")) as [He|He].
  - eexists. split; [|done].
    apply generateTTS_LLM_several; try done. by intros [? _].
  - destruct (startsWith (voice params) "en") eqn:Hv.
    + eexists. split; [by apply generateTTS_mismatch|].
      intros H. by destruct H.
    + eexists. split; [|done].
      apply generateTTS_LLM_several; try done. intros [_ ?]. congruence.
Qed.

(** C6.  For a request that is not served from the cache, passes the
    language and voice check, does not use the language model and whose
    text is one segment: when the session of that segment fails, the call
    fails with the same error and caches nothing; and a result the call
    returns is never marked partial. *)
Theorem single_segment_failure params task w :
  cache w !! cacheKeyOf params = None ->
  ~ mismatch params ->
  useLLM params = false ->
  length_ (splitText (text params)) = 1%nat ->
  let output := resolve AUDIO_DIR (generateId now (voice params) (text params)) in
  (forall e, synthesisError output = Some e ->
     exists w', generateTTS' params task w = (Throw e, w')
                /\ cache w' = cache w) /\
  (forall r w', generateTTS' params task w = (Return r, w') ->
     partial r = None /\ synthesisError output = None).
Proof.
  intros Hc Hm Hllm Hlen output. unfold cacheKeyOf in Hc.
  unfold generateTTS, bind, getAudio. rewrite Hc. cbn [s_text].
  rewrite validate_pass, Hllm by done.
  unfold generateWithoutLLM. cbn [p_text]. rewrite Hlen.
  rewrite decide_True by lia.
  unfold buildSegment, generateSingleVoice, runEdgeTTS, bind, emit.
  cbn [id s_text p_output]. fold output.
  destruct (synthesisError output) as [e|]; simpl.
  - split; [|done]. intros e' [= <-]. eexists. split; [reflexivity|done].
  - split; [done|].
    unfold validateTTSResult. simpl.
    case_decide; simpl; [done|]. intros r w' [= <- <-]. done.
Qed.

(** The same with the language model: when the text is one segment, the
    error of the one session is the error of the call, and a result the
    call returns is not marked partial. *)
Lemma single_segment_failure_LLM params task w :
  cache w !! cacheKeyOf params = None ->
  ~ mismatch params ->
  useLLM params = true ->
  (length_ (splitText (trim (text params))) <= 1)%nat ->
  (forall reply e,
     chatCompletion (getPrompt (getLangConfig' (text params)) (text params))
     = inr reply ->
     result_ reply <> OtherResult ->
     synthesisError (output reply) = Some e ->
     exists w', generateTTS' params task w = (Throw e, w')
                /\ cache w' = cache w) /\
  (forall r w', generateTTS' params task w = (Return r, w') ->
     partial r = None).
Proof.
  intros Hc Hm Hllm Hlen. unfold cacheKeyOf in Hc.
  unfold generateTTS, bind, getAudio. rewrite Hc. cbn [s_text].
  rewrite validate_pass, Hllm by done.
  unfold generateWithLLM, fetchLLMSegment, bind, emit. cbn [s_text].
  rewrite decide_True by done. simpl.
  destruct (chatCompletion _) as [e0|reply] eqn:Hchat; simpl.
  { split; [by intros ? ? [=]|by intros r w' [=]]. }
  destruct (result_ reply) eqn:Hresult; simpl;
    [| |split; [by intros ? ? [= <-] ?|by intros r w' [=]]];
    unfold runEdgeTTS, bind, emit; simpl;
    (destruct (synthesisError (output reply)) as [e|] eqn:Hsynth; simpl;
     [split; [|by intros r w' [=]];
      intros reply' e' [= <-] _ He; rewrite Hsynth in He;
      injection He as <-; eexists; split; [reflexivity|done]
     |split; [intros reply' e' [= <-] _ He; congruence|];
      unfold validateTTSResult; simpl; case_decide; simpl;
      [by intros r w' [=]|by intros r w' [= <- <-]]]).
Qed.

End Orchestrator.
(** ** Doubles: what [getProgress] computes *)

Section Doubles.

Local Open Scope Z_scope.

Lemma digits2_pos_spec p :
  2 ^ (Zpos (digits2_pos p) - 1) <= Zpos p < 2 ^ Zpos (digits2_pos p).
Proof.
  induction p as [p IH|p IH|]; cbn [digits2_pos]; [| |done].
  - rewrite Pos2Z.inj_succ.
    replace (Z.succ (Zpos (digits2_pos p)) - 1)
      with (Z.succ (Zpos (digits2_pos p) - 1)) by lia.
    rewrite !Z.pow_succ_r by lia. lia.
  - rewrite Pos2Z.inj_succ.
    replace (Z.succ (Zpos (digits2_pos p)) - 1)
      with (Z.succ (Zpos (digits2_pos p) - 1)) by lia.
    rewrite !Z.pow_succ_r by lia. lia.
Qed.

Lemma Zdigits2_unique x d :
  0 < d -> 2 ^ (d - 1) <= x < 2 ^ d -> Zdigits2 x = d.
Proof.
  intros Hd [Hlo Hhi].
  assert (0 < x) by (pose proof (Z.pow_pos_nonneg 2 (d - 1)); lia).
  destruct x as [|p|p]; [lia| |lia]. simpl.
  pose proof (digits2_pos_spec p) as [Hlo' Hhi'].
  destruct (Z.lt_trichotomy (Zpos (digits2_pos p)) d) as [Hlt|[?|Hgt]]; [|done|].
  - pose proof (Z.pow_le_mono_r 2 (Zpos (digits2_pos p)) (d - 1)). lia.
  - pose proof (Z.pow_le_mono_r 2 d (Zpos (digits2_pos p) - 1)). lia.
Qed.

Lemma shr_1_m r : 0 <= shr_m r -> shr_m (shr_1 r) = shr_m r / 2.
Proof.
  destruct r as [m rb sb]. simpl. intros Hm.
  rewrite <- Z.div2_div. by destruct m as [|[p|p|]|p].
Qed.

Lemma iter_shr_m p : forall r,
  0 <= shr_m r -> shr_m (SpecFloat.iter_pos shr_1 p r) = shr_m r / 2 ^ Zpos p.
Proof.
  induction p as [p IH|p IH|]; intros r Hr; cbn [SpecFloat.iter_pos].
  - assert (0 <= shr_m (shr_1 r)) by (rewrite shr_1_m by done; by apply Z.div_pos).
    assert (0 <= shr_m (SpecFloat.iter_pos shr_1 p (shr_1 r)))
      by (rewrite IH by done; apply Z.div_pos; lia).
    rewrite !IH, shr_1_m by done.
    rewrite !Z.div_div by lia. f_equal.
    replace (Zpos p~1) with (1 + Zpos p + Zpos p) by lia.
    rewrite !Z.pow_add_r by lia. change (2 ^ 1) with 2. lia.
  - assert (0 <= shr_m (SpecFloat.iter_pos shr_1 p r))
      by (rewrite IH by done; apply Z.div_pos; lia).
    rewrite !IH by done.
    rewrite !Z.div_div by lia. f_equal.
    replace (Zpos p~0) with (Zpos p + Zpos p) by lia.
    by rewrite Z.pow_add_r by lia.
  - rewrite shr_1_m by done. done.
Qed.

Lemma round_nearest_even_cases m l :
  round_nearest_even m l = m \/ round_nearest_even m l = m + 1.
Proof.
  destruct l as [|[| |]]; simpl; auto. destruct (Z.even m); auto.
Qed.

Lemma shr_record_m m l : shr_m (shr_record_of_loc m l) = m.
Proof. by destruct l as [|[| |]]. Qed.

Lemma loc_of_record m l : loc_of_shr_record (shr_record_of_loc m l) = l.
Proof. by destruct l as [|[| |]]. Qed.

(** The shift that brings a mantissa of [d >= 53] digits to 53 digits. *)
Lemma shr_fexp_normal mx ex lx d :
  0 <= mx -> Zdigits2 mx = d -> 53 <= d -> -1074 <= ex ->
  exists mrs,
    shr_fexp 53 1024 mx ex lx = (mrs, ex + (d - 53))
    /\ shr_m mrs = mx / 2 ^ (d - 53)
    /\ (d = 53 -> mrs = shr_record_of_loc mx lx).
Proof.
  intros Hmx Hd Hprec Hex. unfold shr_fexp, fexp, emin. rewrite Hd.
  replace (Z.max (d + ex - 53) (3 - 1024 - 53)) with (d + ex - 53) by lia.
  replace (d + ex - 53 - ex) with (d - 53) by lia.
  destruct (d - 53) as [|p|p] eqn:Hn; [| |lia]; unfold shr.
  - eexists. split; [by rewrite Z.add_0_r|].
    split; [|done]. by rewrite shr_record_m, Z.div_1_r.
  - eexists. split; [done|]. split; [|lia].
    by rewrite iter_shr_m, shr_record_m by (by rewrite shr_record_m).
Qed.

(** Rounding a mantissa of at least 53 digits, away from the ends of the
    exponent range: the result has 53 digits and is one of the two
    neighbours of the value. *)
Lemma round_aux_normal mx ex lx d :
  2 ^ (d - 1) <= mx < 2 ^ d -> 53 <= d -> -1074 <= ex ->
  ex + (d - 53) < 971 ->
  exists m e,
    binary_round_aux 53 1024 false mx ex lx = S754_finite false m e
    /\ 2 ^ 52 <= Zpos m < 2 ^ 53
    /\ ex + (d - 53) <= e <= ex + (d - 53) + 1
    /\ mx - 2 ^ (d - 53) < Zpos m * 2 ^ (e - ex) <= mx + 2 ^ (d - 53)
    /\ (d = 53 -> lx = loc_Exact -> Zpos m = mx /\ e = ex).
Proof.
  intros Hmx Hd Hex Hmax.
  assert (0 < 2 ^ (d - 1)) by (apply Z.pow_pos_nonneg; lia).
  assert (Zdigits2 mx = d) as Hdig by (apply Zdigits2_unique; lia).
  destruct (shr_fexp_normal mx ex lx d) as (mrs & Hs & Hm & Hrec); try lia.
  unfold binary_round_aux. rewrite Hs. cbv beta iota zeta.
  set (n := d - 53) in *.
  assert (0 < 2 ^ n) as Hn by (apply Z.pow_pos_nonneg; lia).
  assert (2 ^ (d - 1) = 2 ^ n * 2 ^ 52) as Hlo.
  { rewrite <- Z.pow_add_r by lia. f_equal. lia. }
  assert (2 ^ d = 2 ^ n * 2 ^ 53) as Hhi.
  { rewrite <- Z.pow_add_r by lia. f_equal. lia. }
  assert (2 ^ n * (mx / 2 ^ n) <= mx < 2 ^ n * (mx / 2 ^ n) + 2 ^ n) as Hdiv.
  { pose proof (Z.mul_div_le mx (2 ^ n) Hn).
    pose proof (Z.mul_succ_div_gt mx (2 ^ n) Hn). lia. }
  set (m1 := mx / 2 ^ n) in *.
  assert (2 ^ 52 <= m1 < 2 ^ 53) as Hm1.
  { split.
    - apply Z.div_le_lower_bound; lia.
    - apply Z.div_lt_upper_bound; lia. }
  rewrite Hm.
  set (m' := round_nearest_even m1 (loc_of_shr_record mrs)).
  assert (m' = m1 \/ m' = m1 + 1) as Hm' by apply round_nearest_even_cases.
  destruct (decide (m' < 2 ^ 53)) as [Hsmall|Hbig].
  - destruct (shr_fexp_normal m' (ex + n) loc_Exact 53) as (mrs2 & Hs2 & Hm2 & Hrec2);
      try lia.
    { apply Zdigits2_unique; [lia|]. change (53 - 1) with 52. lia. }
    rewrite Hs2. cbv beta iota zeta. rewrite Hm2.
    change (53 - 53) with 0. rewrite Z.div_1_r, Z.add_0_r.
    destruct m' as [|m|m] eqn:Hmm; [lia| |lia].
    replace (ex + n <=? 1024 - 53) with true by (symmetry; apply Z.leb_le; lia).
    exists m, (ex + n). split; [done|]. split; [lia|]. split; [lia|].
    replace (ex + n - ex) with n by lia. split; [nia|].
    intros Hd53 ->. split; [|lia].
    unfold m' in Hmm. rewrite Hrec in Hmm by done. simpl in Hmm.
    unfold m1, n in Hmm. rewrite Hd53 in Hmm.
    change (53 - 53) with 0 in Hmm. by rewrite Z.div_1_r in Hmm.
  - assert (m' = 2 ^ 53) as Hm53 by lia.
    destruct (shr_fexp_normal m' (ex + n) loc_Exact 54) as (mrs2 & Hs2 & Hm2 & Hrec2);
      try lia.
    { apply Zdigits2_unique; [lia|]. rewrite Hm53.
      change (54 - 1) with 53. change (2 ^ 54) with (2 * 2 ^ 53). lia. }
    rewrite Hs2. cbv beta iota zeta. rewrite Hm2, Hm53.
    change (2 ^ 53 / 2 ^ (54 - 53)) with (Zpos (2 ^ 52)).
    change (54 - 53) with 1.
    replace (ex + n + 1 <=? 1024 - 53) with true by (symmetry; apply Z.leb_le; lia).
    exists (2 ^ 52)%positive, (ex + n + 1). split; [done|].
    split; [done|]. split; [lia|].
    replace (ex + n + 1 - ex) with (n + 1) by lia.
    rewrite Z.pow_add_r by lia. change (2 ^ 1) with 2.
    change (Zpos (2 ^ 52)) with (2 ^ 52).
    assert (m1 + 1 = 2 ^ 53) by lia.
    split; [nia|].
    intros Hd53 ->. exfalso.
    unfold m' in Hm53. rewrite Hrec in Hm53 by done. simpl in Hm53. lia.
Qed.

Lemma Pos_iter_xO p k : Zpos (Pos.iter xO p k) = Zpos p * 2 ^ Zpos k.
Proof.
  induction k as [|k IH] using Pos.peano_ind.
  - simpl. lia.
  - rewrite Pos.iter_succ, Pos2Z.inj_succ, Z.pow_succ_r by lia.
    rewrite Pos2Z.inj_xO, IH. lia.
Qed.

(** A whole number below 2^53 is a double. *)
Lemma double_spec n :
  0 < n < 2 ^ 53 ->
  exists m a,
    double n = S754_finite false m (- a)
    /\ 0 <= a <= 52 /\ Zpos m = n * 2 ^ a /\ 2 ^ 52 <= Zpos m < 2 ^ 53.
Proof.
  intros [Hpos Hn]. destruct n as [|p|p]; [lia| |lia].
  unfold double, binary_normalize, binary_round.
  pose proof (digits2_pos_spec p) as [Hlo Hhi].
  set (dp := Zpos (digits2_pos p)) in *.
  assert (1 <= dp <= 53) as Hdp.
  { split; [unfold dp; lia|].
    destruct (decide (dp <= 53)) as [|Hbig]; [done|exfalso].
    pose proof (Z.pow_le_mono_r 2 53 (dp - 1)). lia. }
  unfold fexp, emin.
  replace (Z.max (dp + 0 - 53) (3 - 1024 - 53)) with (dp - 53) by lia.
  unfold shl_align.
  assert (exists mz, (match dp - 53 - 0 with
                      | Z.neg d => (Pos.iter xO p d, dp - 53)
                      | _ => (p, 0)
                      end) = (mz, dp - 53)
                     /\ Zpos mz = Zpos p * 2 ^ (53 - dp)) as (mz & -> & Hmz).
  { destruct (dp - 53 - 0) as [|k|k] eqn:Hk; [|lia|].
    - exists p. replace (dp - 53) with 0 by lia.
      split; [done|]. replace (53 - dp) with 0 by lia. lia.
    - exists (Pos.iter xO p k). split; [done|].
      rewrite Pos_iter_xO. f_equal. f_equal. lia. }
  assert (2 ^ 52 <= Zpos mz < 2 ^ 53) as Hrange.
  { rewrite Hmz.
    assert (2 ^ 52 = 2 ^ (dp - 1) * 2 ^ (53 - dp)) as ->.
    { rewrite <- Z.pow_add_r by lia. f_equal. lia. }
    assert (2 ^ 53 = 2 ^ dp * 2 ^ (53 - dp)) as ->.
    { rewrite <- Z.pow_add_r by lia. f_equal. lia. }
    assert (0 < 2 ^ (53 - dp)) by (apply Z.pow_pos_nonneg; lia).
    split; [apply Z.mul_le_mono_nonneg_r; lia|].
    apply Z.mul_lt_mono_pos_r; lia. }
  destruct (round_aux_normal (Zpos mz) (dp - 53) loc_Exact 53)
    as (m & e & -> & _ & _ & _ & Hexact); try lia.
  destruct (Hexact eq_refl eq_refl) as [Hm ->].
  exists m, (53 - dp). replace (- (53 - dp)) with (dp - 53) by lia.
  split; [done|]. split; [lia|]. split; [by rewrite Hm|]. by rewrite Hm.
Qed.

(** The quotient of two doubles with 53 digits. *)
Lemma SFdiv_spec mh a mL b :
  2 ^ 52 <= Zpos mh < 2 ^ 53 -> 2 ^ 52 <= Zpos mL < 2 ^ 53 ->
  0 <= a <= 52 -> 0 <= b <= 52 ->
  exists mq eq q,
    SFdiv 53 1024 (S754_finite false mh (- a)) (S754_finite false mL (- b))
    = S754_finite false mq eq
    /\ 2 ^ 52 <= Zpos mq < 2 ^ 53
    /\ b - a - 53 <= eq <= b - a - 51
    /\ q * Zpos mL <= Zpos mh * 2 ^ 53 < (q + 1) * Zpos mL
    /\ q - 2 < Zpos mq * 2 ^ (eq - (b - a - 53)) <= q + 2.
Proof.
  intros Hh HL Ha Hb. unfold SFdiv, SFdiv_core_binary.
  rewrite !(Zdigits2_unique _ 53) by (change (53 - 1) with 52; lia).
  unfold fexp, emin.
  replace (Z.max (53 + - a - (53 + - b) - 53) (3 - 1024 - 53))
    with (b - a - 53) by lia.
  replace (Z.min (b - a - 53) (- a - - b)) with (b - a - 53) by lia.
  replace (- a - - b - (b - a - 53)) with 53 by lia.
  rewrite Z.shiftl_mul_pow2 by lia.
  pose proof (Z_div_mod (Zpos mh * 2 ^ 53) (Zpos mL) ltac:(lia)) as Hdiv.
  destruct (Z.div_eucl (Zpos mh * 2 ^ 53) (Zpos mL)) as [q r].
  destruct Hdiv as [Hq Hr]. cbv beta iota zeta.
  change (xorb false false) with false.
  assert (2 ^ 52 <= q < 2 ^ 54) as Hrange.
  { change (2 ^ 54) with (2 * 2 ^ 53) in *. change (2 ^ 53) with (2 * 2 ^ 52) in *.
    nia. }
  assert (q * Zpos mL <= Zpos mh * 2 ^ 53 < (q + 1) * Zpos mL) as Hquot by lia.
  destruct (decide (q < 2 ^ 53)) as [Hsmall|Hbig].
  - destruct (round_aux_normal q (b - a - 53) (new_location (Zpos mL) r) 53)
      as (mq & eq & -> & Hmq & Heq & Hv & _); try lia.
    exists mq, eq, q. split; [done|]. split; [done|]. split; [lia|].
    split; [done|]. change (2 ^ (53 - 53)) with 1 in Hv. lia.
  - destruct (round_aux_normal q (b - a - 53) (new_location (Zpos mL) r) 54)
      as (mq & eq & -> & Hmq & Heq & Hv & _); try lia.
    exists mq, eq, q. split; [done|]. split; [done|]. split; [lia|].
    split; [done|]. change (2 ^ (54 - 53)) with 2 in Hv. lia.
Qed.

Lemma double_100 : double 100 = S754_finite false 7036874417766400 (-46).
Proof. reflexivity. Qed.

(** A double with 53 digits times 100. *)
Lemma SFmul_100_spec mq eq :
  2 ^ 52 <= Zpos mq < 2 ^ 53 -> -1000 <= eq <= 900 ->
  exists my ey,
    SFmul 53 1024 (S754_finite false mq eq) (double 100)
    = S754_finite false my ey
    /\ 2 ^ 52 <= Zpos my < 2 ^ 53
    /\ eq + 6 <= ey <= eq + 8
    /\ Zpos mq * (100 * 2 ^ 46) - 2 ^ 53
       < Zpos my * 2 ^ (ey - (eq - 46))
       <= Zpos mq * (100 * 2 ^ 46) + 2 ^ 53.
Proof.
  intros Hq Heq. rewrite double_100. unfold SFmul.
  rewrite Pos2Z.inj_mul. change (xorb false false) with false.
  change (Zpos 7036874417766400) with (100 * 2 ^ 46).
  replace (eq + -46) with (eq - 46) by lia.
  set (P := Zpos mq * (100 * 2 ^ 46)).
  assert (2 ^ 104 <= P < 2 ^ 106) as HP.
  { unfold P. change (2 ^ 104) with (2 ^ 52 * 2 ^ 52).
    change (2 ^ 106) with (2 ^ 53 * 2 ^ 53).
    change (100 * 2 ^ 46) with 7036874417766400.
    change (2 ^ 52) with 4503599627370496 in *.
    change (2 ^ 53) with 9007199254740992 in *. lia. }
  destruct (decide (P < 2 ^ 105)) as [Hsmall|Hbig].
  - destruct (round_aux_normal P (eq - 46) loc_Exact 105)
      as (my & ey & -> & Hmy & Hey & Hv & _); try lia.
    exists my, ey. split; [done|]. split; [done|]. split; [lia|].
    change (2 ^ (105 - 53)) with (2 ^ 52) in Hv.
    change (2 ^ 53) with (2 * 2 ^ 52). lia.
  - destruct (round_aux_normal P (eq - 46) loc_Exact 106)
      as (my & ey & -> & Hmy & Hey & Hv & _); try lia.
    exists my, ey. split; [done|]. split; [done|]. split; [lia|].
    change (2 ^ (106 - 53)) with (2 ^ 53) in Hv. lia.
Qed.

(** A smaller number has the larger shift. *)
Lemma shift_order h L a b :
  0 < h <= L -> 0 <= a -> 0 <= b ->
  2 ^ 52 <= h * 2 ^ a -> L * 2 ^ b < 2 ^ 53 -> b <= a.
Proof.
  intros Hh Ha Hb Hlo Hhi.
  destruct (decide (b <= a)) as [|Hlt]; [done|exfalso].
  assert (2 ^ b = 2 ^ (b - a - 1) * 2 * 2 ^ a) as Hpow.
  { replace b with (b - a - 1 + 1 + a) at 1 by lia.
    rewrite !Z.pow_add_r by lia. done. }
  assert (0 < 2 ^ (b - a - 1)) by (apply Z.pow_pos_nonneg; lia).
  assert (0 < 2 ^ a) by (apply Z.pow_pos_nonneg; lia).
  change (2 ^ 53) with (2 * 2 ^ 52) in Hhi. nia.
Qed.

(** The percentage [getProgress] gives is the exact one rounded to the
    hundredth, but for percentages within 2^-21 hundredths of the middle
    between two hundredths, where it may be either. *)
Lemma getProgress_near (h L : nat) :
  (1 <= h <= L)%nat -> Z.of_nat L < 2 ^ 32 ->
  2 ^ 20 * Z.of_nat L * (2 * getProgress h L - 1) - Z.of_nat L
  <= 20000 * 2 ^ 20 * Z.of_nat h
  < 2 ^ 20 * Z.of_nat L * (2 * getProgress h L + 1) + Z.of_nat L.
Proof.
  intros Hh HL. unfold getProgress.
  set (zh := Z.of_nat h). set (zL := Z.of_nat L).
  assert (1 <= zh <= zL) as Hzh by (unfold zh, zL; lia).
  fold zL in HL.
  destruct (double_spec zh) as (mh & a & -> & Ha & Hmh & Hrh).
  { change (2 ^ 53) with (2 ^ 21 * 2 ^ 32). lia. }
  destruct (double_spec zL) as (mL & b & -> & Hb & HmL & HrL).
  { change (2 ^ 53) with (2 ^ 21 * 2 ^ 32). lia. }
  assert (b <= a) as Hba.
  { apply (shift_order zh zL); lia. }
  destruct (SFdiv_spec mh a mL b) as (mq & eq & q & -> & Hmq & Heq & Hq & Hv);
    try done.
  destruct (SFmul_100_spec mq eq) as (my & ey & -> & Hmy & Hey & Hw);
    [done|lia|].
  unfold toFixed2. rewrite decide_True by lia.
  set (n := (200 * Zpos my + 2 ^ (- ey)) / 2 ^ (1 - ey)).
  (* the powers of two involved *)
  set (A := 2 ^ (a - b + 53)).
  set (c := 2 ^ (eq - (b - a - 53))) in *.
  set (g := 2 ^ (ey - (eq - 46))) in *.
  assert (2 ^ 53 <= A) as HA.
  { unfold A. apply Z.pow_le_mono_r; lia. }
  assert (1 <= c <= 4) as Hc.
  { unfold c. split.
    - change 1 with (2 ^ 0). apply Z.pow_le_mono_r; lia.
    - change 4 with (2 ^ 2). apply Z.pow_le_mono_r; lia. }
  assert (0 < g) as Hg by (apply Z.pow_pos_nonneg; lia).
  assert (0 < 2 ^ a) as Hpa by (apply Z.pow_pos_nonneg; lia).
  assert (0 < 2 ^ b) as Hpb by (apply Z.pow_pos_nonneg; lia).
  assert (2 ^ a * 2 ^ 53 = A * 2 ^ b) as HAb.
  { unfold A. rewrite <- !Z.pow_add_r by lia. f_equal. lia. }
  assert (2 ^ (- ey) * (g * c) = A * 2 ^ 46) as HS.
  { unfold A, g, c. rewrite <- !Z.pow_add_r by lia. f_equal. lia. }
  assert (2 ^ (1 - ey) = 2 * 2 ^ (- ey)) as Hey1.
  { replace (1 - ey) with (1 + - ey) by lia.
    by rewrite Z.pow_add_r by lia. }
  (* the quotient against the exact one *)
  assert (q * zL <= zh * A < (q + 1) * zL) as Hquot.
  { rewrite Hmh, HmL in Hq.
    replace (zh * 2 ^ a * 2 ^ 53) with (zh * A * 2 ^ b) in Hq
      by (rewrite <- !Z.mul_assoc, HAb; done).
    replace (q * (zL * 2 ^ b)) with (q * zL * 2 ^ b) in Hq by lia.
    replace ((q + 1) * (zL * 2 ^ b)) with ((q + 1) * zL * 2 ^ b) in Hq by lia.
    split.
    - apply (Z.mul_le_mono_pos_r _ _ (2 ^ b)); lia.
    - apply (Z.mul_lt_mono_pos_r (2 ^ b)); lia. }
  (* the rounding to the hundredth *)
  assert (0 < 2 ^ (- ey)) as Hpe by (apply Z.pow_pos_nonneg; lia).
  assert (n * 2 ^ (1 - ey) <= 200 * Zpos my + 2 ^ (- ey)
          < (n + 1) * 2 ^ (1 - ey)) as Hn.
  { assert (0 < 2 ^ (1 - ey)) as Hp1 by lia.
    pose proof (Z.mul_div_le (200 * Zpos my + 2 ^ (- ey)) _ Hp1).
    pose proof (Z.mul_succ_div_gt (200 * Zpos my + 2 ^ (- ey)) _ Hp1).
    fold n in H, H0. lia. }
  set (Y := Zpos my * (g * c)).
  set (S := A * 2 ^ 46) in *.
  assert ((2 * n - 1) * S <= 200 * Y < (2 * n + 1) * S) as HnS.
  { rewrite Hey1 in Hn. destruct Hn as [Hn1 Hn2].
    assert (0 < g * c) as Hgc by nia.
    apply (Z.mul_le_mono_nonneg_r _ _ (g * c)) in Hn1; [|lia].
    apply (Z.mul_lt_mono_pos_r (g * c)) in Hn2; [|lia].
    unfold Y. rewrite <- HS. split; nia. }
  assert (100 * 2 ^ 46 * (q - 1) - 2 ^ 55 < Y
          <= 100 * 2 ^ 46 * (q + 2) + 2 ^ 55) as HY.
  { unfold Y. rewrite Z.mul_assoc.
    set (W := Zpos my * g) in *. set (V := Zpos mq * c) in *.
    assert (Zpos mq * (100 * 2 ^ 46) * c = 100 * 2 ^ 46 * V) as HP
      by (unfold V; lia).
    change (2 ^ 55) with (2 ^ 53 * 4).
    destruct Hw as [Hw1 Hw2].
    apply (Z.mul_lt_mono_pos_r c) in Hw1; [|lia].
    apply (Z.mul_le_mono_nonneg_r _ _ c) in Hw2; [|lia].
    rewrite Z.mul_sub_distr_r, HP in Hw1.
    rewrite Z.mul_add_distr_r, HP in Hw2.
    assert (2 ^ 53 * c <= 2 ^ 53 * 4) by lia.
    assert (q - 1 <= V <= q + 2) as [HV1 HV2] by lia.
    apply (Z.mul_le_mono_nonneg_l _ _ (100 * 2 ^ 46)) in HV1; [|lia].
    apply (Z.mul_le_mono_nonneg_l _ _ (100 * 2 ^ 46)) in HV2; [|lia].
    lia. }
  assert (S = A * 2 ^ 46) as HSdef by done.
  clearbody Y S n A c g.
  clear -Hzh HL HA Hquot HnS HY HSdef.
  assert (0 < zL) by lia.
  subst S.
  split.
  - assert (Y * zL <= 100 * 2 ^ 46 * (zh * A + 2 * zL) + 2 ^ 55 * zL) as HYL by nia.
    assert ((2 * n - 1) * (A * 2 ^ 46) * zL <= 200 * (Y * zL)) as H1 by nia.
    assert (A * (2 ^ 20 * zL * (2 * n - 1) - zL - 20000 * 2 ^ 20 * zh) <= 0)
      as H2 by nia.
    nia.
  - assert (100 * 2 ^ 46 * (zh * A - 2 * zL) - 2 ^ 55 * zL < Y * zL) as HYL by nia.
    assert (200 * (Y * zL) < (2 * n + 1) * (A * 2 ^ 46) * zL) as H1 by nia.
    assert (0 < A * (2 ^ 20 * zL * (2 * n + 1) + zL - 20000 * 2 ^ 20 * zh))
      as H2 by nia.
    nia.
Qed.

Lemma getProgress_0 (L : nat) :
  (1 <= L)%nat -> Z.of_nat L < 2 ^ 32 -> getProgress 0 L = 0.
Proof.
  intros HL Hsmall. unfold getProgress.
  destruct (double_spec (Z.of_nat L)) as (mL & b & -> & _).
  { change (2 ^ 53) with (2 ^ 21 * 2 ^ 32). lia. }
  done.
Qed.

Lemma getProgress_nonneg (h L : nat) :
  (h <= L)%nat -> Z.of_nat L < 2 ^ 32 -> 0 <= getProgress h L.
Proof.
  intros Hh HL. destruct L as [|L].
  { by replace h with 0%nat by lia. }
  destruct h as [|h]; [by rewrite getProgress_0 by lia|].
  pose proof (getProgress_near (S h) (S L) ltac:(lia) HL) as [_ Hup].
  nia.
Qed.

(** The percentage is within half a hundredth, and 2^-21 of one, of the
    exact one. *)
Lemma getProgress_close (h L : nat) :
  (h <= L)%nat -> Z.of_nat L < 2 ^ 32 ->
  Z.abs (Z.of_nat L * getProgress h L - 10000 * Z.of_nat h) * 2 ^ 21
  <= Z.of_nat L * (2 ^ 20 + 1).
Proof.
  intros Hh HL. destruct L as [|L].
  { by replace h with 0%nat by lia. }
  destruct h as [|h].
  { rewrite getProgress_0 by lia. simpl Z.abs. lia. }
  pose proof (getProgress_near (S h) (S L) ltac:(lia) HL) as [Hlo Hup].
  change (2 ^ 20) with 1048576 in *. change (2 ^ 21) with 2097152.
  lia.
Qed.

Lemma getProgress_mono (k k' total : nat) :
  (k <= k' <= total)%nat -> Z.of_nat total < 2 ^ 32 ->
  getProgress k total <= getProgress k' total.
Proof.
  intros Hk Ht.
  destruct (decide (k = k')) as [->|Hne]; [done|].
  destruct k as [|k].
  { rewrite getProgress_0 by lia. apply getProgress_nonneg; lia. }
  pose proof (getProgress_near (S k) total ltac:(lia) Ht) as [Hlo _].
  pose proof (getProgress_near k' total ltac:(lia) Ht) as [_ Hup].
  change (2 ^ 32) with 4294967296 in Ht.
  change (2 ^ 20) with 1048576 in *.
  nia.
Qed.

Lemma getProgress_le (k total : nat) :
  (k <= total)%nat -> Z.of_nat total < 2 ^ 32 ->
  getProgress k total <= 10000.
Proof.
  intros Hk Ht. destruct total as [|total].
  { by replace k with 0%nat by lia. }
  destruct k as [|k]; [by rewrite getProgress_0 by lia|].
  pose proof (getProgress_near (S k) (S total) ltac:(lia) Ht) as [Hlo _].
  change (2 ^ 20) with 1048576 in *.
  nia.
Qed.

(** Below 20000 segments only the whole is rounded to 100. *)
Lemma getProgress_100 (k total : nat) :
  (k <= total)%nat -> Z.of_nat total < 20000 ->
  getProgress k total = 10000 -> k = total.
Proof.
  intros Hk Ht H.
  destruct (decide (k = total)) as [|Hne]; [done|exfalso].
  destruct k as [|k]; [by rewrite getProgress_0 in H by lia|].
  pose proof (getProgress_near (S k) total ltac:(lia) ltac:(lia)) as [Hlo _].
  rewrite H in Hlo.
  change (2 ^ 20) with 1048576 in *.
  lia.
Qed.

End Doubles.
(** ** The pool of segment jobs *)

Section Pool.

Variable generateTaskId : string -> string -> string -> string -> string -> string.
Variable synthesisError : string -> option error.
Variable finishOrder : nat -> nat.
Variable tmpDirPath : string.
Variable segments_ : list TTSParams.
Variable task : option string.

Local Abbreviation startJob' := (startJob generateTaskId tmpDirPath).
Local Abbreviation finishJob' :=
  (finishJob generateTaskId synthesisError tmpDirPath segments_ task).
Local Abbreviation admission' := (admission generateTaskId tmpDirPath segments_).
Local Abbreviation rounds' :=
  (rounds generateTaskId synthesisError finishOrder tmpDirPath segments_ task).
Local Abbreviation keyOf' := (keyOf generateTaskId).
Local Abbreviation outputOf' := (outputOf tmpDirPath).
Local Abbreviation n := (length segments_).
Local Abbreviation jobEffect := (jobEffect generateTaskId tmpDirPath segments_ task).
Local Abbreviation pooled := (pooled generateTaskId tmpDirPath segments_ task).
Local Abbreviation pending := (pending segments_).

Lemma countedReports_app total l1 : forall k l2,
  countedReports total k (l1 ++ l2)
  = countedReports total k l1
    ++ countedReports total
         (k + length (filter (fun e => synthOk e = true) l1)) l2.
Proof.
  induction l1 as [|e l1 IH]; intros k l2; simpl.
  { by rewrite Nat.add_0_r. }
  rewrite filter_cons.
  destruct e as [| o [|] | | | | | | |]; simpl; rewrite IH; simpl;
    f_equal; try done; f_equal; lia.
Qed.

Lemma reports_app l1 l2 : reports (l1 ++ l2) = reports l1 ++ reports l2.
Proof. apply flat_map_app. Qed.

Lemma cacheWrites_app l1 l2 :
  cacheWrites (l1 ++ l2) = cacheWrites l1 ++ cacheWrites l2.
Proof. apply flat_map_app. Qed.

Lemma applyWrites_app l1 l2 m :
  applyWrites (l1 ++ l2) m = applyWrites l2 (applyWrites l1 m).
Proof. apply foldl_app. Qed.

Lemma pooled_start w :
  pooled w ({| fileList := []; handledLength := 0; results := ∅;
               running := []; started := 0 |}, w).
Proof.
  exists []. simpl. rewrite app_nil_r.
  split; [done|]. split; [done|]. split; [done|]. split; [lia|]. split; [constructor|].
  split; [constructor|].
  split; [done|]. split; [done|]. split; [intros i Hi; lia|].
  split; [constructor|done].
Qed.

(** One more step: what the pool must keep when [add] is logged. *)
Lemma pooled_extend w0 p w p' w' add :
  pooled w0 (p, w) ->
  log w' = log w ++ add ->
  cache w' = applyWrites (cacheWrites add) (cache w) ->
  (handledLength p' + length (running p') <= started p')%nat ->
  (started p' <= n)%nat ->
  Forall (fun i => (i < started p')%nat) (running p') ->
  NoDup (running p') ->
  (length (filter (fun e => jobEnded e = true) add) + length (running p')
     + started p = started p' + length (running p))%nat ->
  (length (filter (fun e => synthOk e = true) add) + handledLength p
   = handledLength p')%nat ->
  (forall i, (i < started p')%nat ->
             i ∈ running p' \/ is_Some (results p' !! i)) ->
  Forall jobEffect add ->
  reports add = countedReports n (handledLength p) add ->
  pooled w0 (p', w').
Proof.
  intros (new & Hlog & Hcache & Hcount & Hadm & Hrun & Hnd & Hend & Hok & Hres & Heff & Hrep)
         Hlog' Hcache' Hcount' Hadm' Hrun' Hnd' Hend' Hok' Hres' Heff' Hrep'.
  simpl in *. exists (new ++ add). simpl.
  rewrite !filter_app, !length_app, Forall_app, reports_app, countedReports_app.
  rewrite Hlog', Hlog, (assoc (++)), Hok, Hrep, Hrep'. simpl.
  rewrite cacheWrites_app, applyWrites_app, <- Hcache.
  split; [done|]. split; [done|].
  split; [done|]. split; [done|]. split; [done|].
  split; [done|]. split; [lia|]. split; [lia|]. done.
Qed.

Lemma pooled_startJob w0 st seg :
  pooled w0 st -> segments_ !! started st.1 = Some seg ->
  pooled w0 (startJob' (started st.1) seg st).
Proof.
  intros Hp Hseg. destruct st as [p w].
  pose proof Hp as
    (new & Hlog & Hcache & Hcount & Hadm & Hrun & Hnd & Hend & Hok & Hres & Heff & Hrep).
  simpl in *. apply lookup_lt_Some in Hseg as Hlt.
  unfold startJob. destruct (cache w !! keyOf' seg) as [c|].
  - eapply (pooled_extend _ _ _ _ _ [CacheHit (keyOf' seg)] Hp);
      simpl; try done; try lia.
    + eapply Forall_impl; [done|]. simpl. lia.
    + intros i Hi. destruct (decide (i = started p)) as [->|].
      * right. rewrite lookup_insert_eq. eauto.
      * destruct (Hres i ltac:(lia)) as [?|?]; [by left|right].
        by rewrite lookup_insert_ne.
    + by repeat constructor.
  - eapply (pooled_extend _ _ _ _ _ [Synthesize (outputOf' (started p))] Hp);
      simpl; try done; try (rewrite ?length_app; simpl; lia).
    + rewrite Forall_app. split.
      * eapply Forall_impl; [done|]. simpl. lia.
      * apply Forall_singleton. lia.
    + apply NoDup_app. split; [done|]. split; [|apply NoDup_singleton].
      intros i Hi ->%list_elem_of_singleton.
      eapply Forall_forall in Hrun; [|done]. simpl in Hrun. lia.
    + intros i Hi. destruct (decide (i = started p)) as [->|].
      * left. set_solver.
      * destruct (Hres i ltac:(lia)) as [?|?]; [left; set_solver|by right].
    + by repeat constructor.
Qed.

Lemma filter_ne_absent (l : list nat) index :
  index ∉ l -> filter (fun j => j <> index) l = l.
Proof.
  induction l as [|x l IH]; intros Hin; [done|].
  apply not_elem_of_cons in Hin as [Hx Hin].
  rewrite filter_cons_True by done. by rewrite IH.
Qed.

Lemma length_filter_ne (l : list nat) index :
  NoDup l -> index ∈ l ->
  S (length (filter (fun j => j <> index) l)) = length l.
Proof.
  induction l as [|x l IH]; intros Hnd Hin; [by apply elem_of_nil in Hin|].
  apply NoDup_cons in Hnd as [Hx Hnd].
  rewrite filter_cons. case_decide as Hne; simpl.
  - apply elem_of_cons in Hin as [->|Hin]; [done|]. by rewrite IH.
  - subst x. by rewrite filter_ne_absent.
Qed.

Lemma pooled_finishJob w0 st index seg :
  pooled w0 st -> segments_ !! index = Some seg -> index ∈ running st.1 ->
  pooled w0 (finishJob' index seg st).
Proof.
  intros Hp Hseg Hin. destruct st as [p w].
  pose proof Hp as
    (new & Hlog & Hcache & Hcount & Hadm & Hrun & Hnd & Hend & Hok & Hres & Heff & Hrep).
  simpl in *.
  pose proof (length_filter_ne _ _ Hnd Hin) as Hless.
  pose proof (NoDup_filter (fun j => j <> index) _ Hnd) as Hnd'.
  assert (Forall (fun i => (i < started p)%nat)
                 (filter (fun j => j <> index) (running p))) as Hrun'.
  { apply Forall_forall. intros i [_ Hi]%list_elem_of_filter.
    by eapply Forall_forall in Hrun. }
  assert (forall r i, (i < started p)%nat ->
            i ∈ filter (fun j => j <> index) (running p)
            \/ is_Some (<[index := r]> (results p) !! i)) as Hres'.
  { intros r i Hi. destruct (decide (i = index)) as [->|Hne].
    - right. rewrite lookup_insert_eq. eauto.
    - destruct (Hres i Hi) as [?|?].
      + left. by apply list_elem_of_filter.
      + right. by rewrite lookup_insert_ne. }
  unfold finishJob. destruct (synthesisError (outputOf' index)) as [e|].
  - eapply (pooled_extend _ _ _ _ _ [Synthesized (outputOf' index) false] Hp);
      simpl; try done; try lia; try apply Hres'.
    by repeat constructor.
  - eapply (pooled_extend _ _ _ _ _ _ Hp); [reflexivity|..];
      destruct task as [taskId|] eqn:Ht;
      simpl; try done; try lia; try apply Hres';
      repeat constructor; simpl; eauto.
Qed.

(** The invariant holds along [admission] and [rounds]. *)
Lemma pooled_admission w0 limit fuel : forall st,
  pooled w0 st -> pooled w0 (admission' limit fuel st).
Proof.
  induction fuel as [|fuel IH]; intros st Hp; [done|].
  simpl. case_decide; [|done].
  destruct (segments_ !! started st.1) as [seg|] eqn:Hseg; [|done].
  apply IH. by apply pooled_startJob.
Qed.

Lemma running_lookup w0 st i index :
  pooled w0 st -> running st.1 !! i = Some index ->
  index ∈ running st.1 /\ is_Some (segments_ !! index).
Proof.
  intros (new & _ & _ & _ & Hadm & Hrun & _) Hi.
  split; [by eapply list_elem_of_lookup_2|].
  apply lookup_lt_is_Some. eapply Forall_lookup in Hrun; [|done].
  simpl in Hrun. lia.
Qed.

Lemma pooled_rounds w0 limit fuel : forall round st,
  pooled w0 st -> pooled w0 (rounds' limit fuel round st).
Proof.
  induction fuel as [|fuel IH]; intros round st Hp; [done|].
  simpl. pose proof (pooled_admission w0 limit n st Hp) as Hp'.
  destruct (running _ !! _) as [index|] eqn:Hi; [|done].
  destruct (running_lookup _ _ _ _ Hp' Hi) as [Hin [seg Hseg]].
  rewrite Hseg. apply IH. by apply pooled_finishJob.
Qed.

(** *** Every job gets over *)

Lemma started_startJob index seg st :
  started (startJob' index seg st).1 = S (started st.1).
Proof.
  destruct st as [p w]. unfold startJob. by destruct (cache w !! _).
Qed.

Lemma running_startJob index seg st :
  (length (running (startJob' index seg st).1) <= S (length (running st.1)))%nat.
Proof.
  destruct st as [p w]. unfold startJob.
  destruct (cache w !! _); simpl; rewrite ?length_app; simpl; lia.
Qed.

Lemma admission_pending w0 limit fuel : forall st,
  pooled w0 st -> (pending (admission' limit fuel st) <= pending st)%nat.
Proof.
  induction fuel as [|fuel IH]; intros st Hp; [done|].
  simpl. case_decide; [|done].
  destruct (segments_ !! started st.1) as [seg|] eqn:Hseg; [|done].
  etrans; [apply IH; by apply pooled_startJob|].
  apply lookup_lt_Some in Hseg.
  pose proof (started_startJob (started st.1) seg st).
  pose proof (running_startJob (started st.1) seg st).
  unfold pending. lia.
Qed.

Lemma admission_full limit fuel : forall st,
  (n <= started st.1 + fuel)%nat ->
  (limit <= length (running (admission' limit fuel st).1))%nat
  \/ (n <= started (admission' limit fuel st).1)%nat.
Proof.
  induction fuel as [|fuel IH]; intros st Hn; simpl.
  { right. lia. }
  case_decide; [|left; lia].
  destruct (segments_ !! started st.1) as [seg|] eqn:Hseg.
  - apply IH. rewrite started_startJob. lia.
  - right. apply lookup_ge_None in Hseg. lia.
Qed.

Lemma finishJob_pending w0 st index seg :
  pooled w0 st -> index ∈ running st.1 ->
  S (pending (finishJob' index seg st)) = pending st.
Proof.
  intros (new & _ & _ & _ & Hadm & _ & Hnd & _) Hin.
  pose proof (length_filter_ne _ _ Hnd Hin).
  destruct st as [p w]. unfold finishJob, pending in *. simpl in *.
  destruct (synthesisError _); simpl; lia.
Qed.

Lemma rounds_complete w0 limit fuel : forall round st,
  pooled w0 st -> (0 < limit)%nat -> (pending st < fuel)%nat ->
  running (rounds' limit fuel round st).1 = []
  /\ started (rounds' limit fuel round st).1 = n.
Proof.
  induction fuel as [|fuel IH]; intros round st Hp Hlimit Hfuel; [lia|].
  simpl.
  pose proof (pooled_admission w0 limit n st Hp) as Hp'.
  pose proof (admission_pending w0 limit n st Hp) as Hle.
  pose proof (admission_full limit n st ltac:(lia)) as Hfull.
  set (st1 := admission' limit n st) in *.
  destruct (running st1.1 !! _) as [index|] eqn:Hi.
  - destruct (running_lookup _ _ _ _ Hp' Hi) as [Hin [seg Hseg]].
    rewrite Hseg.
    pose proof (finishJob_pending w0 st1 index seg Hp' Hin).
    apply IH; [by apply pooled_finishJob|done|lia].
  - apply lookup_ge_None in Hi.
    destruct (running st1.1) as [|i0 rest] eqn:Hr.
    + split; [done|]. destruct Hp' as (new & _ & _ & _ & Hadm & _).
      destruct Hfull as [?|?]; [simpl in *; lia|lia].
    + exfalso. simpl in Hi.
      pose proof (Nat.mod_upper_bound (finishOrder round) (S (length rest))
                    ltac:(lia)).
      lia.
Qed.

(** *** Failed sessions stay on record *)

Lemma recorded_start w :
  recorded w ({| fileList := []; handledLength := 0; results := ∅;
                 running := []; started := 0 |}, w).
Proof.
  exists []. simpl. rewrite app_nil_r. split; [done|]. split.
  { intros o Ho. by apply elem_of_nil in Ho. }
  split; [|constructor].
  intros i [r Hr]. by rewrite lookup_empty in Hr.
Qed.

Lemma recorded_startJob w0 st seg :
  recorded w0 st -> recorded w0 (startJob' (started st.1) seg st).
Proof.
  intros (new & Hlog & Hfailed & Hres & Hrun). destruct st as [p w].
  simpl in *. unfold startJob. destruct (cache w !! keyOf' seg) as [c|]; simpl.
  - exists (new ++ [CacheHit (keyOf' seg)]). simpl.
    rewrite Hlog, (assoc (++)). split; [done|]. split; [|split].
    + intros o Ho. apply elem_of_app in Ho as [Ho|Ho].
      * destruct (Hfailed o Ho) as (i & e & Hi). exists i, e.
        rewrite lookup_insert_ne; [done|].
        intros <-. destruct (Hres (started p)) as [? _]; [by eexists|lia].
      * by apply list_elem_of_singleton in Ho.
    + intros i Hi. destruct (decide (i = started p)) as [->|Hne].
      * split; [lia|]. intros Hin.
        eapply Forall_forall in Hrun; [|done]. simpl in Hrun. lia.
      * rewrite lookup_insert_ne in Hi by done.
        destruct (Hres i Hi). split; [lia|done].
    + eapply Forall_impl; [done|]. simpl. lia.
  - exists (new ++ [Synthesize (outputOf' (started p))]). simpl.
    rewrite Hlog, (assoc (++)). split; [done|]. split; [|split].
    + intros o Ho. apply elem_of_app in Ho as [Ho|Ho]; [by apply (Hfailed o)|].
      by apply list_elem_of_singleton in Ho.
    + intros i Hi. destruct (Hres i Hi) as [Hlt Hnot]. split; [lia|].
      intros [Hin|Hin%list_elem_of_singleton]%elem_of_app; [done|lia].
    + apply Forall_app. split.
      * eapply Forall_impl; [done|]. simpl. lia.
      * apply Forall_singleton. lia.
Qed.

Lemma recorded_finishJob w0 st index seg :
  recorded w0 st -> index ∈ running st.1 ->
  recorded w0 (finishJob' index seg st).
Proof.
  intros (new & Hlog & Hfailed & Hres & Hrun) Hin. destruct st as [p w].
  simpl in *.
  assert (Forall (fun i => (i < started p)%nat)
                 (filter (fun j => j <> index) (running p))) as Hrun'.
  { apply Forall_forall. intros i [_ Hi]%list_elem_of_filter.
    by eapply Forall_forall in Hrun. }
  assert (forall r i, is_Some (<[index := r]> (results p) !! i) ->
            (i < started p)%nat
            /\ i ∉ filter (fun j => j <> index) (running p)) as Hres'.
  { intros r i Hi. destruct (decide (i = index)) as [->|Hne].
    - split; [by eapply Forall_forall in Hrun|].
      by intros [? _]%list_elem_of_filter.
    - rewrite lookup_insert_ne in Hi by done.
      destruct (Hres i Hi) as [? Hnot]. split; [done|].
      by intros [_ ?]%list_elem_of_filter. }
  assert (forall r o, Synthesized o false ∈ new ->
            exists i e, <[index := r]> (results p) !! i = Some (Failed e))
    as Hfailed'.
  { intros r o Ho. destruct (Hfailed o Ho) as (i & e & Hi). exists i, e.
    rewrite lookup_insert_ne; [done|]. intros <-.
    by destruct (Hres index) as [_ ?]; [by eexists|]. }
  unfold finishJob. destruct (synthesisError (outputOf' index)) as [e|]; simpl.
  - exists (new ++ [Synthesized (outputOf' index) false]).
    rewrite Hlog, (assoc (++)). split; [done|]. split; [|split; [apply Hres'|done]].
    intros o Ho. apply elem_of_app in Ho as [Ho|Ho]; [by apply (Hfailed' _ o)|].
    exists index, e. simpl. by rewrite lookup_insert_eq.
  - eexists (new ++ _). rewrite Hlog, <- (assoc (++)).
    split; [reflexivity|]. split; [|split; [apply Hres'|done]].
    intros o Ho. apply elem_of_app in Ho as [Ho|Ho]; [by apply (Hfailed' _ o)|].
    exfalso. clear -Ho. destruct task as [taskId|]; simpl in Ho;
      repeat (apply elem_of_cons in Ho as [Ho|Ho]; [done|]);
      by apply elem_of_nil in Ho.
Qed.

Lemma recorded_admission w0 limit fuel : forall st,
  recorded w0 st -> recorded w0 (admission' limit fuel st).
Proof.
  induction fuel as [|fuel IH]; intros st Hp; [done|].
  simpl. case_decide; [|done].
  destruct (segments_ !! started st.1) as [seg|] eqn:Hseg; [|done].
  apply IH. by apply recorded_startJob.
Qed.

Lemma recorded_rounds w0 limit fuel : forall round st,
  recorded w0 st -> recorded w0 (rounds' limit fuel round st).
Proof.
  induction fuel as [|fuel IH]; intros round st Hp; [done|].
  simpl. pose proof (recorded_admission w0 limit n st Hp) as Hp'.
  destruct (running _ !! _) as [index|] eqn:Hi; [|done].
  destruct (segments_ !! index) as [seg|] eqn:Hseg; [|done].
  apply IH. apply recorded_finishJob; [done|].
  by eapply list_elem_of_lookup_2.
Qed.

(** *** The percentages reported *)

Lemma length_countedReports total l : forall k,
  length (countedReports total k l) = length (reports l).
Proof.
  induction l as [|e l IH]; intros k; [done|].
  destruct e as [| o [|] | | | | | | |]; simpl; by rewrite ?IH.
Qed.

Lemma countedReports_bounds total l : forall k,
  Z.of_nat total < 2 ^ 32 ->
  (k + length (filter (fun e => synthOk e = true) l) <= total)%nat ->
  Forall (fun p => getProgress k total <= p
                   <= getProgress
                        (k + length (filter (fun e => synthOk e = true) l)) total)
         (countedReports total k l)
  /\ StronglySorted Z.le (countedReports total k l).
Proof.
  induction l as [|e l IH]; intros k Ht Hk; [by split; constructor|].
  assert (forall k', (k <= k')%nat ->
            (k' + length (filter (fun e => synthOk e = true) l)
             <= k + length (filter (fun e => synthOk e = true) (e :: l)))%nat ->
            Forall (fun p => getProgress k total <= p
                     <= getProgress
                          (k + length (filter (fun e => synthOk e = true) (e :: l)))
                          total)
                   (countedReports total k' l)) as Hall.
  { intros k' Hk1 Hk'. destruct (IH k' Ht ltac:(lia)) as [Hb _].
    eapply Forall_impl; [done|]. intros p [? ?]. simpl.
    pose proof (getProgress_mono k k' total ltac:(lia) Ht).
    pose proof (getProgress_mono _ _ total (conj Hk' Hk) Ht). lia. }
  rewrite filter_cons in Hall, Hk.
  destruct e as [| o [|] | | | | | | |]; simpl in *;
    try (split; [apply Hall; lia|apply IH; [done|lia]]).
  split.
  - constructor; [|apply Hall; lia].
    rewrite filter_cons. simpl.
    split; [lia|]. apply getProgress_mono; [lia|done].
  - constructor; [apply IH; [done|lia]|].
    destruct (IH k Ht ltac:(lia)) as [Hb _].
    eapply Forall_impl; [done|]. simpl. lia.
Qed.

Lemma report_at total pre taskId p post :
  reports (pre ++ UpdateProgress taskId p :: post)
  = countedReports total 0 (pre ++ UpdateProgress taskId p :: post) ->
  p = getProgress (length (filter (fun e => synthOk e = true) pre)) total.
Proof.
  rewrite reports_app, countedReports_app. simpl. intros H.
  apply app_inj_1 in H as [_ H]; [congruence|].
  by rewrite length_countedReports.
Qed.

End Pool.

(** The merge opens no session. *)
Lemma mergeTail_sessions AUDIO_DIR segment task p o ok :
  Synthesized o ok ∉ mergeTail AUDIO_DIR segment task p.
Proof.
  unfold mergeTail. intros Ho.
  destruct task; simpl in Ho;
    repeat (apply elem_of_cons in Ho as [Ho|Ho]; [discriminate Ho|]);
    by apply elem_of_nil in Ho.
Qed.
(** ** The orchestrator: batches of several segments *)

Section Batches.

Variable generateTaskId : string -> string -> string -> string -> string -> string.
Variable splitText : string -> Split.
Variable franc : string -> string.
Variable getPrompt : string -> string -> string.
Variable AUDIO_DIR : string.
Variable STATIC_DOMAIN : string.
Variable now : Z.
Variable synthesisError : string -> option error.
Variable chatCompletion : string -> error + llmResponse.
Variable finishOrder : nat -> nat.

Local Abbreviation generateTTS' :=
  (generateTTS generateTaskId splitText franc getPrompt AUDIO_DIR STATIC_DOMAIN
               now synthesisError chatCompletion finishOrder).
Local Abbreviation buildSegmentList' :=
  (buildSegmentList generateTaskId AUDIO_DIR STATIC_DOMAIN synthesisError finishOrder).
Local Abbreviation runConcurrentTasks' :=
  (runConcurrentTasks generateTaskId synthesisError finishOrder).
Local Abbreviation pooled' := (pooled generateTaskId).
Local Abbreviation tmpDirOf := (tmpDirOf AUDIO_DIR).
Local Abbreviation mergeTail := (mergeTail AUDIO_DIR).
Local Abbreviation segmentsOf := (segmentsOf splitText).
Local Abbreviation cacheKeyOf := (cacheKeyOf generateTaskId).
Local Abbreviation segmentKeysDiffer := (segmentKeysDiffer generateTaskId splitText).

Lemma runConcurrentTasks_pooled tmpDirPath segments_ task w :
  let st := runConcurrentTasks' tmpDirPath segments_ task 3 w in
  pooled' tmpDirPath segments_ task w st
  /\ running st.1 = [] /\ started st.1 = length segments_.
Proof.
  unfold runConcurrentTasks. split.
  - apply pooled_rounds, pooled_start.
  - apply (rounds_complete _ _ _ _ _ _ w); [apply pooled_start|lia|].
    unfold pending. simpl. lia.
Qed.

Lemma buildSegmentList_trace segment segments_ task w :
  let st := runConcurrentTasks' (tmpDirOf segment) segments_ task 3 w in
  let res := buildSegmentList' segment segments_ task w in
  exists tail,
    res.2 = {| cache := cache st.2; log := log st.2 ++ tail |} /\
    match res.1 with
    | Return r =>
        tail = mergeTail segment task st.1 /\
        r = {| audio := STATIC_DOMAIN +:+ "/" +:+ id segment;
               srt := STATIC_DOMAIN +:+ "/" +:+ replace (id segment) ".mp3" ".srt";
               partial := Some (someFailed (results st.1) (length segments_)) |}
    | Throw e => reports tail = [] /\ cacheWrites tail = []
    end.
Proof.
  intros st res. subst res. unfold buildSegmentList. fold (tmpDirOf segment).
  fold st. destruct st as [p w1]. unfold bind, concatDirAudio, concatDirSrt, emit.
  simpl. case_decide.
  { exists []. simpl. rewrite app_nil_r. by destruct w1. }
  simpl. case_decide.
  { eexists [_]. simpl. done. }
  destruct task as [taskId|]; simpl.
  - eexists. rewrite <- !(assoc (++)). simpl. done.
  - eexists. rewrite <- !(assoc (++)). simpl. done.
Qed.

Lemma synthOk_jobEnded (l : list effect) :
  (length (filter (fun e => synthOk e = true) l)
   <= length (filter (fun e => jobEnded e = true) l))%nat.
Proof.
  induction l as [|e l IH]; [done|].
  rewrite !filter_cons.
  destruct e as [| o [|] | | | | | | |]; simpl; lia.
Qed.

Lemma StronglySorted_snoc (l : list Z) (x : Z) :
  StronglySorted Z.le l -> Forall (fun y => y <= x) l ->
  StronglySorted Z.le (l ++ [x]).
Proof.
  induction 1 as [|y l Hs IH Hy]; intros Hall; simpl.
  { repeat constructor. }
  apply Forall_cons in Hall as [Hyx Hall].
  constructor; [by apply IH|].
  apply Forall_app. split; [done|]. by constructor.
Qed.

(** C9, as the code has it.  While the jobs of a batch of fewer than 20000
    segments run, each percentage given to [updateProgress] is what
    [getProgress] computes from the number of sessions that have ended
    well so far and the number of segments: the quotient and its hundredfold
    as doubles, printed with two decimals.  It is within half a hundredth,
    and 2^-21 of one, of the exact percentage of sessions ended well; jobs
    that failed or were served from the cache are not counted.  One more
    report, 100, follows the merge.  The percentages never decrease, and
    whenever 100 is reported every segment job is over. *)
Theorem progress_reports segment segments_ taskId w :
  Z.of_nat (length segments_) < 20000 ->
  let total := length segments_ in
  let res := buildSegmentList' segment segments_ (Some taskId) w in
  exists jobs tail,
    log res.2 = log w ++ jobs ++ tail /\
    StronglySorted Z.le (reports (jobs ++ tail)) /\
    (forall pre taskId' p post,
        jobs = pre ++ UpdateProgress taskId' p :: post ->
        let succeeded := length (filter (fun e => synthOk e = true) pre) in
        taskId' = taskId /\
        p = getProgress succeeded total /\
        Z.abs (Z.of_nat total * p - 10000 * Z.of_nat succeeded) * 2 ^ 21
        <= Z.of_nat total * (2 ^ 20 + 1) /\
        (p = percent100 ->
         length (filter (fun e => jobEnded e = true) pre) = total)) /\
    length (filter (fun e => jobEnded e = true) jobs) = total /\
    reports tail = match res.1 with
                   | Return _ => [percent100]
                   | Throw _ => []
                   end.
Proof.
  intros Hsmall total res.
  assert (Z.of_nat total < 2 ^ 32) as Hsmall'.
  { change (2 ^ 32) with 4294967296. unfold total. lia. }
  destruct (runConcurrentTasks_pooled (tmpDirOf segment) segments_
              (Some taskId) w)
    as ((jobs & Hlog & _ & Hcount & Hadm & _ & _ & Hend & Hok & _ & Heff & Hrep)
        & Hrun & Hall).
  destruct (buildSegmentList_trace segment segments_ (Some taskId) w)
    as (tail & Hw & Hres).
  fold res in Hw, Hres.
  set (st := runConcurrentTasks' _ _ _ _ _) in *.
  rewrite Hrun in *. simpl in Hend, Hcount.
  assert (length (filter (fun e => jobEnded e = true) jobs) = total) as Hended
    by (unfold total; lia).
  pose proof (synthOk_jobEnded jobs) as Hle.
  assert (reports tail = match res.1 with
                         | Return _ => [percent100]
                         | Throw _ => []
                         end) as Htail.
  { destruct (res.1) as [r|e]; [|by destruct Hres].
    destruct Hres as [-> _]. done. }
  exists jobs, tail. split; [|split; [|split; [|split]]]; try done.
  - rewrite Hw. simpl. by rewrite Hlog, (assoc (++)).
  - rewrite reports_app, Htail, Hrep.
    destruct (countedReports_bounds total jobs 0 Hsmall' ltac:(lia)) as [Hb Hs].
    destruct (res.1); [|by rewrite app_nil_r].
    apply StronglySorted_snoc; [done|].
    eapply Forall_impl; [done|]. simpl. intros p [_ Hp].
    etrans; [done|]. apply getProgress_le; [lia|done].
  - intros pre taskId' p post -> succeeded.
    apply Forall_app in Heff as [_ Heff].
    apply Forall_cons in Heff as [Hid _]. simpl in Hid.
    apply report_at in Hrep as Hp.
    rewrite !filter_app, !length_app in *.
    pose proof (synthOk_jobEnded pre).
    fold succeeded in Hp, Hle.
    split; [congruence|]. split; [done|]. split.
    + rewrite Hp. apply getProgress_close; [lia|done].
    + intros H100. rewrite Hp in H100.
      apply getProgress_100 in H100; [|lia|done].
      unfold total in *. lia.
Qed.

(** *** What reaches the cache *)

Lemma jobEffect_writes tmpDirPath segments_ task (l : list effect) :
  Forall (jobEffect generateTaskId tmpDirPath segments_ task) l ->
  Forall (fun kv => partial kv.2 = None
                    /\ exists index seg,
                         segments_ !! index = Some seg
                         /\ kv.1 = keyOf generateTaskId seg
                         /\ audio kv.2 = outputOf tmpDirPath index)
         (cacheWrites l).
Proof.
  induction 1 as [|e l He _ IH]; [constructor|].
  destruct e; simpl; try done.
  constructor; [|done]. simpl.
  destruct He as [Hp (index & seg & Hseg & -> & Haudio)].
  split; [done|]. by exists index, seg.
Qed.

(** What the cache holds after some writes was there before or has been
    written. *)
Lemma applyWrites_lookup writes : forall m key v,
  applyWrites writes m !! key = Some v ->
  m !! key = Some v \/ (key, v) ∈ writes.
Proof.
  induction writes as [|[k' v'] writes IH]; intros m key v Hv; [by left|].
  simpl in Hv. apply IH in Hv as [Hv|Hv]; [|right; by right].
  simpl in Hv. destruct (decide (k' = key)) as [->|Hne].
  - rewrite lookup_insert_eq in Hv. injection Hv as ->. right. by left.
  - rewrite lookup_insert_ne in Hv by done. by left.
Qed.

(** When the session of a segment has failed, the batch is marked. *)
Lemma failed_someFailed tmpDirPath segments_ task w jobs o :
  let st := runConcurrentTasks' tmpDirPath segments_ task 3 w in
  log st.2 = log w ++ jobs ->
  Synthesized o false ∈ jobs ->
  someFailed (results st.1) (length segments_) = true.
Proof.
  intros st Hlog Ho.
  destruct (runConcurrentTasks_pooled tmpDirPath segments_ task w)
    as (_ & _ & Hstarted).
  assert (recorded w st) as (new & Hlog' & Hfailed & Hres & _).
  { unfold st, runConcurrentTasks. apply recorded_rounds, recorded_start. }
  fold st in Hstarted. rewrite Hlog in Hlog'. apply app_inv_head in Hlog' as <-.
  destruct (Hfailed o Ho) as (i & e & Hi).
  destruct (Hres i) as [Hlt _]; [by eexists|].
  unfold someFailed. apply existsb_exists. exists i.
  split; [apply in_seq; lia|]. by rewrite Hi.
Qed.

Ltac no_failure :=
  let o := fresh "o" in
  let Ho := fresh "Ho" in
  intros o Ho; exfalso;
  repeat (apply elem_of_cons in Ho as [Ho|Ho]; [discriminate Ho|]);
  by apply elem_of_nil in Ho.

(** The call ends without any effect. *)
Ltac no_effect :=
  exists [], []; simpl; rewrite app_nil_r;
  split; [done|]; split; [done|]; split; [constructor|]; split; [by left|];
  intros ? Ho; by apply elem_of_nil in Ho.

(** The call ends without a write of its own, throwing. *)
Ltac leaf_thrown :=
  eexists _, [];
  split; [etrans; [|apply (f_equal (app _)); symmetry; apply app_nil_r];
          simpl; rewrite <- ?(assoc (++)); simpl; reflexivity|];
  split; [reflexivity|];
  split; [repeat constructor|];
  split; [by left|];
  intros ? _; split; [done|]; by intros ? [=].

(** The call returns the result of one session and writes it. *)
Ltac leaf_written :=
  eexists _, [CacheSet _ _];
  split; [simpl; rewrite (assoc (++)); f_equal;
          rewrite <- ?(assoc (++)); simpl; reflexivity|];
  split; [reflexivity|];
  split; [repeat constructor|];
  split; [right; eexists; split; [reflexivity|]; split; [reflexivity|];
          simpl; congruence|];
  no_failure.

(** C2.  In every run of [generateTTS] the writes to the cache are these,
    in this order: the segment jobs of a batch each write, once their
    session has succeeded, the result for their segment under the key of
    the segment, a result that is never partial; and last the call itself
    writes, at most once, under the key of the request, the result it
    returns, which it does only when that result is not partial.  When the
    session of some segment has failed the result, if any, is partial and
    the call writes nothing under the key of the request.  So whatever the
    cache holds after the run and did not hold before is not partial. *)
Theorem partial_never_cached params task w :
  let res := generateTTS' params task w in
  let segment := {| id := generateId now (voice params) (text params);
                    s_text := text params |} in
  exists before own,
    log res.2 = log w ++ before ++ own /\
    cache res.2 = applyWrites (cacheWrites (before ++ own)) (cache w) /\
    Forall (fun kv =>
              partial kv.2 = None
              /\ exists index seg,
                   segmentsOf params (id segment) !! index = Some seg
                   /\ kv.1 = keyOf generateTaskId seg
                   /\ audio kv.2 = outputOf (tmpDirOf segment) index)
           (cacheWrites before) /\
    (own = []
     \/ exists r, own = [CacheSet (cacheKeyOf params) r]
                  /\ res.1 = Return r /\ partial r <> Some true) /\
    (forall r, res.1 = Return r -> partial r = Some true -> own = []) /\
    (forall o, Synthesized o false ∈ before ->
               own = []
               /\ forall r, res.1 = Return r -> partial r = Some true) /\
    (forall key v, cache res.2 !! key = Some v -> partial v = Some true ->
                   cache w !! key = Some v).
Proof.
  intros res segment.
  cut (exists before own,
    log res.2 = log w ++ before ++ own /\
    cache res.2 = applyWrites (cacheWrites (before ++ own)) (cache w) /\
    Forall (fun kv =>
              partial kv.2 = None
              /\ exists index seg,
                   segmentsOf params (id segment) !! index = Some seg
                   /\ kv.1 = keyOf generateTaskId seg
                   /\ audio kv.2 = outputOf (tmpDirOf segment) index)
           (cacheWrites before) /\
    (own = []
     \/ exists r, own = [CacheSet (cacheKeyOf params) r]
                  /\ res.1 = Return r /\ partial r <> Some true) /\
    (forall o, Synthesized o false ∈ before ->
               own = []
               /\ forall r, res.1 = Return r -> partial r = Some true)).
  { intros (before & own & Hlog & Hcache & Hjobs & Hown & Hfailed).
    exists before, own.
    split; [done|]. split; [done|]. split; [done|]. split; [done|].
    split; [|split; [done|]].
    - intros r Hr Hp. destruct Hown as [?|(r' & _ & Hr' & Hp')]; [done|].
      congruence.
    - intros key v Hv Hp. rewrite Hcache in Hv.
      apply applyWrites_lookup in Hv as [?|Hv]; [done|exfalso].
      rewrite cacheWrites_app in Hv. apply elem_of_app in Hv as [Hv|Hv].
      + eapply Forall_forall in Hjobs; [|done].
        destruct Hjobs as [Hnone _]. simpl in Hnone. congruence.
      + destruct Hown as [->|(r' & -> & _ & Hp')];
          [by apply elem_of_nil in Hv|].
        apply list_elem_of_singleton in Hv. congruence. }
  subst res. unfold generateTTS, bind, getAudio.
  fold (cacheKeyOf params).
  destruct (cache w !! cacheKeyOf params) as [c|] eqn:Hc.
  { no_effect. }
  unfold validateLangAndVoice.
  destruct (negb _ && _); simpl.
  { no_effect. }
  destruct (useLLM params).
  - unfold generateWithLLM. case_decide.
    + unfold fetchLLMSegment, bind, emit. simpl.
      destruct (chatCompletion _) as [e|resp]; simpl.
      { leaf_thrown. }
      destruct (result_ resp); simpl;
        try leaf_thrown;
        unfold runEdgeTTS, bind, emit; simpl;
        destruct (synthesisError _); simpl;
        try leaf_thrown;
        unfold validateTTSResult; case_decide; simpl;
        try leaf_thrown;
        leaf_written.
    + simpl. no_effect.
  - unfold generateWithoutLLM. case_decide.
    + unfold buildSegment, generateSingleVoice, runEdgeTTS, bind, emit. simpl.
      destruct (synthesisError _); simpl.
      { leaf_thrown. }
      unfold validateTTSResult. case_decide; simpl.
      { leaf_thrown. }
      leaf_written.
    + fold segment. fold (segmentsOf params (id segment)).
      destruct (runConcurrentTasks_pooled (tmpDirOf segment)
                  (segmentsOf params (id segment)) task w)
        as ((jobs & Hlog & Hcache & _ & _ & _ & _ & _ & _ & _ & Heff & _) & _).
      destruct (buildSegmentList_trace segment (segmentsOf params (id segment))
                  task w) as (tail & Hw & Hres).
      apply jobEffect_writes in Heff.
      set (st := runConcurrentTasks' (tmpDirOf segment)
                   (segmentsOf params (id segment)) task 3 w) in *.
      assert (forall o, Synthesized o false ∈ jobs ->
                someFailed (results st.1)
                           (length (segmentsOf params (id segment))) = true)
        as Hmark.
      { intros o.
        by apply (failed_someFailed (tmpDirOf segment) _ task w jobs o). }
      assert (cacheWrites (mergeTail segment task st.1) = []) as Hmt
        by (by destruct task).
      assert (forall o, Synthesized o false ∈ jobs ++ mergeTail segment task st.1
                        -> Synthesized o false ∈ jobs) as Hjobs.
      { intros o [?|Ho]%elem_of_app; [done|].
        by apply mergeTail_sessions in Ho. }
      destruct (buildSegmentList' segment _ task w) as [[r|e] w1];
        simpl in Hw, Hres; subst w1.
      * destruct Hres as [-> ->]. unfold validateTTSResult. simpl.
        case_decide; simpl.
        { exists (jobs ++ mergeTail segment task st.1), [].
          rewrite Hlog, Hcache, !app_nil_r, cacheWrites_app, applyWrites_app.
          rewrite Hmt, app_nil_r, (assoc (++)). simpl.
          split; [done|]. split; [done|]. split; [done|]. split; [by left|].
          intros o Ho. split; [done|]. by intros ? [=]. }
        case_decide as Hpartial; simpl.
        { exists (jobs ++ mergeTail segment task st.1), [].
          rewrite Hlog, Hcache, !app_nil_r, cacheWrites_app, applyWrites_app.
          rewrite Hmt, app_nil_r, (assoc (++)). simpl.
          split; [done|]. split; [done|]. split; [done|]. split; [by left|].
          intros o Ho. split; [done|]. by intros ? [= <-]. }
        eexists (jobs ++ mergeTail segment task st.1), [CacheSet _ _].
        rewrite Hlog, Hcache, !cacheWrites_app, !applyWrites_app, !(assoc (++)).
        rewrite Hmt, app_nil_r. simpl.
        split; [done|]. split; [done|]. split; [done|]. split.
        -- right. eexists. split; [done|]. split; [done|]. done.
        -- intros o Ho%Hjobs. exfalso. apply Hpartial. simpl.
           f_equal. exact (Hmark o Ho).
      * destruct Hres as [Hr Hcw].
        exists (jobs ++ tail), [].
        rewrite Hlog, Hcache, !app_nil_r, cacheWrites_app, applyWrites_app.
        rewrite Hcw, app_nil_r, (assoc (++)).
        split; [done|]. split; [done|]. split; [done|]. split; [by left|].
        intros o Ho. split; [done|]. by intros ? [=].
Qed.

End Batches.
(** ** File names and the order of the merge *)

Section Names.

Lemma uint_digits d :
  Forall (fun c => isDigit c = true)
         (list_ascii_of_string (NilEmpty.string_of_uint d)).
Proof. induction d; simpl; by constructor. Qed.

Lemma showZ_digits z :
  0 < z ->
  Forall (fun c => isDigit c = true) (list_ascii_of_string (showZ z))
  /\ showZ z <> EmptyString.
Proof.
  destruct z as [|p|p]; try lia. intros _.
  unfold showZ. simpl. unfold NilZero.string_of_uint.
  pose proof (DecimalPos.Unsigned.to_uint_nonnil p) as Hnil.
  pose proof (uint_digits (Pos.to_uint p)) as Hd.
  destruct (Pos.to_uint p); try done.
Qed.

Lemma Number_showZ z : 0 < z -> Number (showZ z) = Some z.
Proof.
  intros Hz. destruct (showZ_digits z Hz) as [_ Hne].
  unfold Number. rewrite decide_False by done.
  unfold showZ. rewrite NilZero.isi.
  - simpl. by rewrite DecimalZ.of_to.
  - destruct z as [|p|p]; try lia. simpl. intros [= H].
    by apply (DecimalPos.Unsigned.to_uint_nonnil p).
  - destruct z as [|p|p]; try lia. done.
Qed.

Lemma takeWhile_stop {A} (f : A -> bool) l1 x l2 :
  Forall (fun y => f y = true) l1 -> f x = false ->
  takeWhile f (l1 ++ x :: l2) = l1.
Proof.
  induction 1 as [|y l1 Hy _ IH]; intros Hx; simpl.
  - by rewrite Hx.
  - by rewrite Hy, IH.
Qed.

Lemma substring_prefix s1 s2 :
  String.substring 0 (String.length s1) (s1 +:+ s2) = s1.
Proof.
  induction s1 as [|c s1 IH].
  - rewrite str_app_nil_l. by destruct s2.
  - rewrite str_app_cons. simpl. by rewrite IH.
Qed.

Lemma list_ascii_resolve dir name_ :
  list_ascii_of_string (resolve dir name_)
  = list_ascii_of_string dir ++ "/"%char :: list_ascii_of_string name_.
Proof. unfold resolve. by rewrite !list_ascii_app. Qed.

(** The base name of a file in a directory is its name. *)
Lemma basename_resolve dir name_ :
  Forall (fun c => isNot "/" c = true) (list_ascii_of_string name_) ->
  basename (resolve dir name_) = name_.
Proof.
  intros Hname. unfold basename.
  rewrite list_ascii_resolve, reverse_app, reverse_cons, <- (assoc (++)).
  simpl. rewrite takeWhile_stop; [|by apply Forall_reverse|done].
  by rewrite reverse_involutive, string_of_list_ascii_of_string.
Qed.

(** Extension and name of a path whose base name is [stem.ext]. *)
Lemma extname_parseName p stem ext :
  basename p = stem +:+ "." +:+ ext ->
  stem <> EmptyString -> ext <> EmptyString ->
  Forall (fun c => isNot "." c = true) (list_ascii_of_string ext) ->
  extname p = "." +:+ ext /\ parseName p = stem.
Proof.
  intros Hbase Hstem Hext Hdots.
  assert (extname p = "." +:+ ext) as Hextname.
  { assert (reverse (list_ascii_of_string (basename p))
            = reverse (list_ascii_of_string ext)
              ++ "."%char :: reverse (list_ascii_of_string stem)) as Hrev.
    { rewrite Hbase, !list_ascii_app. simpl.
      by rewrite reverse_app, reverse_cons, <- (assoc (++)). }
    unfold extname. rewrite Hrev.
    rewrite takeWhile_stop; [|by apply Forall_reverse|done].
    rewrite !length_app, !length_reverse. simpl.
    assert (0 < length (list_ascii_of_string stem))%nat
      by (destruct stem; [done|simpl; lia]).
    assert (0 < length (list_ascii_of_string ext))%nat
      by (destruct ext; [done|simpl; lia]).
    rewrite !decide_False.
    - by rewrite reverse_involutive, string_of_list_ascii_of_string.
    - rewrite Hbase. intros Heq. apply (f_equal String.length) in Heq.
      rewrite !str_length_app in Heq. simpl in Heq.
      rewrite <- (str_length_of_list (list_ascii_of_string stem)) in *.
      rewrite <- (str_length_of_list (list_ascii_of_string ext)) in *.
      rewrite !string_of_list_ascii_of_string in *. lia.
    - rewrite length_reverse. lia.
    - lia. }
  split; [done|].
  unfold parseName. rewrite Hextname, Hbase, !str_length_app. simpl.
  replace (String.length stem + S (String.length ext) - S (String.length ext))%nat
    with (String.length stem) by lia.
  apply substring_prefix.
Qed.

Lemma digit_plain c :
  isDigit c = true ->
  isNot "/" c = true /\ isNot "." c = true /\ isNot "_" c = true.
Proof.
  unfold isDigit. intros H%bool_decide_eq_true. simpl in H.
  repeat (apply elem_of_cons in H as [->|H]; [by vm_compute|]).
  by apply elem_of_nil in H.
Qed.

(** A file [z_stem.ext] of a directory has the extension [.ext] and is
    sorted by the number [z]. *)
Lemma file_key dir z stem ext :
  0 < z ->
  Forall (fun c => isNot "/" c = true) (list_ascii_of_string stem) ->
  Forall (fun c => isNot "/" c = true) (list_ascii_of_string ext) ->
  Forall (fun c => isNot "." c = true) (list_ascii_of_string ext) ->
  ext <> EmptyString ->
  extname (resolve dir (showZ z +:+ "_" +:+ stem +:+ "." +:+ ext))
  = "." +:+ ext
  /\ Number (beforeUnderscore
               (parseName (resolve dir (showZ z +:+ "_" +:+ stem +:+ "." +:+ ext))))
     = Some z.
Proof.
  intros Hz Hstem Hext Hdots Hne.
  destruct (showZ_digits z Hz) as [Hdigits Hshow].
  assert (Forall (fun c => isNot "/" c = true /\ isNot "." c = true
                           /\ isNot "_" c = true)
                 (list_ascii_of_string (showZ z))) as Hplain.
  { eapply Forall_impl; [done|]. apply digit_plain. }
  destruct (extname_parseName
              (resolve dir (showZ z +:+ "_" +:+ stem +:+ "." +:+ ext))
              (showZ z +:+ "_" +:+ stem) ext) as [Hextname Hname]; try done.
  - rewrite basename_resolve.
    + by rewrite !str_app_assoc.
    + rewrite !list_ascii_app, !Forall_app. simpl.
      split; [eapply Forall_impl; [done|]; naive_solver|].
      split; [by repeat constructor|]. split; [done|].
      split; [by repeat constructor|done].
  - by destruct (showZ z).
  - split; [done|]. rewrite Hname. unfold beforeUnderscore.
    rewrite list_ascii_app. simpl.
    rewrite takeWhile_stop; [|eapply Forall_impl; [done|]; naive_solver|done].
    rewrite string_of_list_ascii_of_string. by apply Number_showZ.
Qed.

End Names.

(** *** The stable sort by a numeric key *)

Section Sorting.

Lemma insertSorted_map {A B} (key : B -> option Z) (f : A -> B) x l :
  insertSorted key (f x) (map f l)
  = map f (insertSorted (fun a => key (f a)) x l).
Proof.
  induction l as [|y l IH]; simpl; [done|].
  change (before (fun a => key (f a)) y x) with (before key (f y) (f x)).
  destruct (before key (f y) (f x)); simpl; by rewrite ?IH.
Qed.

Lemma sortBy_map {A B} (key : B -> option Z) (f : A -> B) l :
  sortBy key (map f l) = map f (sortBy (fun a => key (f a)) l).
Proof.
  induction l as [|x l IH]; [done|].
  unfold sortBy in *. simpl. rewrite IH. apply insertSorted_map.
Qed.

Lemma sortBy_ext {A} (key key' : A -> option Z) l :
  (forall x, key x = key' x) -> sortBy key l = sortBy key' l.
Proof.
  intros Hkey. induction l as [|x l IH]; [done|].
  unfold sortBy in *. simpl. rewrite IH.
  generalize (foldr (insertSorted key') [] l). intros k.
  induction k as [|y k IHk]; simpl; [done|].
  unfold before. rewrite !Hkey, IHk. done.
Qed.

Lemma insertSorted_perm {A} (key : A -> option Z) x l :
  insertSorted key x l ≡ₚ x :: l.
Proof.
  induction l as [|y l IH]; simpl; [done|].
  destruct (before key y x); [|done].
  rewrite IH. apply Permutation_swap.
Qed.

Lemma sortBy_perm {A} (key : A -> option Z) l : sortBy key l ≡ₚ l.
Proof.
  induction l as [|x l IH]; [done|].
  unfold sortBy in *. simpl. by rewrite insertSorted_perm, IH.
Qed.

(** Sorting by the number in the name, on the indices. *)
Lemma insertSorted_le x l :
  StronglySorted le l ->
  StronglySorted le (insertSorted (fun i => Some (Z.of_nat i + 1)) x l).
Proof.
  induction 1 as [|y l Hs IH Hy]; simpl.
  { repeat constructor. }
  unfold before. case_bool_decide.
  - constructor; [done|]. rewrite insertSorted_perm.
    constructor; [lia|done].
  - constructor; [by constructor|]. constructor; [lia|].
    eapply Forall_impl; [done|]. simpl. lia.
Qed.

Lemma sortBy_le l :
  StronglySorted le (sortBy (fun i => Some (Z.of_nat i + 1)) l).
Proof.
  induction l as [|x l IH]; [constructor|]. by apply insertSorted_le.
Qed.

Lemma StronglySorted_seq j n : StronglySorted le (seq j n).
Proof.
  revert j. induction n as [|n IH]; intros j; simpl; constructor; [done|].
  apply Forall_forall. intros i Hi%elem_of_seq. lia.
Qed.

Lemma StronglySorted_filter {A} (R : relation A) (P : A -> Prop)
    `{forall x, Decision (P x)} l :
  StronglySorted R l -> StronglySorted R (filter P l).
Proof.
  induction 1 as [|x l Hs IH Hx]; [constructor|].
  rewrite filter_cons. case_decide; [|done].
  constructor; [done|]. apply Forall_forall.
  intros y [_ Hy]%list_elem_of_filter. by eapply Forall_forall in Hx.
Qed.

(** Sorting a list without repetition gives the sorted list of its
    elements. *)
Lemma sortBy_index ended l :
  NoDup ended -> NoDup l -> StronglySorted le l ->
  (forall i, i ∈ ended <-> i ∈ l) ->
  sortBy (fun i => Some (Z.of_nat i + 1)) ended = l.
Proof.
  intros Hnd Hnd' Hsorted Hin.
  apply (StronglySorted_unique le); [apply sortBy_le|done|].
  rewrite sortBy_perm. by apply NoDup_Permutation.
Qed.

Lemma filter_all {A} (P : A -> Prop) `{forall x, Decision (P x)} l :
  Forall P l -> filter P l = l.
Proof.
  induction 1 as [|x l Hx _ IH]; [done|].
  by rewrite filter_cons_True, IH.
Qed.

End Sorting.

(** *** Runs in which no job finds its audio in the cache *)

Section Listed.

Variable generateTaskId : string -> string -> string -> string -> string -> string.
Variable synthesisError : string -> option error.
Variable finishOrder : nat -> nat.
Variable tmpDirPath : string.
Variable segments_ : list TTSParams.
Variable task : option string.

Local Abbreviation startJob' := (startJob generateTaskId tmpDirPath).
Local Abbreviation finishJob' :=
  (finishJob generateTaskId synthesisError tmpDirPath segments_ task).
Local Abbreviation admission' := (admission generateTaskId tmpDirPath segments_).
Local Abbreviation rounds' :=
  (rounds generateTaskId synthesisError finishOrder tmpDirPath segments_ task).
Local Abbreviation keyOf' := (keyOf generateTaskId).
Local Abbreviation outputOf' := (outputOf tmpDirPath).
Local Abbreviation n := (length segments_).
Local Abbreviation listed' := (listed generateTaskId tmpDirPath segments_).

(** The segments of the batch have different keys. *)
Hypothesis Hkeys : NoDup (map keyOf' segments_).

Lemma listed_start w :
  Forall (fun seg => cache w !! keyOf' seg = None) segments_ ->
  listed' ({| fileList := []; handledLength := 0; results := ∅;
              running := []; started := 0 |}, w).
Proof.
  intros Hfresh. exists []. simpl.
  split; [done|]. split; [constructor|].
  split. { intros i. rewrite lookup_empty. simpl. split; [by intros ?%elem_of_nil|done]. }
  split. { intros i. rewrite lookup_empty. by intros [? ?]. }
  split; [lia|]. split; [constructor|done].
Qed.

Lemma listed_startJob st seg :
  listed' st -> segments_ !! started st.1 = Some seg ->
  listed' (startJob' (started st.1) seg st).
Proof.
  destruct st as [p w].
  intros (ended & Hfiles & Hnd & Hin & Hres & Hle & Hrun & Hfresh) Hseg.
  simpl in *. apply lookup_lt_Some in Hseg as Hlt.
  rewrite (drop_S _ _ _ Hseg) in Hfresh.
  apply Forall_cons in Hfresh as [Hmiss Hfresh].
  unfold startJob. rewrite Hmiss. exists ended. simpl.
  split; [done|]. split; [done|]. split; [done|].
  split.
  { intros i Hi. destruct (Hres i Hi) as [Hi1 Hi2].
    split; [lia|]. apply not_elem_of_app. split; [done|].
    intros ->%list_elem_of_singleton. lia. }
  split; [lia|]. split; [|done].
  apply Forall_app. split.
  - eapply Forall_impl; [done|]. simpl. lia.
  - apply Forall_singleton. lia.
Qed.

Lemma listed_finishJob st index seg :
  listed' st -> segments_ !! index = Some seg -> index ∈ running st.1 ->
  listed' (finishJob' index seg st).
Proof.
  destruct st as [p w].
  intros (ended & Hfiles & Hnd & Hin & Hres & Hle & Hrun & Hfresh) Hseg Hrunning.
  simpl in *.
  assert (index < started p)%nat as Hlt.
  { by eapply Forall_forall in Hrun. }
  assert (results p !! index = None) as Hnone.
  { destruct (results p !! index) eqn:Hr; [|done].
    destruct (Hres index) as [_ []]; [by eexists|done]. }
  assert (index ∉ ended) as Hnew.
  { intros Hi%Hin. by rewrite Hnone in Hi. }
  assert (forall r i, is_Some (<[index := r]> (results p) !! i) ->
            (i < started p)%nat
            /\ i ∉ filter (fun j => j <> index) (running p)) as Hres'.
  { intros r i Hi. destruct (decide (i = index)) as [->|Hne].
    - split; [done|]. by intros [? _]%list_elem_of_filter.
    - rewrite lookup_insert_ne in Hi by done.
      destruct (Hres i Hi) as [Hi1 Hi2]. split; [done|].
      by intros [_ ?]%list_elem_of_filter. }
  assert (Forall (fun i => (i < started p)%nat)
                 (filter (fun j => j <> index) (running p))) as Hrun'.
  { apply Forall_forall. intros i [_ Hi]%list_elem_of_filter.
    by eapply Forall_forall in Hrun. }
  unfold finishJob. destruct (synthesisError (outputOf' index)) as [e|].
  - exists ended. simpl.
    split; [done|]. split; [done|].
    split.
    { intros i. destruct (decide (i = index)) as [->|Hne].
      - rewrite lookup_insert_eq. simpl. split; [done|by intros [=]].
      - by rewrite lookup_insert_ne. }
    split; [apply Hres'|]. done.
  - exists (ended ++ [index]). simpl.
    split. { by rewrite map_app, Hfiles. }
    split.
    { apply NoDup_app. split; [done|]. split; [|apply NoDup_singleton].
      by intros i Hi ->%list_elem_of_singleton. }
    split.
    { intros i. rewrite elem_of_app, list_elem_of_singleton.
      destruct (decide (i = index)) as [->|Hne].
      - rewrite lookup_insert_eq. simpl. split; [done|by right].
      - rewrite lookup_insert_ne by done. rewrite Hin. naive_solver. }
    split; [apply Hres'|]. split; [done|]. split; [done|].
    apply Forall_lookup. intros j seg' Hj.
    rewrite lookup_drop in Hj.
    rewrite lookup_insert_ne.
    + eapply Forall_lookup in Hfresh; [done|]. by rewrite lookup_drop.
    + intros Heq.
      assert (index = (started p + j)%nat); [|lia].
      eapply NoDup_lookup; [exact Hkeys| |].
      * by rewrite list_lookup_fmap, Hseg.
      * rewrite list_lookup_fmap, Hj. simpl. by rewrite Heq.
Qed.

Lemma listed_admission limit fuel : forall st,
  listed' st -> listed' (admission' limit fuel st).
Proof.
  induction fuel as [|fuel IH]; intros st Hl; [done|].
  simpl. case_decide; [|done].
  destruct (segments_ !! started st.1) as [seg|] eqn:Hseg; [|done].
  apply IH. by apply listed_startJob.
Qed.

Lemma listed_rounds limit fuel : forall round st,
  listed' st -> listed' (rounds' limit fuel round st).
Proof.
  induction fuel as [|fuel IH]; intros round st Hl; [done|].
  simpl. pose proof (listed_admission limit n st Hl) as Hl'.
  destruct (running _ !! _) as [index|] eqn:Hi; [|done].
  destruct (segments_ !! index) as [seg|] eqn:Hseg; [|done].
  apply IH. apply listed_finishJob; [done|done|].
  by eapply list_elem_of_lookup_2.
Qed.

(** The files of such a run, sorted for the merge, are those of the jobs
    that succeeded, by ascending index. *)
Lemma listed_sorted st :
  listed' st ->
  sortAudioDir (fileList st.1) ".mp3"
  = map outputOf' (survivors (results st.1) n)
  /\ sortAudioDir (map (fun file => file +:+ ".json") (fileList st.1)) ".json"
     = map (fun i => outputOf' i +:+ ".json") (survivors (results st.1) n).
Proof.
  destruct st as [p w].
  intros (ended & Hfiles & Hnd & Hin & Hres & Hle & Hrun & Hfresh).
  simpl in *.
  assert (sortBy (fun i => Some (Z.of_nat i + 1)) ended
          = survivors (results p) n) as Hsorted.
  { apply sortBy_index; [done| | |].
    - apply NoDup_filter, NoDup_seq.
    - apply StronglySorted_filter, StronglySorted_seq.
    - intros i. unfold survivors.
      rewrite list_elem_of_filter, elem_of_seq, Hin.
      split; [|naive_solver]. intros Hi. split; [done|].
      destruct (results p !! i) eqn:Hr; [|done].
      destruct (Hres i) as [? _]; [by eexists|]. lia. }
  assert (forall i,
            extname (outputOf' i) = ".mp3"
            /\ Number (beforeUnderscore (parseName (outputOf' i)))
               = Some (Z.of_nat i + 1)) as Hmp3.
  { intros i.
    apply (file_key tmpDirPath (Z.of_nat i + 1) "splits" "mp3");
      [lia|by repeat constructor..|done]. }
  assert (forall i,
            extname (outputOf' i +:+ ".json") = ".json"
            /\ Number (beforeUnderscore (parseName (outputOf' i +:+ ".json")))
               = Some (Z.of_nat i + 1)) as Hjson.
  { intros i.
    replace (outputOf' i +:+ ".json")
      with (resolve tmpDirPath
              (showZ (Z.of_nat i + 1) +:+ "_" +:+ "splits.mp3" +:+ "." +:+ "json")).
    - apply (file_key tmpDirPath (Z.of_nat i + 1) "splits.mp3" "json");
        [lia|by repeat constructor..|done].
    - unfold outputOf, resolve. by rewrite !str_app_assoc. }
  rewrite Hfiles, <- Hsorted. unfold sortAudioDir. split.
  - rewrite filter_all.
    + rewrite sortBy_map. f_equal. apply sortBy_ext. intros i. apply Hmp3.
    + apply Forall_forall. intros file (i & -> & _)%list_elem_of_fmap.
      by rewrite (proj1 (Hmp3 i)).
  - rewrite <- list_fmap_compose. rewrite filter_all.
    + rewrite sortBy_map. f_equal. apply sortBy_ext. intros i. apply Hjson.
    + apply Forall_forall. intros file (i & -> & _)%list_elem_of_fmap.
      simpl. by rewrite (proj1 (Hjson i)).
Qed.

End Listed.

(** *** The merge of a batch *)

Section MergeOrder.

Variable generateTaskId : string -> string -> string -> string -> string -> string.
Variable AUDIO_DIR : string.
Variable STATIC_DOMAIN : string.
Variable synthesisError : string -> option error.
Variable finishOrder : nat -> nat.

Local Abbreviation buildSegmentList' :=
  (buildSegmentList generateTaskId AUDIO_DIR STATIC_DOMAIN synthesisError finishOrder).
Local Abbreviation runConcurrentTasks' :=
  (runConcurrentTasks generateTaskId synthesisError finishOrder).
Local Abbreviation tmpDirOf := (tmpDirOf AUDIO_DIR).
Local Abbreviation keyOf' := (keyOf generateTaskId).

(** When the segments of a batch have different keys, none of them in the
    cache, the batch merges the audio files, and the subtitle files, of the
    segments that did not fail, by ascending index, in whatever order the
    jobs got over. *)
Lemma merge_in_index_order segment segments_ task w r :
  NoDup (map keyOf' segments_) ->
  Forall (fun seg => cache w !! keyOf' seg = None) segments_ ->
  (buildSegmentList' segment segments_ task w).1 = Return r ->
  let p := (runConcurrentTasks' (tmpDirOf segment) segments_ task 3 w).1 in
  let alive := survivors (results p) (length segments_) in
  exists jobs,
    log (buildSegmentList' segment segments_ task w).2
    = log w ++ jobs
      ++ [ConcatAudio (map (outputOf (tmpDirOf segment)) alive)
                      (resolve AUDIO_DIR (id segment));
          ConcatSrt (map (fun i => outputOf (tmpDirOf segment) i +:+ ".json") alive)
                    (replace (resolve AUDIO_DIR (id segment)) ".mp3" ".srt")]
      ++ from_option (fun taskId => [UpdateProgress taskId percent100]) [] task
    /\ merges jobs = [].
Proof.
  intros Hkeys Hfresh Hret p alive.
  pose proof (buildSegmentList_trace generateTaskId AUDIO_DIR STATIC_DOMAIN
                synthesisError finishOrder segment segments_ task w)
    as (tail & Hres & Htail).
  simpl in Hres, Htail. rewrite Hret in Htail. destruct Htail as [-> _].
  pose proof (runConcurrentTasks_pooled generateTaskId synthesisError
                finishOrder (tmpDirOf segment) segments_ task w)
    as [(jobs & Hlog & _ & _ & _ & _ & _ & _ & _ & _ & Heff & _) _].
  simpl in Hlog.
  assert (listed generateTaskId (tmpDirOf segment) segments_
            (runConcurrentTasks' (tmpDirOf segment) segments_ task 3 w))
    as Hlisted.
  { unfold runConcurrentTasks.
    by apply listed_rounds, listed_start. }
  apply listed_sorted in Hlisted as [Hmp3 Hjson].
  exists jobs. split.
  - rewrite Hres. simpl. rewrite Hlog. unfold mergeTail.
    fold p in Hmp3, Hjson. fold p. rewrite Hmp3, Hjson.
    by rewrite <- (assoc (++)).
  - clear -Heff. induction Heff as [|e l He _ IH]; [done|].
    unfold merges in *. simpl. rewrite IH.
    by destruct e.
Qed.

End MergeOrder.
(** ** Claim on the subtitle pass *)

Section SubtitleClaim.

Import EdgeTTS.

(** C1, as the code has it.  For a cue list that is not empty and in which
    the scan of every cue but the last stops at a character equal to the
    first character of the next fragment, [_saveSubFile] gives every cue a
    piece of the source text such that the pieces, joined in order, are the
    source text; the number of cues and their times stay as they were. *)
Theorem subtitle_text_preserved (subFile_ : list subLine) (text_ : string) :
  subFile_ <> [] ->
  everyScanStops (list_ascii_of_string text_) subFile_ 0 = true ->
  concatParts (_saveSubFile subFile_ text_) = text_
  /\ length (_saveSubFile subFile_ text_) = length subFile_
  /\ map times (_saveSubFile subFile_ text_) = map times subFile_.
Proof.
  intros Hne Hstop. rewrite _saveSubFile_rebuild. split; [|split].
  - rewrite rebuild_concat by done. simpl.
    apply string_of_list_ascii_of_string.
  - apply rebuild_length.
  - apply rebuild_times.
Qed.

Lemma subtitle_text_preserved_witness :
  Sample.cues <> []
  /\ everyScanStops (list_ascii_of_string "Hello, world!") Sample.cues 0 = true
  /\ (concatParts (_saveSubFile Sample.cues "Hello, world!") = "Hello, world!"
      /\ length (_saveSubFile Sample.cues "Hello, world!") = length Sample.cues
      /\ map times (_saveSubFile Sample.cues "Hello, world!")
         = map times Sample.cues).
Proof.
  split; [discriminate|]. split; [reflexivity|].
  apply subtitle_text_preserved; [discriminate|reflexivity].
Defined.

(** With no cue the text is lost, and when the scan of a cue that is not
    the last one runs to the end of the text, the cursor stays where it was
    and the next cue takes the same characters again. *)
Lemma subtitle_text_not_preserved :
  concatParts (_saveSubFile [] "ab") <> "ab"
  /\ concatParts (_saveSubFile [SubLine "a" 0 100; SubLine "x" 100 200] "ab")
     <> "ab".
Proof. split; vm_compute; discriminate. Qed.

Example subtitle_text_twice :
  map part (_saveSubFile [SubLine "a" 0 100; SubLine "x" 100 200] "ab")
  = ["ab"; "ab"].
Proof. reflexivity. Qed.

End SubtitleClaim.

(** ** The claims at sample inputs *)

Section ProtocolSamples.

Import EdgeTTS.


Lemma wire_frames_witness :
  length Sample.sixteenBytes = 16%nat
  /\ feasible Sample.parseMetadata Sample.saving "Hello, world!"
              (requestIdOf Sample.sixteenBytes) Sample.turnEvents = true
  /\ String.length (requestIdOf Sample.sixteenBytes) = 32%nat.
Proof.
  split; [reflexivity|]. split; [reflexivity|].
  apply (wire_frames Sample.parseMetadata Sample.saving "Hello, world!"
           Sample.sixteenBytes Sample.turnEvents); reflexivity.
Defined.

(** An entry without a tick count gets [NaN] for the times computed from
    it and is pushed all the same; an entry without its text ends the
    frame. *)
Example cues_without_ticks :
  pushCues []
    [Some {| Text := "a"; Offset := None; Duration := Some 5 |};
     Some {| Text := "b"; Offset := Some 25000; Duration := None |};
     None;
     Some {| Text := "c"; Offset := Some 30000; Duration := Some 10000 |}]
  = [SubLine "a" NaN NaN; SubLine "b" 2 NaN].
Proof. reflexivity. Qed.

(** A binary frame that comes after [turn.end] is given to the stream,
    which has been ended and refuses it. *)
Example audio_after_turn_end :
  let events :=
    [Open;
     BinaryMessage (list_byte_of_string ("Path:audio" +:+ CRLF +:+ "ID3"));
     TextMessage ("Path:turn.end" +:+ CRLF +:+ "{}");
     BinaryMessage (list_byte_of_string ("Path:audio" +:+ CRLF +:+ "TAG"))] in
  let s := ttsPromise Sample.parseMetadata Sample.saving "Hello, world!"
                      (requestIdOf Sample.sixteenBytes) events in
  feasible Sample.parseMetadata Sample.saving "Hello, world!"
           (requestIdOf Sample.sixteenBytes) events = true
  /\ outcome s = Resolved
  /\ audioStream <$> job s = Some [list_byte_of_string "ID3"]
  /\ lateWrites <$> job s = Some [list_byte_of_string "TAG"].
Proof. by vm_compute. Qed.

End ProtocolSamples.

Section ServiceSamples.

Import Sample.

(** C2 at a batch of two segments, the second of which fails: the result
    is partial, the first segment is in the cache under its own key, and
    there is nothing under the key of the request. *)
Example partial_batch_not_cached :
  let res := run secondFails inOrder (request "One.Two." aria false) None
                 emptyWorld in
  (exists r, res.1 = Return r /\ partial r = Some true)
  /\ map fst (cacheWrites (log res.2))
     = ["One.|default|en-US-AriaNeural|default|default"]
  /\ cacheKeyOf generateTaskId (request "One.Two." aria false)
     = "One.Two.|default|en-US-AriaNeural|default|default"
  /\ cache res.2 !! cacheKeyOf generateTaskId (request "One.Two." aria false)
     = None.
Proof.
  split; [eexists; split; by vm_compute|].
  split; [by vm_compute|]. split; [by vm_compute|]. by vm_compute.
Qed.

(** C5: a voice for English and a French text, nothing cached. *)
Lemma validation_before_synthesis_witness :
  mismatch franc (request "Bonjour le monde." aria false)
  /\ run allFine inOrder (request "Bonjour le monde." aria false) None emptyWorld
     = (Throw (Error_ "English model cannot process non-English text"),
        emptyWorld).
Proof.
  assert (mismatch franc (request "Bonjour le monde." aria false)) as Hm.
  { split; [vm_compute; discriminate|reflexivity]. }
  split; [exact Hm|].
  exact (validation_before_synthesis generateTaskId splitText franc getPrompt
           AUDIO_DIR STATIC_DOMAIN now allFine chatCompletion inOrder
           (request "Bonjour le monde." aria false) None emptyWorld Hm).
Defined.

(** The same voice and the French sentence alone: language and voice do
    not fit, yet the call returns the audio that the first request cached
    for that segment, and throws nothing. *)
Lemma validation_skipped_on_cache_hit :
  mismatch franc (request "Bonjour le monde." aria false)
  /\ (run allFine inOrder (request "Bonjour le monde." aria false) None
          afterMixedText).1
     = Return
         {| audio := "/app/audio/en-US-AriaNeural-Hello-ther-1700000000000/2_splits.mp3";
            srt := "/app/audio/en-US-AriaNeural-Hello-ther-1700000000000/2_splits.srt";
            partial := None |}.
Proof. split; [split; [vm_compute; discriminate|reflexivity]|]. by vm_compute. Qed.

(** C6: one segment, and its session fails. *)
Lemma single_segment_failure_witness :
  cache emptyWorld !! cacheKeyOf generateTaskId (request "Hello" aria false) = None
  /\ ~ mismatch franc (request "Hello" aria false)
  /\ useLLM (request "Hello" aria false) = false
  /\ length_ (splitText (text (request "Hello" aria false))) = 1%nat
  /\ exists w',
       run alwaysFails inOrder (request "Hello" aria false) None emptyWorld
       = (Throw (Error_ "Timed out"), w')
       /\ cache w' = cache emptyWorld.
Proof.
  assert (~ mismatch franc (request "Hello" aria false)) as Hm.
  { intros [H _]. apply H. reflexivity. }
  split; [reflexivity|]. split; [exact Hm|]. split; [reflexivity|].
  split; [reflexivity|].
  apply (single_segment_failure generateTaskId splitText franc getPrompt
           AUDIO_DIR STATIC_DOMAIN now alwaysFails chatCompletion inOrder
           (request "Hello" aria false) None emptyWorld
           eq_refl Hm eq_refl eq_refl).
  reflexivity.
Defined.

(** C10: two segments and the language model asked for. *)
Lemma llm_several_segments_throws_witness :
  useLLM (request "One.Two." aria true) = true
  /\ (1 < length_ (splitText (trim (text (request "One.Two." aria true)))))%nat
  /\ cache emptyWorld !! cacheKeyOf generateTaskId (request "One.Two." aria true)
     = None
  /\ exists e,
       run allFine inOrder (request "One.Two." aria true) None emptyWorld
       = (Throw e, emptyWorld).
Proof.
  assert (1 < length_ (splitText (trim (text (request "One.Two." aria true)))))%nat
    as Hlen by (vm_compute; lia).
  split; [reflexivity|]. split; [exact Hlen|]. split; [reflexivity|].
  destruct (llm_several_segments_throws generateTaskId splitText franc getPrompt
              AUDIO_DIR STATIC_DOMAIN now allFine chatCompletion inOrder
              (request "One.Two." aria true) None emptyWorld
              eq_refl Hlen eq_refl) as (_ & e & He & _).
  exists e. exact He.
Defined.

(** With the language model asked for, the same text of two segments now
    gets the cached artifact, and the call does not throw. *)
Lemma llm_several_segments_cache_hit :
  useLLM (request "One.Two." aria true) = true
  /\ length_ (splitText (trim (text (request "One.Two." aria true)))) = 2%nat
  /\ (run allFine inOrder (request "One.Two." aria true) None afterPlainRequest).1
     = Return
         {| audio := "/en-US-AriaNeural-One.Two.-1700000000000.mp3";
            srt := "/en-US-AriaNeural-One.Two.-1700000000000.srt";
            partial := Some false |}.
Proof. split; [reflexivity|]. split; [reflexivity|]. by vm_compute. Qed.

(** C9 at two segments. *)
Lemma progress_reports_witness :
  Z.of_nat (length twoSegments) < 20000
  /\ exists jobs tail,
       log (buildSegmentList generateTaskId AUDIO_DIR STATIC_DOMAIN allFine
              inOrder theSegment twoSegments (Some "task") emptyWorld).2
       = log emptyWorld ++ jobs ++ tail
       /\ StronglySorted Z.le (reports (jobs ++ tail)).
Proof.
  assert (Z.of_nat (length twoSegments) < 20000) as Hsmall by (vm_compute; done).
  split; [exact Hsmall|].
  destruct (progress_reports generateTaskId AUDIO_DIR STATIC_DOMAIN allFine
              inOrder theSegment twoSegments "task" emptyWorld Hsmall)
    as (jobs & tail & Hlog & Hsorted & _).
  exists jobs, tail. split; [exact Hlog|exact Hsorted].
Defined.

(** Three segments; the second and the third fail, then the first one
    succeeds and reports: two jobs are over before it, three with itself,
    and the report is 33.33, not 66.67 and not 100. *)
Lemma progress_not_terminal_count :
  exists pre post,
    log (buildSegmentList generateTaskId AUDIO_DIR STATIC_DOMAIN onlyFirstWorks
           secondOfRunning theSegment threeSegments (Some "task") emptyWorld).2
    = pre ++ UpdateProgress "task" 3333 :: post
    /\ length threeSegments = 3%nat
    /\ length (filter (fun e => synthFailed e = true) pre) = 2%nat
    /\ length (filter (fun e => jobEnded e = true) pre) = 3%nat
    /\ getProgress 2 3 = 6667
    /\ getProgress 3 3 = 10000.
Proof.
  eexists [_; _; _; _; _; _], _. split; [by vm_compute|]. by vm_compute.
Qed.

(** The double computation is not the exact rounding: 23 of 160 is 14.375,
    which rounds to 14.38, and the report is 14.37. *)
Example getProgress_23_of_160 :
  getProgress 23 160 = 1437
  /\ (20000 * 23 + 160) / (2 * 160) = 1438.
Proof. split; by vm_compute. Qed.

(** C4 at a text whose first and last segments are the same: the fourth
    job starts when the first is over, finds its audio in the cache and
    puts the file of the first segment on the list a second time; the
    merge takes the files 1, 1, 2, 3, so the audio of the fourth segment
    comes before that of the second and the third. *)
Lemma merge_order_with_repeated_segment :
  segments (splitText "A.B.C.A.") = ["A."; "B."; "C."; "A."]
  /\ (run allFine inOrder (request "A.B.C.A." aria false) None emptyWorld).1
     = Return
         {| audio := "/en-US-AriaNeural-A.B.C.A.-1700000000000.mp3";
            srt := "/en-US-AriaNeural-A.B.C.A.-1700000000000.srt";
            partial := Some false |}
  /\ merges (log (run allFine inOrder (request "A.B.C.A." aria false) None
                      emptyWorld).2)
     = [["/app/audio/en-US-AriaNeural-A.B.C.A.-1700000000000/1_splits.mp3";
         "/app/audio/en-US-AriaNeural-A.B.C.A.-1700000000000/1_splits.mp3";
         "/app/audio/en-US-AriaNeural-A.B.C.A.-1700000000000/2_splits.mp3";
         "/app/audio/en-US-AriaNeural-A.B.C.A.-1700000000000/3_splits.mp3"]].
Proof. split; [reflexivity|]. split; by vm_compute. Qed.

(** Five different segments, nothing cached, the second fails and is the
    first to get over: the result is partial and the merge takes the files
    1, 3, 4, 5. *)
Example merge_of_five_with_a_failure :
  NoDup (map (keyOf generateTaskId)
             (segmentsOf splitText (request "A.B.C.D.E." aria false)
                         "en-US-AriaNeural-A.B.C.D.E.-1700000000000.mp3"))
  /\ (run secondFails secondFirst (request "A.B.C.D.E." aria false) None
          emptyWorld).1
     = Return
         {| audio := "/en-US-AriaNeural-A.B.C.D.E.-1700000000000.mp3";
            srt := "/en-US-AriaNeural-A.B.C.D.E.-1700000000000.srt";
            partial := Some true |}
  /\ merges (log (run secondFails secondFirst (request "A.B.C.D.E." aria false)
                      None emptyWorld).2)
     = [["/app/audio/en-US-AriaNeural-A.B.C.D.E.-1700000000000/1_splits.mp3";
         "/app/audio/en-US-AriaNeural-A.B.C.D.E.-1700000000000/3_splits.mp3";
         "/app/audio/en-US-AriaNeural-A.B.C.D.E.-1700000000000/4_splits.mp3";
         "/app/audio/en-US-AriaNeural-A.B.C.D.E.-1700000000000/5_splits.mp3"]].
Proof.
  split; [|split; by vm_compute].
  apply (bool_decide_unpack _). by vm_compute.
Qed.

End ServiceSamples.

(** * Further properties of the code *)

(** ** [safeRunWithRetry] *)

Section RetryFacts.

Import Retry.

Context {T E : Type}.
Variable fn : nat -> E + T.
Variable onError : E -> Z -> option E.
Variable retries : Z.
Variable baseDelayMs : Z.

Local Abbreviation loop' := (loop fn onError retries baseDelayMs).
Local Abbreviation run' := (safeRunWithRetry fn onError retries baseDelayMs).
Local Abbreviation retried' := (retried fn baseDelayMs).
Local Abbreviation fails' := (fails fn onError).

(** The iterations whose call fails and is retried. *)
Lemma loop_retried k : forall fuel a,
  (forall i, (i < k)%nat -> fails' (a + i)%nat) ->
  Z.of_nat (a + k) < retries -> (k < fuel)%nat ->
  loop' fuel a
  = ((loop' (fuel - k) (a + k)).1,
     flat_map retried' (seq a k) ++ (loop' (fuel - k) (a + k)).2).
Proof.
  induction k as [|k IH]; intros fuel a Hfails Hlt Hfuel.
  { rewrite Nat.sub_0_r, Nat.add_0_r. simpl. by destruct (loop' fuel a). }
  destruct fuel as [|fuel]; [lia|].
  destruct (Hfails 0%nat ltac:(lia)) as (err & Hfn & Hon).
  rewrite Nat.add_0_r in Hfn, Hon.
  cbn [loop]. rewrite decide_True by lia. rewrite Hfn, Hon.
  rewrite decide_True by lia.
  rewrite (IH fuel (S a)); [|intros i Hi|lia|lia].
  - replace (S a + k)%nat with (a + S k)%nat by lia.
    replace (S fuel - S k)%nat with (fuel - k)%nat by lia.
    cbn [seq flat_map]. unfold retried at 2. rewrite Hfn.
    by rewrite <- (assoc (++)).
  - replace (S a + i)%nat with (a + S i)%nat by lia. apply Hfails. lia.
Qed.

Lemma calls_app (l1 l2 : list (op E)) : calls (l1 ++ l2) = (calls l1 + calls l2)%nat.
Proof.
  unfold calls. induction l1 as [|o l1 IH]; [done|].
  simpl. rewrite IH. by destruct o.
Qed.

Lemma slept_app (l1 l2 : list (op E)) : slept (l1 ++ l2) = slept l1 + slept l2.
Proof.
  unfold slept. induction l1 as [|o l1 IH]; [done|].
  simpl. rewrite IH. destruct o; lia.
Qed.

Lemma retried_counts k : forall a,
  (forall i, (i < k)%nat -> fails' (a + i)%nat) ->
  calls (flat_map retried' (seq a k)) = k
  /\ 2 * slept (flat_map retried' (seq a k))
     = baseDelayMs * (Z.of_nat k * (2 * Z.of_nat a + Z.of_nat k + 1)).
Proof.
  induction k as [|k IH]; intros a Hfails.
  { simpl. split; [done|]. unfold slept. simpl. lia. }
  destruct (Hfails 0%nat ltac:(lia)) as (err & Hfn & _).
  rewrite Nat.add_0_r in Hfn.
  destruct (IH (S a)) as [Hc Hs].
  { intros i Hi. replace (S a + i)%nat with (a + S i)%nat by lia.
    apply Hfails. lia. }
  assert (retried' a
          = [Call; OnError err (Z.of_nat a + 1);
             Sleep (baseDelayMs * (Z.of_nat a + 1))]) as Hr.
  { unfold retried. by rewrite Hfn. }
  cbn [seq flat_map]. rewrite calls_app, slept_app, Hc, Hr.
  split; [done|].
  change (slept [Call; OnError err (Z.of_nat a + 1);
                 Sleep (baseDelayMs * (Z.of_nat a + 1))])
    with (baseDelayMs * (Z.of_nat a + 1) + 0).
  nia.
Qed.

(** More fuel than iterations changes nothing. *)
Lemma loop_fuel fuel : forall fuel' a,
  retries <= Z.of_nat a + Z.of_nat fuel -> (fuel <= fuel')%nat ->
  loop' fuel' a = loop' fuel a.
Proof.
  induction fuel as [|fuel IH]; intros fuel' a Hle Hfuel.
  - destruct fuel'; [done|]. cbn [loop]. by rewrite decide_False by lia.
  - destruct fuel' as [|fuel']; [lia|]. cbn [loop].
    case_decide; [|done]. destruct (fn a); [|done].
    destruct (onError _ _); [done|]. case_decide; [|done].
    by rewrite (IH fuel' (S a)) by lia.
Qed.

(** When the call of some iteration returns, all calls before it having
    failed, [safeRunWithRetry] returns that value: [fn] has been called
    once per iteration, [onError] once per failure with the number of the
    attempt, counted from one, and after the failure of attempt [i] the
    call slept [baseDelayMs * i]. *)
Theorem retry_returns_first_success (k : nat) (value : T) :
  Z.of_nat k < retries ->
  fn k = inr value ->
  (forall i, (i < k)%nat -> fails' i) ->
  run' = (inr value, flat_map retried' (seq 0 k) ++ [Call])
  /\ calls run'.2 = S k
  /\ 2 * slept run'.2 = baseDelayMs * (Z.of_nat k * (Z.of_nat k + 1)).
Proof.
  intros Hlt Hfn Hfails.
  assert (run' = (inr value, flat_map retried' (seq 0 k) ++ [Call])) as Hrun.
  { unfold safeRunWithRetry. rewrite (loop_retried k) by (try done; lia).
    destruct (Z.to_nat retries - k)%nat as [|fuel] eqn:Hfuel; [lia|].
    cbn [loop]. rewrite decide_True by lia. simpl. by rewrite Hfn. }
  split; [done|]. rewrite Hrun. cbn [snd].
  destruct (retried_counts k 0%nat Hfails) as [Hc Hs].
  rewrite calls_app, slept_app, Hc. split; [simpl; lia|].
  unfold slept at 2. simpl. lia.
Qed.

(** When every call fails, [safeRunWithRetry] throws what the last call
    threw, after [retries] calls; it does not sleep after the last failure. *)
Theorem retry_gives_up :
  0 < retries ->
  (forall i, Z.of_nat i < retries -> fails' i) ->
  exists err,
    fn (Z.to_nat retries - 1) = inl err
    /\ run' = (inl (Caught err),
               flat_map retried' (seq 0 (Z.to_nat retries - 1))
               ++ [Call; OnError err retries])
    /\ calls run'.2 = Z.to_nat retries
    /\ 2 * slept run'.2 = baseDelayMs * (retries * (retries - 1)).
Proof.
  intros Hpos Hfails.
  set (k := (Z.to_nat retries - 1)%nat).
  destruct (Hfails k ltac:(lia)) as (err & Hfn & Hon).
  exists err. split; [done|].
  assert (run' = (inl (Caught err),
                  flat_map retried' (seq 0 k) ++ [Call; OnError err retries]))
    as Hrun.
  { unfold safeRunWithRetry.
    rewrite (loop_retried k); [|intros i Hi; apply Hfails; lia|lia|lia].
    destruct (Z.to_nat retries - k)%nat as [|fuel] eqn:Hfuel; [lia|].
    cbn [loop]. rewrite decide_True by lia. simpl. rewrite Hfn, Hon.
    rewrite decide_False by lia. simpl.
    replace (Z.of_nat k + 1) with retries by lia. done. }
  split; [done|]. rewrite Hrun. cbn [snd].
  destruct (retried_counts k 0%nat) as [Hc Hs].
  { intros i Hi. apply Hfails. lia. }
  rewrite calls_app, slept_app, Hc. split; [simpl; lia|].
  unfold slept at 2. simpl.
  assert (Z.of_nat k = retries - 1) as Hk by lia.
  rewrite Hk in Hs. nia.
Qed.

(** The last line, which throws [Unexpected execution flow], is reached
    exactly when [retries] is not positive; [fn] is not called then. *)
Theorem retry_unexpected_flow :
  ((safeRunWithRetry fn onError retries baseDelayMs).1 = inl Unexpected
   <-> retries <= 0)
  /\ ((safeRunWithRetry fn onError retries baseDelayMs).1 = inl Unexpected ->
      (safeRunWithRetry fn onError retries baseDelayMs).2 = []).
Proof.
  assert (forall fuel a,
            Z.of_nat a < retries -> retries <= Z.of_nat a + Z.of_nat fuel ->
            (loop' fuel a).1 <> inl Unexpected) as Hnever.
  { induction fuel as [|fuel IH]; intros a Hlt Hle; [lia|].
    cbn [loop]. rewrite decide_True by done.
    destruct (fn a); [|done]. destruct (onError _ _); [done|].
    case_decide; [|done].
    specialize (IH (S a) ltac:(lia) ltac:(lia)).
    by destruct (loop' fuel (S a)). }
  assert (retries <= 0 -> run' = (inl Unexpected, [])) as Hnone.
  { intros Hle. unfold safeRunWithRetry.
    by replace (Z.to_nat retries) with 0%nat by lia. }
  assert (run'.1 = inl Unexpected -> retries <= 0) as Honly.
  { intros Hrun. destruct (decide (retries <= 0)) as [|Hpos]; [done|].
    by destruct (Hnever (Z.to_nat retries) 0%nat ltac:(lia) ltac:(lia)). }
  split.
  - split; [done|]. intros Hle. by rewrite Hnone.
  - intros Hrun. by rewrite Hnone by auto.
Qed.

(** When [onError] throws, [safeRunWithRetry] throws that error at once:
    no further call of [fn], no sleep. *)
Theorem retry_handler_throws (k : nat) (err err' : E) :
  Z.of_nat k < retries ->
  (forall i, (i < k)%nat -> fails' i) ->
  fn k = inl err ->
  onError err (Z.of_nat k + 1) = Some err' ->
  safeRunWithRetry fn onError retries baseDelayMs
  = (inl (Caught err'),
     flat_map retried' (seq 0 k) ++ [Call; OnError err (Z.of_nat k + 1)]).
Proof.
  intros Hlt Hfails Hfn Hon.
  unfold safeRunWithRetry. rewrite (loop_retried k) by (try done; lia).
  destruct (Z.to_nat retries - k)%nat as [|fuel] eqn:Hfuel; [lia|].
  cbn [loop]. rewrite decide_True by lia. simpl. by rewrite Hfn, Hon.
Qed.

Lemma loop_calls fuel : forall a,
  (calls (loop' fuel a).2 <= fuel)%nat
  /\ (forall i, (i + 1 < calls (loop' fuel a).2)%nat -> fails' (a + i)%nat)
  /\ (forall value, (loop' fuel a).1 = inr value ->
        (0 < calls (loop' fuel a).2)%nat
        /\ fn (a + calls (loop' fuel a).2 - 1)%nat = inr value).
Proof.
  induction fuel as [|fuel IH]; intros a.
  { simpl. split; [done|]. split; [intros i Hi; simpl in Hi; lia|done]. }
  cbn [loop]. case_decide as Hlt.
  2: { simpl. split; [lia|]. split; [intros i Hi; simpl in Hi; lia|done]. }
  destruct (fn a) as [err|value] eqn:Hfn.
  2: { simpl. split; [lia|]. split; [intros i Hi; lia|].
       intros v [= <-]. split; [lia|].
       by replace (a + 1 - 1)%nat with a by lia. }
  destruct (onError err (Z.of_nat a + 1)) as [err'|] eqn:Hon.
  { simpl. split; [lia|]. split; [intros i Hi; lia|done]. }
  case_decide as Hmore.
  2: { simpl. split; [lia|]. split; [intros i Hi; lia|done]. }
  destruct (IH (S a)) as (Hle & Hfails & Hvalue).
  destruct (loop' fuel (S a)) as [r rest]. simpl in *.
  split; [lia|]. split.
  - intros i Hi. destruct i as [|i].
    + rewrite Nat.add_0_r. by exists err.
    + replace (a + S i)%nat with (S (a + i)) by lia. apply Hfails. lia.
  - intros v Hv. destruct (Hvalue v Hv) as [Hpos Hlast]. split; [lia|].
    by replace (a + S (calls rest) - 1)%nat with (a + calls rest - 0)%nat by lia.
Qed.

(** Whatever [fn] and [onError] do, [fn] is called at most [retries]
    times, every call but the last one threw and was retried, and a value
    that is returned is the one the last call of [fn] returned. *)
Theorem retry_calls_bounded :
  (calls (safeRunWithRetry fn onError retries baseDelayMs).2
   <= Z.to_nat retries)%nat
  /\ (forall i,
        (i + 1 < calls (safeRunWithRetry fn onError retries baseDelayMs).2)%nat ->
        fails' i)
  /\ (forall value,
        (safeRunWithRetry fn onError retries baseDelayMs).1 = inr value ->
        fn (calls (safeRunWithRetry fn onError retries baseDelayMs).2 - 1)%nat
        = inr value).
Proof.
  destruct (loop_calls (Z.to_nat retries) 0%nat) as (Hle & Hfails & Hvalue).
  split; [done|]. split; [done|].
  intros value Hv. by destruct (Hvalue value Hv) as [_ ?].
Qed.

End RetryFacts.

(** ** [streamWithLimit] *)

Section StreamFacts.

Import Stream.

Variable bitrate : Z.

Local Abbreviation onEvent' := (onEvent bitrate).
Local Abbreviation run' := (streamWithLimit bitrate).

Lemma slice_split buf k :
  slice buf 0 k ++ slice buf k (Z.of_nat (length buf)) = buf.
Proof.
  unfold slice, sliceIndex. rewrite decide_False by lia.
  rewrite (decide_False (P := Z.of_nat (length buf) < 0)) by lia.
  rewrite Z.min_id, Z.min_l by lia. simpl.
  rewrite Nat2Z.id, firstn_all, drop_0. apply take_drop.
Qed.

Lemma slice_head_length buf k :
  0 <= k <= Z.of_nat (length buf) ->
  Z.of_nat (length (slice buf 0 k)) = k.
Proof.
  intros Hk. unfold slice, sliceIndex.
  rewrite !decide_False by lia. rewrite Z.min_l, Z.min_l by lia.
  simpl. rewrite drop_0, length_take. lia.
Qed.

Lemma delivered_app l1 l2 : delivered (l1 ++ l2) = delivered l1 ++ delivered l2.
Proof. apply flat_map_app. Qed.

Lemma written_app l1 l2 : written (l1 ++ l2) = written l1 ++ written l2.
Proof. apply flat_map_app. Qed.

Lemma received_app l1 l2 : received (l1 ++ l2) = received l1 ++ received l2.
Proof. apply flat_map_app. Qed.

(** One event that is not the end of the file: what was delivered and
    what is buffered make up what was read. *)
Lemma onEvent_kept s ev :
  isEnd ev = false ->
  delivered (ops (onEvent' s ev)) ++ buffer (onEvent' s ev)
  = (delivered (ops s) ++ buffer s) ++ chunkOf ev.
Proof.
  intros Hev. destruct ev as [chunk| |message| |]; try done; simpl.
  - destruct (_ && _); simpl; rewrite ?delivered_app; simpl;
      by rewrite ?app_nil_r, ?(assoc (++)).
  - by rewrite delivered_app, !app_nil_r.
  - destruct (timer s && _); simpl; [|by rewrite app_nil_r].
    destruct (_ && paused s); simpl; rewrite ?delivered_app; simpl;
      rewrite ?app_nil_r, <- ?(assoc (++)), slice_split; done.
  - by rewrite delivered_app, !app_nil_r.
Qed.

Lemma foldl_kept events : forall s,
  Forall (fun ev => isEnd ev = false) events ->
  delivered (ops (foldl onEvent' s events)) ++ buffer (foldl onEvent' s events)
  = (delivered (ops s) ++ buffer s) ++ received events.
Proof.
  induction events as [|ev events IH]; intros s Hall; simpl.
  { by rewrite app_nil_r. }
  apply Forall_cons in Hall as [Hev Hall].
  rewrite IH, onEvent_kept by done.
  rewrite <- !(assoc (++)). by destruct ev.
Qed.

(** No byte of the file is lost, repeated or moved: until the file ends,
    the bytes given to the response followed by the bytes in the buffer are
    the bytes read, and when it ends the rest goes out with [res.end], so
    that the response has got the whole file, and the timer is cleared. *)
Theorem stream_delivers_file (events : list event) :
  Forall (fun ev => isEnd ev = false) events ->
  delivered (ops (run' events)) ++ buffer (run' events) = received events
  /\ delivered (ops (run' (events ++ [End]))) = received events
  /\ timer (run' (events ++ [End])) = false.
Proof.
  intros Hall. pose proof (foldl_kept events (opened) Hall) as Hkept.
  simpl in Hkept. split; [done|].
  unfold streamWithLimit. rewrite foldl_app. simpl.
  split; [|done]. rewrite delivered_app. simpl. by rewrite app_nil_r.
Qed.

Lemma onEvent_written s ev :
  0 <= bitrate ->
  5 * Z.of_nat (length (written (ops (onEvent' s ev))))
  <= 5 * Z.of_nat (length (written (ops s)))
     + (if isTick ev then 64 * bitrate else 0).
Proof.
  intros Hb. destruct ev as [chunk| |message| |]; simpl;
    rewrite ?written_app; simpl; rewrite ?app_nil_r; try lia.
  - destruct (_ && _); simpl; rewrite ?written_app; simpl;
      rewrite ?app_nil_r; lia.
  - destruct (timer s && _) eqn:Hon; simpl; [|lia].
    assert (5 * Z.of_nat (length (slice (buffer s) 0
                                    (sendSize bitrate (Z.of_nat (length (buffer s))))))
            <= 64 * bitrate) as Hchunk.
    { pose proof (Z.quot_pos (64 * bitrate) 5 ltac:(lia) ltac:(lia)).
      pose proof (Z.mul_quot_le (64 * bitrate) 5 ltac:(lia) ltac:(lia)).
      unfold sendSize.
      destruct (decide (64 * bitrate <= 5 * Z.of_nat (length (buffer s))));
        rewrite slice_head_length; lia. }
    destruct (_ && paused s); simpl; rewrite !written_app; simpl;
      rewrite ?app_nil_r, !length_app; lia.
Qed.

(** The timer writes at most [chunkSize] bytes each time it elapses: what
    it has written in all is at most [chunkSize] times the number of times
    it elapsed.  (What is left when the file ends goes out at once.) *)
Theorem stream_rate_limited (events : list event) :
  0 <= bitrate ->
  5 * Z.of_nat (length (written (ops (run' events))))
  <= 64 * bitrate * Z.of_nat (ticks events).
Proof.
  intros Hb.
  assert (forall evs s,
            5 * Z.of_nat (length (written (ops (foldl onEvent' s evs))))
            <= 5 * Z.of_nat (length (written (ops s)))
               + 64 * bitrate * Z.of_nat (ticks evs)) as Hgen.
  { induction evs as [|ev evs IH]; intros s; simpl.
    { unfold ticks. simpl. lia. }
    etrans; [apply IH|].
    pose proof (onEvent_written s ev Hb).
    unfold ticks in *. rewrite filter_cons.
    destruct ev; simpl in *; try (rewrite decide_False by done); 
      rewrite ?decide_True by done; simpl; lia. }
  specialize (Hgen events opened). simpl in Hgen. exact Hgen.
Qed.

Lemma slice_tail_length buf k :
  0 <= k <= Z.of_nat (length buf) ->
  Z.of_nat (length (slice buf k (Z.of_nat (length buf))))
  = Z.of_nat (length buf) - k.
Proof.
  intros Hk. unfold slice, sliceIndex.
  rewrite !decide_False by lia. rewrite Z.min_id, Z.min_l by lia.
  rewrite Nat2Z.id, firstn_all, length_drop. lia.
Qed.

Lemma sendSize_bounds len :
  0 <= bitrate -> 0 <= len ->
  0 <= sendSize bitrate len <= len
  /\ 5 * sendSize bitrate len <= 64 * bitrate.
Proof.
  intros Hb Hlen.
  pose proof (Z.quot_pos (64 * bitrate) 5 ltac:(lia) ltac:(lia)).
  pose proof (Z.mul_quot_le (64 * bitrate) 5 ltac:(lia) ltac:(lia)).
  unfold sendSize. case_decide; lia.
Qed.

(** The invariant of pausing: a paused stream has a chunk in the buffer. *)
Lemma onEvent_paused s ev :
  0 <= bitrate ->
  (paused s = true -> 64 * bitrate <= 5 * Z.of_nat (length (buffer s))) ->
  paused (onEvent' s ev) = true ->
  64 * bitrate <= 5 * Z.of_nat (length (buffer (onEvent' s ev))).
Proof.
  intros Hb Hinv. destruct ev as [chunk| |message| |]; simpl; try done.
  - destruct (negb (paused s)) eqn:Hp; simpl.
    + case_bool_decide; simpl; [lia|]. intros Hp'. by rewrite Hp' in Hp.
    + intros Hp'. rewrite length_app. specialize (Hinv Hp'). lia.
  - destruct (timer s && _); simpl; [|done].
    case_bool_decide; simpl.
    + destruct (paused s); simpl; [done|]. done.
    + intros _. lia.
Qed.

(** While the stream is paused the buffer holds at least [chunkSize]
    bytes, so that the next time the timer elapses a whole chunk, the
    integer part of [chunkSize], is written: a paused stream is not left
    waiting with nothing to send. *)
Theorem stream_paused_has_chunk (events : list event) :
  0 < bitrate ->
  paused (run' events) = true ->
  64 * bitrate <= 5 * Z.of_nat (length (buffer (run' events)))
  /\ (timer (run' events) = true ->
      exists chunk rest,
        ops (onEvent' (run' events) Tick)
        = ops (run' events) ++ ResWrite chunk :: rest
        /\ Z.of_nat (length chunk) = 64 * bitrate / 5
        /\ 12 <= Z.of_nat (length chunk)).
Proof.
  intros Hb.
  assert (forall evs s,
            (paused s = true -> 64 * bitrate <= 5 * Z.of_nat (length (buffer s))) ->
            paused (foldl onEvent' s evs) = true ->
            64 * bitrate <= 5 * Z.of_nat (length (buffer (foldl onEvent' s evs))))
    as Hgen.
  { induction evs as [|ev evs IH]; intros s Hinv; simpl; [done|].
    apply IH. by apply onEvent_paused; [lia|]. }
  unfold streamWithLimit.
  intros Hp. specialize (Hgen events opened ltac:(done) Hp).
  split; [done|]. intros Ht.
  set (s := foldl onEvent' opened events) in *. simpl.
  rewrite Ht. rewrite bool_decide_eq_true_2 by lia. simpl.
  assert (sendSize bitrate (Z.of_nat (length (buffer s))) = 64 * bitrate / 5)
    as Hsize.
  { unfold sendSize. rewrite decide_True by done.
    apply Z.quot_div_nonneg; lia. }
  assert (12 <= 64 * bitrate / 5) as Hfull.
  { apply Z.div_le_lower_bound; lia. }
  assert (64 * bitrate / 5 <= Z.of_nat (length (buffer s))) as Hfits.
  { apply Z.div_le_upper_bound; lia. }
  destruct (_ && paused s); simpl; eexists _, _;
    (split; [rewrite <- ?(assoc (++)); reflexivity|]);
    rewrite Hsize, slice_head_length by lia; done.
Qed.

(** The buffer stays small: when the stream emits no data while it is
    paused and no chunk read is longer than [most], the buffer never holds
    as much as twice [chunkSize] and one chunk read. *)
Theorem stream_buffer_bounded (most : nat) (events : list event) :
  0 < bitrate ->
  feasibleFrom bitrate opened events = true ->
  Forall (fun ev => (length (chunkOf ev) <= most)%nat) events ->
  5 * Z.of_nat (length (buffer (run' events)))
  < 128 * bitrate + 5 * Z.of_nat most.
Proof.
  intros Hb.
  assert (forall evs s,
            (paused s = false -> 5 * Z.of_nat (length (buffer s)) < 128 * bitrate) ->
            5 * Z.of_nat (length (buffer s)) < 128 * bitrate + 5 * Z.of_nat most ->
            feasibleFrom bitrate s evs = true ->
            Forall (fun ev => (length (chunkOf ev) <= most)%nat) evs ->
            5 * Z.of_nat (length (buffer (foldl onEvent' s evs)))
            < 128 * bitrate + 5 * Z.of_nat most) as Hgen.
  { induction evs as [|ev evs IH]; intros s Hflow Hbound Hf Hall; simpl; [done|].
    simpl in Hf. apply andb_true_iff in Hf as [Hcan Hf].
    apply Forall_cons in Hall as [Hev Hall].
    assert ((paused (onEvent' s ev) = false ->
             5 * Z.of_nat (length (buffer (onEvent' s ev))) < 128 * bitrate)
            /\ 5 * Z.of_nat (length (buffer (onEvent' s ev)))
               < 128 * bitrate + 5 * Z.of_nat most) as [Hflow' Hbound'].
    { destruct ev as [chunk| |message| |]; simpl in *; try done.
      - apply negb_true_iff in Hcan. rewrite Hcan in *. simpl.
        specialize (Hflow eq_refl).
        case_bool_decide; simpl; rewrite length_app in *; split; try done; lia.
      - destruct (timer s && _) eqn:Hon; simpl; [|done].
        apply andb_true_iff in Hon as [_ Hlen%bool_decide_eq_true].
        destruct (sendSize_bounds (Z.of_nat (length (buffer s)))
                    ltac:(lia) ltac:(lia)) as [Hsize _].
        pose proof (slice_tail_length (buffer s) _ Hsize) as Hrest.
        case_bool_decide; simpl.
        + destruct (paused s) eqn:Hp; simpl; split; lia.
        + split; [|lia]. intros Hp. specialize (Hflow Hp). lia. }
    by apply IH. }
  intros Hf Hall. apply Hgen; try done; simpl; lia.
Qed.

Lemma timer_off events : forall s,
  timer s = false ->
  timer (foldl onEvent' s events) = false
  /\ written (ops (foldl onEvent' s events)) = written (ops s).
Proof.
  induction events as [|ev events IH]; intros s Hoff; [done|].
  simpl. destruct (IH (onEvent' s ev)) as [Ht Hw].
  { destruct ev; simpl; rewrite ?Hoff; simpl; try done.
    by destruct (_ && _). }
  split; [done|]. rewrite Hw.
  destruct ev; simpl; rewrite ?Hoff, ?written_app; simpl;
    rewrite ?app_nil_r; try done.
  destruct (_ && _); simpl; rewrite ?written_app; simpl;
    by rewrite ?app_nil_r.
Qed.

(** The timer is cleared by the end of the file and by the closing of the
    response, and by nothing else (an error of the file stream leaves it
    running); once it is cleared it writes nothing more. *)
Theorem stream_timer_cleared (events : list event) :
  (timer (streamWithLimit bitrate events) = true
   <-> Forall (fun ev => ev <> End /\ ev <> ResClose) events)
  /\ (forall pre ev post,
        events = pre ++ ev :: post -> ev = End \/ ev = ResClose ->
        written (ops (streamWithLimit bitrate events))
        = written (ops (streamWithLimit bitrate pre))).
Proof.
  split.
  - unfold streamWithLimit.
    assert (forall evs s,
              timer (foldl onEvent' s evs) = true
              <-> timer s = true
                  /\ Forall (fun ev => ev <> End /\ ev <> ResClose) evs) as Hgen.
    { induction evs as [|ev evs IH]; intros s; simpl.
      { split; [by intros ?; split|by intros []]. }
      rewrite IH, Forall_cons.
      destruct ev as [chunk| |message| |]; simpl.
      - destruct (_ && _); simpl; naive_solver.
      - naive_solver.
      - naive_solver.
      - destruct (timer s) eqn:Ht; simpl.
        + destruct (bool_decide _); simpl; [|naive_solver].
          destruct (_ && _); simpl; naive_solver.
        + naive_solver.
      - naive_solver. }
    rewrite Hgen. simpl. naive_solver.
  - intros pre ev post -> Hev. unfold streamWithLimit.
    rewrite foldl_app. simpl.
    destruct (timer_off post (onEvent' (foldl onEvent' opened pre) ev))
      as [_ Hw].
    { by destruct Hev as [-> | ->]. }
    rewrite Hw. destruct Hev as [-> | ->]; simpl;
      by rewrite written_app, app_nil_r.
Qed.

End StreamFacts.

(** ** File names ([safeFileName], [generateId]) *)

Section NameFacts.

Lemma str_length_chars s : String.length s = length (list_ascii_of_string s).
Proof. induction s as [|c s IH]; simpl; [done|by rewrite IH]. Qed.

Lemma safeFileName_chars fileName :
  list_ascii_of_string (safeFileName fileName)
  = map (fun c => if unsafeChar c then "-"%char else c)
        (list_ascii_of_string fileName).
Proof. unfold safeFileName. apply list_ascii_of_string_of_list_ascii. Qed.

Lemma safeFileName_safe fileName :
  Forall (fun c => unsafeChar c = false)
         (list_ascii_of_string (safeFileName fileName)).
Proof.
  rewrite safeFileName_chars. apply Forall_fmap, Forall_forall.
  intros c _. simpl. by destruct (unsafeChar c) eqn:Hc.
Qed.

(** [safeFileName] changes characters one for one: the result is as long
    as the name, it holds no slash, backslash, question mark, percent
    sign, star, colon, bar, double quote, angle bracket, hash or white
    space, a name without such a character is returned as it is, and so
    is a result of [safeFileName]. *)
Theorem safeFileName_plain (fileName : string) :
  String.length (safeFileName fileName) = String.length fileName
  /\ Forall (fun c => unsafeChar c = false)
            (list_ascii_of_string (safeFileName fileName))
  /\ (Forall (fun c => unsafeChar c = false) (list_ascii_of_string fileName) ->
      safeFileName fileName = fileName)
  /\ safeFileName (safeFileName fileName) = safeFileName fileName.
Proof.
  assert (forall name_,
            Forall (fun c => unsafeChar c = false) (list_ascii_of_string name_) ->
            safeFileName name_ = name_) as Hsame.
  { intros name_ Hall. unfold safeFileName.
    rewrite <- (string_of_list_ascii_of_string name_) at 2. f_equal.
    induction Hall as [|c l Hc _ IH]; [done|]. simpl. by rewrite Hc, IH. }
  pose proof (safeFileName_safe fileName) as Hsafe.
  split; [|split; [done|split; [apply Hsame|by apply Hsame]]].
  by rewrite !str_length_chars, safeFileName_chars, length_map.
Qed.

Lemma substring_chars (P : ascii -> Prop) s : forall n m,
  Forall P (list_ascii_of_string s) ->
  Forall P (list_ascii_of_string (String.substring n m s)).
Proof.
  induction s as [|c s IH]; intros n m Hall.
  { destruct n, m; constructor. }
  simpl in Hall. apply Forall_cons in Hall as [Hc Hall].
  destruct n as [|n]; destruct m as [|m]; simpl; try by constructor.
  - constructor; [done|]. by apply IH.
  - by apply IH.
  - by apply IH.
Qed.

Lemma unsafe_slash c : unsafeChar c = false -> isNot "/" c = true.
Proof.
  intros Hc. unfold isNot. apply negb_true_iff, bool_decide_eq_false.
  intros ->. by vm_compute in Hc.
Qed.

Variable dir : string.

(** The text of a request cannot move its files: when the voice holds no
    slash, the id made for a request names a file of the directory it is
    resolved in, with the extension [.mp3], whatever the text is. *)
Theorem generateId_names_a_file (now : Z) (voice text_ : string) :
  0 < now ->
  Forall (fun c => isNot "/" c = true) (list_ascii_of_string voice) ->
  basename (resolve dir (generateId now voice text_)) = generateId now voice text_
  /\ extname (resolve dir (generateId now voice text_)) = ".mp3"
  /\ parseName (resolve dir (generateId now voice text_))
     = voice +:+ "-" +:+ String.substring 0 10 (safeFileName text_) +:+ "-"
       +:+ showZ now.
Proof.
  intros Hnow Hvoice.
  destruct (showZ_digits now Hnow) as [Hdigits _].
  assert (basename (resolve dir (generateId now voice text_))
          = generateId now voice text_) as Hbase.
  { apply basename_resolve. unfold generateId.
    rewrite !list_ascii_app, !Forall_app.
    split; [done|]. split; [by repeat constructor|].
    split.
    { apply substring_chars.
      eapply Forall_impl; [apply safeFileName_safe|]. apply unsafe_slash. }
    split; [by repeat constructor|].
    split; [|by repeat constructor].
    eapply Forall_impl; [done|]. intros c Hc. by apply digit_plain. }
  split; [done|].
  apply (extname_parseName _ _ "mp3").
  - rewrite Hbase. unfold generateId. by rewrite !str_app_assoc.
  - by destruct voice.
  - done.
  - by repeat constructor.
Qed.

End NameFacts.

(** ** The protocol client: payloads, reasons, a closure without end *)

Section FrameFacts.

Import EdgeTTS.

(** What is written to the audio file for a binary frame is what follows
    the first [Path:audio] line of the frame. *)
Theorem audio_after_first_separator (header body : list byte) :
  (forall j, (j < length header)%nat ->
             ~ occursAt (header ++ separator ++ body) separator j) ->
  audioData (header ++ separator ++ body) = body.
Proof.
  intros Hfirst. unfold audioData.
  rewrite (indexOf_found _ _ 0 (length header)); [| |done].
  - replace (Z.to_nat (0 + Z.of_nat (length header) + Z.of_nat (length separator)))
      with (length header + length separator)%nat by lia.
    by rewrite <- drop_drop, drop_app_length, drop_app_length.
  - unfold occursAt. by rewrite drop_app_length, take_app_length.
Qed.

(** For a binary frame without a [Path:audio] line the first eleven bytes
    are dropped and the rest is written to the audio file. *)
Theorem audio_without_separator (data : list byte) :
  (forall j, ~ occursAt data separator j) ->
  audioData data = drop 11 data.
Proof.
  intros Hnone. unfold audioData. by rewrite indexOf_absent.
Qed.

End FrameFacts.

Section Settling.

Import EdgeTTS.

Variable parseMetadata : string -> list (option boundary).
Variable cfg : configure.
Variable text : string.
Variable requestId : string.

Local Abbreviation onEvent := (onEvent parseMetadata cfg text requestId).
Local Abbreviation ttsPromise := (ttsPromise parseMetadata cfg text requestId).
Local Abbreviation feasibleFrom := (feasibleFrom parseMetadata cfg text requestId).
Local Abbreviation feasible := (feasible parseMetadata cfg text requestId).

(** Before anything decisive the turn has started exactly when the
    socket has opened. *)
Lemma quiet_opened events : forall s,
  waiting s -> feasibleFrom s events = true ->
  Forall (fun e => decisive e = false) events ->
  waiting (foldl onEvent s events)
  /\ (is_Some (job (foldl onEvent s events))
      <-> is_Some (job s) \/ existsb isOpen events = true).
Proof.
  induction events as [|ev events IH]; intros s Hw Hf Hquiet.
  { split; [done|]. simpl. naive_solver. }
  simpl in Hf. apply andb_true_iff in Hf as [Hcan Hf].
  apply Forall_cons in Hquiet as [Hev Hquiet].
  pose proof (waiting_quiet parseMetadata cfg text requestId s ev Hw Hcan Hev)
    as Hw'.
  destruct (IH _ Hw' Hf Hquiet) as [Hw'' Hjob].
  split; [done|]. simpl. rewrite Hjob.
  assert (is_Some (job (onEvent s ev))
          <-> is_Some (job s) \/ isOpen ev = true) as Hstep.
  { destruct Hw as (_ & Hnone & _).
    destruct s as [c [t|]]; simpl.
    - split; [by left|by eexists].
    - destruct (Hnone eq_refl) as [Hp Hr]. simpl in *.
      apply quiet_event in Hev. unfold EdgeTTS.onEvent. simpl.
      destruct ev as [|m|data|m|code reason|[|]]; simpl in *; try done;
        rewrite ?Hp; simpl.
      + split; [by right|by eexists].
      + split; [by intros []|]. intros [[]|]; done.
      + split; [by intros []|]. intros [[]|]; done.
      + subst. rewrite decide_True by done.
        split; [by intros []|]. intros [[]|]; done. }
  rewrite Hstep, orb_true_iff. naive_solver.
Qed.

(** The reason the promise is rejected with is that of the first abnormal
    event: one of the three messages of [_connectWebSocket] while the
    socket has not opened, one of the three of [ttsPromise] afterwards;
    what happens later does not change it. *)
Theorem rejection_reason (pre post : list wsEvent) (ev : wsEvent) :
  feasible (pre ++ ev :: post) = true ->
  Forall (fun e => decisive e = false) pre ->
  abnormal ev = true ->
  exists reason,
    rejection (existsb isOpen pre) ev = Some reason
    /\ outcome (ttsPromise (pre ++ ev :: post)) = Rejected reason.
Proof.
  intros Hf Hquiet Hev.
  apply feasibleFrom_app in Hf as [Hpre Hrest].
  destruct (quiet_opened pre _ (waiting_start) Hpre Hquiet) as [Hw Hjob].
  simpl in Hrest. apply andb_true_iff in Hrest as [Hcan _].
  unfold EdgeTTS.ttsPromise. rewrite foldl_app. simpl.
  set (s := foldl onEvent _ pre) in *.
  assert (exists reason,
            rejection (existsb isOpen pre) ev = Some reason
            /\ outcome (onEvent s ev) = Rejected reason) as (reason & Hr & Hout).
  { destruct Hw as (Hout & Hnone & Htimer).
    destruct s as [c [t|]]; unfold outcome in *; simpl in *.
    - specialize (Htimer ltac:(eauto)).
      assert (existsb isOpen pre = true) as ->.
      { destruct Hjob as [[[]|] _]; [by eexists|done|done]. }
      destruct ev as [|m|data|m|code reason|[|]]; simpl in *; try done.
      + rewrite Hout. eauto.
      + apply negb_true_iff, Z.eqb_neq in Hev.
        rewrite !decide_False by done. simpl. rewrite Hout. eauto.
      + congruence.
      + rewrite Hcan. simpl. rewrite Hout. eauto.
    - destruct (Hnone eq_refl) as [Hp _].
      assert (existsb isOpen pre = false) as ->.
      { destruct (existsb isOpen pre); [|done].
        destruct Hjob as [_ []]; [by right|done]. }
      unfold EdgeTTS.onEvent.
      destruct ev as [|m|data|m|code reason|[|]]; simpl in *; try done.
      + rewrite Hp. simpl. eauto.
      + apply negb_true_iff, Z.eqb_neq in Hev.
        rewrite !decide_False, Hp by done. simpl. eauto.
      + rewrite Hcan, Hp. simpl. eauto. }
  exists reason. split; [done|].
  rewrite outcome_stable_all; rewrite Hout; done.
Qed.

(** A closure with the code 1000 that comes before [turn.end] settles
    nothing and clears the timers: the promise is pending, and of the
    events only a socket error can still occur, so that without one the
    call never returns. *)
Theorem normal_close_without_end (pre : list wsEvent) (reason : string) :
  feasible (pre ++ [Close 1000 reason]) = true ->
  Forall (fun e => decisive e = false) pre ->
  outcome (ttsPromise (pre ++ [Close 1000 reason])) = Pending
  /\ forall ev, canOccur (ttsPromise (pre ++ [Close 1000 reason])) ev = true ->
                exists message, ev = Error message.
Proof.
  intros Hf Hquiet.
  apply feasibleFrom_app in Hf as [Hpre Hrest].
  destruct (quiet_opened pre _ (waiting_start) Hpre Hquiet) as [Hw _].
  simpl in Hrest. apply andb_true_iff in Hrest as [Hcan _].
  unfold EdgeTTS.ttsPromise. rewrite foldl_app. simpl.
  set (s := foldl onEvent _ pre) in *.
  destruct Hw as (Hout & Hnone & Htimer).
  destruct s as [c [t|]]; unfold outcome in *; simpl in *.
  - split; [done|].
    intros [|m|data|m|code r|[|]]; simpl; try done; eauto.
  - destruct (Hnone eq_refl) as [Hp _]. unfold EdgeTTS.onEvent. simpl.
    rewrite Hp. simpl. split; [done|].
    intros [|m|data|m|code r|[|]]; simpl; try done; eauto.
Qed.

End Settling.

(** ** Batches: no survivor, the order of the merge, the cache *)

Section NoSurvivor.

Variable generateTaskId : string -> string -> string -> string -> string -> string.
Variable AUDIO_DIR : string.
Variable STATIC_DOMAIN : string.
Variable synthesisError : string -> option error.
Variable finishOrder : nat -> nat.
Variable tmpDirPath : string.
Variable segments_ : list TTSParams.
Variable task : option string.
Variable w0 : world.

Local Abbreviation startJob' := (startJob generateTaskId tmpDirPath).
Local Abbreviation finishJob' :=
  (finishJob generateTaskId synthesisError tmpDirPath segments_ task).
Local Abbreviation admission' := (admission generateTaskId tmpDirPath segments_).
Local Abbreviation rounds' :=
  (rounds generateTaskId synthesisError finishOrder tmpDirPath segments_ task).
Local Abbreviation keyOf' := (keyOf generateTaskId).
Local Abbreviation outputOf' := (outputOf tmpDirPath).

Hypothesis Hfresh : Forall (fun seg => cache w0 !! keyOf' seg = None) segments_.
Hypothesis Hfail :
  forall i, (i < length segments_)%nat -> synthesisError (outputOf' i) <> None.

(** Nothing is listed and nothing is cached. *)
Local Abbreviation barren :=
  (fun st : pool * world => fileList st.1 = [] /\ cache st.2 = cache w0).

Lemma barren_startJob st index seg :
  barren st -> segments_ !! index = Some seg -> barren (startJob' index seg st).
Proof.
  destruct st as [p w]. intros [Hfiles Hcache] Hseg. simpl in *.
  unfold startJob. rewrite Hcache.
  eapply Forall_lookup in Hfresh; [|done]. simpl in Hfresh.
  by rewrite Hfresh.
Qed.

Lemma barren_finishJob st index seg :
  barren st -> segments_ !! index = Some seg -> barren (finishJob' index seg st).
Proof.
  destruct st as [p w]. intros [Hfiles Hcache] Hseg. simpl in *.
  apply lookup_lt_Some in Hseg. specialize (Hfail index Hseg).
  unfold finishJob. by destruct (synthesisError (outputOf' index)).
Qed.

Lemma barren_admission limit fuel : forall st,
  barren st -> barren (admission' limit fuel st).
Proof.
  induction fuel as [|fuel IH]; intros st Hb; [done|].
  simpl. case_decide; [|done].
  destruct (segments_ !! started st.1) as [seg|] eqn:Hseg; [|done].
  apply IH. by apply barren_startJob.
Qed.

Lemma barren_rounds limit fuel : forall round st,
  barren st -> barren (rounds' limit fuel round st).
Proof.
  induction fuel as [|fuel IH]; intros round st Hb; [done|].
  simpl. pose proof (barren_admission limit (length segments_) st Hb) as Hb'.
  destruct (running _ !! _) as [index|] eqn:Hi; [|done].
  destruct (segments_ !! index) as [seg|] eqn:Hseg; [|done].
  apply IH. by apply barren_finishJob.
Qed.

End NoSurvivor.

Section Batch.

Variable generateTaskId : string -> string -> string -> string -> string -> string.
Variable AUDIO_DIR : string.
Variable STATIC_DOMAIN : string.
Variable synthesisError : string -> option error.
Variable finishOrder : nat -> nat.

Local Abbreviation buildSegmentList' :=
  (buildSegmentList generateTaskId AUDIO_DIR STATIC_DOMAIN synthesisError finishOrder).
Local Abbreviation tmpDirOf := (tmpDirOf AUDIO_DIR).
Local Abbreviation keyOf' := (keyOf generateTaskId).

(** A batch in which no segment is in the cache and every session fails
    is not a partial result: [buildSegmentList] throws the error of
    [concatDirAudio], nothing is merged and the cache is as it was. *)
Theorem batch_without_survivor (segment : Segment) (segments_ : list TTSParams)
    (task : option string) (w : world) :
  Forall (fun seg => cache w !! keyOf' seg = None) segments_ ->
  (forall i, (i < length segments_)%nat ->
             synthesisError (outputOf (tmpDirOf segment) i) <> None) ->
  (buildSegmentList' segment segments_ task w).1
  = Throw (Error_ "No MP3 files found in input directory")
  /\ cache (buildSegmentList' segment segments_ task w).2 = cache w
  /\ merges (log (buildSegmentList' segment segments_ task w).2) = merges (log w).
Proof.
  intros Hfresh Hfail.
  pose proof (barren_rounds generateTaskId synthesisError finishOrder
                (tmpDirOf segment) segments_ task w Hfresh Hfail 3
                (S (length segments_)) 0%nat
                ({| fileList := []; handledLength := 0; results := ∅;
                    running := []; started := 0 |}, w) (conj eq_refl eq_refl))
    as [Hfiles Hcache].
  pose proof (runConcurrentTasks_pooled generateTaskId synthesisError
                finishOrder (tmpDirOf segment) segments_ task w)
    as [(jobs & Hlog & _ & _ & _ & _ & _ & _ & _ & _ & Heff & _) _].
  fold (runConcurrentTasks generateTaskId synthesisError finishOrder
          (tmpDirOf segment) segments_ task 3 w) in Hfiles, Hcache.
  unfold buildSegmentList. fold (tmpDirOf segment).
  destruct (runConcurrentTasks _ _ _ _ _ _ _ _) as [p w1]. simpl in *.
  unfold bind, concatDirAudio. rewrite Hfiles. simpl.
  split; [done|]. split; [done|].
  rewrite Hlog. unfold merges. rewrite flat_map_app.
  assert (flat_map (fun e => match e with
                             | ConcatAudio files _ => [files]
                             | _ => []
                             end) jobs = []) as ->; [|by rewrite app_nil_r].
  clear -Heff. induction Heff as [|e l He _ IH]; [done|].
  simpl. rewrite IH. by destruct e.
Qed.

End Batch.

(** ** [sortAudioDir] *)

Section SortFacts.

Context {A : Type} (key : A -> option Z).

Lemma insertSorted_stable (k : Z) x l :
  filter (fun a => key a = Some k) (insertSorted key x l)
  = filter (fun a => key a = Some k) (x :: l).
Proof.
  induction l as [|y l IH]; [done|]. simpl.
  destruct (before key y x) eqn:Hb; [|done].
  rewrite filter_cons, IH, !filter_cons.
  unfold before in Hb.
  destruct (key y) as [ky|] eqn:Hy; [|done].
  destruct (key x) as [kx|] eqn:Hx; [|done].
  apply bool_decide_eq_true in Hb.
  repeat case_decide; simplify_eq; try done. lia.
Qed.

Lemma sortBy_stable (k : Z) l :
  filter (fun a => key a = Some k) (sortBy key l)
  = filter (fun a => key a = Some k) l.
Proof.
  induction l as [|x l IH]; [done|].
  unfold sortBy in *. simpl.
  by rewrite insertSorted_stable, !filter_cons, IH.
Qed.

Lemma sortBy_ascending l :
  Forall (fun a => is_Some (key a)) l ->
  StronglySorted (fun a b => exists x y, key a = Some x /\ key b = Some y /\ x <= y)
                 (sortBy key l).
Proof.
  intros Hall. induction Hall as [|x l Hx Hall IH]; [constructor|].
  destruct Hx as [kx Hx]. unfold sortBy in *. simpl.
  assert (Forall (fun a => is_Some (key a)) (foldr (insertSorted key) [] l))
    as Hsome.
  { fold (sortBy key l). by rewrite sortBy_perm. }
  revert IH Hsome. generalize (foldr (insertSorted key) [] l). clear Hall.
  intros sorted Hs. induction Hs as [|y sorted Hs IH Hy]; intros Hsome.
  { repeat constructor. }
  apply Forall_cons in Hsome as [[ky Hky] Hsome].
  simpl. unfold before. rewrite Hky, Hx. case_bool_decide.
  - constructor; [by apply IH|].
    rewrite insertSorted_perm. constructor; [|done].
    exists ky, kx. repeat split; try done. lia.
  - constructor; [by constructor|].
    constructor. { exists kx, ky. repeat split; try done. lia. }
    eapply Forall_impl; [exact Hy|]. simpl.
    intros a (ky' & ka & Hky' & Hka & Hle). simplify_eq.
    exists kx, ka. repeat split; try done. lia.
Qed.

End SortFacts.

Section SortAudioDir.

(** [sortAudioDir] gives the files whose extension, in lower case, is
    [ext], each as often as it is listed, and no other file. *)
Theorem sortAudioDir_keeps (fileList_ : list string) (ext : string) :
  sortAudioDir fileList_ ext
  ≡ₚ filter (fun file => toLowerCase (extname file) = ext) fileList_.
Proof. unfold sortAudioDir. apply sortBy_perm. Qed.

(** When the name of every file kept starts with a whole number, below
    2^53 in size, the files come out in ascending order of these numbers,
    and files with the same number in the order in which they were
    listed. *)
Theorem sortAudioDir_in_order (fileList_ : list string) (ext : string) :
  Forall (fun file => exists n, fileKey file = Some n /\ Z.abs n < 2 ^ 53)
         (filter (fun file => toLowerCase (extname file) = ext) fileList_) ->
  StronglySorted keyLe (sortAudioDir fileList_ ext)
  /\ forall n, filter (fun file => fileKey file = Some n) (sortAudioDir fileList_ ext)
               = filter (fun file => fileKey file = Some n)
                   (filter (fun file => toLowerCase (extname file) = ext) fileList_).
Proof.
  intros Hall. unfold sortAudioDir. split.
  - apply (sortBy_ascending fileKey).
    eapply Forall_impl; [done|]. simpl. intros file (n & Hn & _). by eexists.
  - intros n. apply (sortBy_stable fileKey).
Qed.

End SortAudioDir.

(** ** The cache of [generateTTS] *)

Section Cached.

Variable generateTaskId : string -> string -> string -> string -> string -> string.
Variable splitText : string -> Split.
Variable franc : string -> string.
Variable getPrompt : string -> string -> string.
Variable AUDIO_DIR : string.
Variable STATIC_DOMAIN : string.
Variable now : Z.
Variable synthesisError : string -> option error.
Variable chatCompletion : string -> error + llmResponse.
Variable finishOrder : nat -> nat.

Local Abbreviation generateTTS' :=
  (generateTTS generateTaskId splitText franc getPrompt AUDIO_DIR STATIC_DOMAIN
               now synthesisError chatCompletion finishOrder).
Local Abbreviation cacheKeyOf := (cacheKeyOf generateTaskId).

(** A result that is returned and not partial is in the cache under the
    key of the request when the call is over, and the same request made
    again, for whatever task, is answered with it and does nothing else:
    no session, no request to the language model, no write. *)
Theorem generateTTS_served_again (params : EdgeSchema) (task task' : option string)
    (w w' : world) (r : TTSResult) :
  generateTTS' params task w = (Return r, w') ->
  partial r <> Some true ->
  cache w' !! cacheKeyOf params = Some r
  /\ generateTTS' params task' w' = (Return r, w').
Proof.
  intros Hrun Hpartial.
  assert (cache w' !! cacheKeyOf params = Some r) as Hcached.
  { unfold generateTTS, bind, getAudio, ret, cacheKeyOf in *.
    destruct (cache w !! _) as [c|] eqn:Hc; [by simplify_eq|].
    destruct (validateLangAndVoice _ _ _) as [[[]|e0] w1]; [|done].
    match type of Hrun with
    | (let (_, _) := ?c in _) = _ => destruct c as [[res|e1] w2]; [|done]
    end.
    destruct (validateTTSResult _ _ _) as [[r2|e2] w3]; [|done].
    case_decide as Hp.
    - by simplify_eq.
    - unfold setAudio in Hrun. simplify_eq. simpl.
      apply lookup_insert_eq. }
  split; [done|].
  unfold generateTTS, bind, getAudio. unfold cacheKeyOf in Hcached.
  by rewrite Hcached.
Qed.

End Cached.

(** ** More on [_saveSubFile] *)

Section Pieces.

Import EdgeTTS.

(** Whatever fragments the service reported, the text [_saveSubFile]
    gives a cue is a run of consecutive characters of the source text: no
    character is made up. *)
Theorem cue_texts_are_pieces (subFile_ : list subLine) (text_ : string) :
  Forall (fun cue =>
            exists i n,
              part cue
              = string_of_list_ascii
                  (take n (drop i (list_ascii_of_string text_))))
         (_saveSubFile subFile_ text_).
Proof.
  rewrite _saveSubFile_rebuild. generalize 0%nat.
  induction subFile_ as [|cue later IH]; intros cursor; [constructor|].
  rewrite rebuild_cons. constructor; [|apply IH]. simpl.
  pose proof (scanCue_spec (part cue) (nextFirst (cue :: later) 0)
                (drop cursor (list_ascii_of_string text_)) cursor 0
                EmptyString) as Hscan.
  destruct (scanCue _ _ _ _ _ _) as [out [k|]]; simpl.
  - destruct Hscan as (pre & c & post & Hrest & _ & -> & _).
    exists cursor, (length pre). rewrite Hrest, str_app_nil_l.
    by rewrite take_app_length.
  - exists cursor, (length (drop cursor (list_ascii_of_string text_))).
    by rewrite Hscan, str_app_nil_l, firstn_all.
Qed.

End Pieces.

(** ** Requests of one segment *)

Section OneSegment.

Variable generateTaskId : string -> string -> string -> string -> string -> string.
Variable splitText : string -> Split.
Variable franc : string -> string.
Variable getPrompt : string -> string -> string.
Variable AUDIO_DIR : string.
Variable STATIC_DOMAIN : string.
Variable now : Z.
Variable synthesisError : string -> option error.
Variable chatCompletion : string -> error + llmResponse.
Variable finishOrder : nat -> nat.

Local Abbreviation generateTTS' :=
  (generateTTS generateTaskId splitText franc getPrompt AUDIO_DIR STATIC_DOMAIN
               now synthesisError chatCompletion finishOrder).
Local Abbreviation cacheKeyOf := (cacheKeyOf generateTaskId).
Local Abbreviation mismatch := (mismatch franc).
Local Abbreviation getLangConfig' := (getLangConfig franc).

(** A request without the language model whose text is at most one
    segment, whose voice holds no slash and whose session succeeds: one
    session is opened, for the file named by the id in the audio
    directory, the subtitles are made from the cue file beside it, and
    the result, not marked partial, is put in the cache under the key of
    the request. *)
Theorem single_segment_trace (params : EdgeSchema) (task : option string) (w : world) :
  cache w !! cacheKeyOf params = None ->
  ~ mismatch params ->
  useLLM params = false ->
  (length_ (splitText (text params)) <= 1)%nat ->
  Forall (fun c => isNot "/" c = true) (list_ascii_of_string (voice params)) ->
  synthesisError (resolve AUDIO_DIR (generateId now (voice params) (text params)))
  = None ->
  let id_ := generateId now (voice params) (text params) in
  let output := resolve AUDIO_DIR id_ in
  let r := {| audio := STATIC_DOMAIN +:+ "/" +:+ id_;
              srt := STATIC_DOMAIN +:+ "/" +:+ replace id_ ".mp3" ".srt";
              partial := None |} in
  generateTTS' params task w
  = (Return r,
     {| cache := <[cacheKeyOf params := r]> (cache w);
        log := log w
               ++ [Synthesize output; Synthesized output true;
                   GenerateSrt (output +:+ ".json") (replace output ".mp3" ".srt");
                   CacheSet (cacheKeyOf params) r] |}).
Proof.
  intros Hc Hm Hllm Hlen _ Hok id_ output r. subst id_ output r.
  unfold cacheKeyOf in *.
  unfold generateTTS, bind, getAudio. rewrite Hc. cbn [s_text].
  rewrite validate_pass, Hllm by done.
  unfold generateWithoutLLM. cbn [p_text]. rewrite decide_True by done.
  unfold buildSegment, generateSingleVoice, runEdgeTTS, bind, emit.
  cbn [id s_text p_output]. rewrite Hok. simpl.
  unfold validateTTSResult. simpl. rewrite decide_False.
  - simpl. unfold setAudio. simpl. by rewrite <- !(assoc (++)).
  - by destruct STATIC_DOMAIN.
Qed.


End OneSegment.

(** ** The names derived from an id ([replace]) *)

Section Replace.

Lemma substring_list s : forall n m,
  list_ascii_of_string (String.substring n m s)
  = take m (drop n (list_ascii_of_string s)).
Proof.
  induction s as [|c s IH]; intros n m.
  { by destruct n, m. }
  destruct n as [|n]; destruct m as [|m]; simpl; rewrite ?IH; done.
Qed.

Lemma substring_suffix s1 s2 :
  String.substring (String.length s1) (String.length s2) (s1 +:+ s2) = s2.
Proof.
  rewrite <- (string_of_list_ascii_of_string (String.substring _ _ _)).
  rewrite substring_list, list_ascii_app, !str_length_chars.
  rewrite drop_app_length, firstn_all.
  apply string_of_list_ascii_of_string.
Qed.

(** [index] finds the first place where the pattern stands. *)
Lemma index_first pattern s1 s2 :
  pattern <> EmptyString ->
  (forall m, (m < String.length s1)%nat ->
             String.substring m (String.length pattern) (s1 +:+ pattern +:+ s2)
             <> pattern) ->
  String.index 0 pattern (s1 +:+ pattern +:+ s2) = Some (String.length s1).
Proof.
  intros Hne Hfirst.
  assert (String.substring (String.length s1) (String.length pattern)
            (s1 +:+ pattern +:+ s2) = pattern) as Hhere.
  { rewrite <- (string_of_list_ascii_of_string (String.substring _ _ _)).
    rewrite substring_list, !list_ascii_app, !str_length_chars.
    rewrite drop_app_length, take_app_length.
    apply string_of_list_ascii_of_string. }
  destruct (String.index 0 pattern (s1 +:+ pattern +:+ s2)) as [m|] eqn:Hi.
  - f_equal.
    destruct (Nat.lt_trichotomy m (String.length s1)) as [Hlt|[->|Hgt]]; [|done|].
    + apply index_correct1 in Hi. by destruct (Hfirst m Hlt).
    + by destruct (index_correct2 _ _ _ _ Hi (String.length s1) ltac:(lia) Hgt).
  - by destruct (index_correct3 0 (String.length s1) _ _ Hi Hne ltac:(lia)).
Qed.

(** [replace] changes the first occurrence of the pattern. *)
Lemma replace_first pattern replacement s1 s2 :
  pattern <> EmptyString ->
  (forall m, (m < String.length s1)%nat ->
             String.substring m (String.length pattern) (s1 +:+ pattern +:+ s2)
             <> pattern) ->
  replace (s1 +:+ pattern +:+ s2) pattern replacement
  = s1 +:+ replacement +:+ s2.
Proof.
  intros Hne Hfirst. unfold replace. rewrite index_first by done.
  rewrite substring_prefix. f_equal. f_equal.
  rewrite <- str_app_assoc, <- str_length_app.
  replace (String.length ((s1 +:+ pattern) +:+ s2) - String.length s1
           - String.length pattern)%nat with (String.length s2).
  - apply substring_suffix.
  - rewrite !str_length_app. lia.
Qed.

Lemma digits_no_dot digits tail_ : forall m,
  Forall (fun c => isDigit c = true) digits ->
  (m < length digits)%nat ->
  take 4 (drop m (digits ++ tail_)) <> list_ascii_of_string ".mp3".
Proof.
  induction digits as [|d digits IH]; intros m Hall Hm; [simpl in Hm; lia|].
  apply Forall_cons in Hall as [Hd Hall].
  destruct m as [|m]; simpl.
  - intros [= -> _]. by vm_compute in Hd.
  - apply IH; [done|]. simpl in Hm. lia.
Qed.

Lemma no_early_extension front digits : forall m,
  includes front ".mp3" = false ->
  Forall (fun c => isDigit c = true) digits ->
  (m < length (list_ascii_of_string front) + 1 + length digits)%nat ->
  take 4 (drop m (list_ascii_of_string front
                  ++ "-"%char :: digits ++ list_ascii_of_string ".mp3"))
  <> list_ascii_of_string ".mp3".
Proof.
  induction front as [|c front IH]; intros m Hno Hdigits Hm.
  - simpl in *. destruct m as [|m]; simpl; [done|].
    apply digits_no_dot; [done|lia].
  - cbn [includes] in Hno. apply orb_false_iff in Hno as [Hhere Hlater].
    destruct m as [|m].
    + rewrite drop_0. intros Heq. simpl in Heq.
      destruct front as [|c1 [|c2 [|c3 front]]]; simpl in Heq;
        simplify_eq. simpl in Hhere. by destruct front.
    + simpl. apply IH; [done|done|]. simpl in Hm. lia.
Qed.

(** The subtitle file and the directory of the pieces are named after the
    id: when [.mp3] does not occur in the voice and the part of the text
    that goes into the id, replacing [.mp3] changes the extension of the
    id to [.srt], and removes it for the directory. *)
Theorem names_from_id (now : Z) (voice text_ : string) :
  0 < now ->
  includes (voice +:+ "-" +:+ String.substring 0 10 (safeFileName text_)) ".mp3"
  = false ->
  replace (generateId now voice text_) ".mp3" ".srt"
  = voice +:+ "-" +:+ String.substring 0 10 (safeFileName text_) +:+ "-"
    +:+ showZ now +:+ ".srt"
  /\ replace (generateId now voice text_) ".mp3" EmptyString
     = voice +:+ "-" +:+ String.substring 0 10 (safeFileName text_) +:+ "-"
       +:+ showZ now.
Proof.
  intros Hnow Hno.
  destruct (showZ_digits now Hnow) as [Hdigits _].
  set (front := voice +:+ "-" +:+ String.substring 0 10 (safeFileName text_)) in *.
  assert (generateId now voice text_
          = (front +:+ "-" +:+ showZ now) +:+ ".mp3" +:+ EmptyString) as Hid.
  { unfold generateId, front. by rewrite !str_app_assoc, str_app_nil_r. }
  assert (forall m, (m < String.length (front +:+ "-" +:+ showZ now))%nat ->
            String.substring m (String.length ".mp3")
              ((front +:+ "-" +:+ showZ now) +:+ ".mp3" +:+ EmptyString)
            <> ".mp3") as Hfirst.
  { intros m Hm Heq. apply (f_equal list_ascii_of_string) in Heq.
    rewrite substring_list, str_app_nil_r, !list_ascii_app in Heq.
    simpl in Heq. rewrite <- (assoc (++)) in Heq. simpl in Heq.
    rewrite str_length_chars, !list_ascii_app, !length_app in Hm. simpl in Hm.
    by apply (no_early_extension front (list_ascii_of_string (showZ now)) m)
      in Heq; [|done|done|lia]. }
  rewrite Hid, !replace_first by done. subst front.
  by rewrite !str_app_nil_l, !str_app_nil_r, !str_app_assoc.
Qed.

End Replace.

(** ** When a batch is marked partial *)

Section Outcomes.

Variable generateTaskId : string -> string -> string -> string -> string -> string.
Variable synthesisError : string -> option error.
Variable finishOrder : nat -> nat.
Variable tmpDirPath : string.
Variable segments_ : list TTSParams.
Variable task : option string.

Local Abbreviation startJob' := (startJob generateTaskId tmpDirPath).
Local Abbreviation finishJob' :=
  (finishJob generateTaskId synthesisError tmpDirPath segments_ task).
Local Abbreviation admission' := (admission generateTaskId tmpDirPath segments_).
Local Abbreviation rounds' :=
  (rounds generateTaskId synthesisError finishOrder tmpDirPath segments_ task).
Local Abbreviation keyOf' := (keyOf generateTaskId).
Local Abbreviation outputOf' := (outputOf tmpDirPath).
Local Abbreviation listed' := (listed generateTaskId tmpDirPath segments_).

Hypothesis Hkeys : NoDup (map keyOf' segments_).

(** No job was served from the cache, and a job is recorded as failed
    exactly when its session failed. *)
Local Abbreviation told :=
  (fun st : pool * world =>
     listed' st
     /\ forall i r, results st.1 !! i = Some r ->
                    (success r = true <-> synthesisError (outputOf' i) = None)).

Lemma told_startJob st seg :
  told st -> segments_ !! started st.1 = Some seg ->
  told (startJob' (started st.1) seg st).
Proof.
  intros [Hl Hres] Hseg. split; [by apply listed_startJob|].
  destruct st as [p w]. destruct Hl as (_ & _ & _ & _ & _ & _ & _ & Hfresh).
  simpl in *. rewrite (drop_S _ _ _ Hseg) in Hfresh.
  apply Forall_cons in Hfresh as [Hmiss _].
  unfold startJob. by rewrite Hmiss.
Qed.

Lemma told_finishJob st index seg :
  told st -> segments_ !! index = Some seg -> index ∈ running st.1 ->
  told (finishJob' index seg st).
Proof.
  intros [Hl Hres] Hseg Hin.
  split; [by apply listed_finishJob|].
  destruct st as [p w]. simpl in *. unfold finishJob.
  destruct (synthesisError (outputOf' index)) as [e|] eqn:Hsynth; simpl;
    intros i r; (destruct (decide (i = index)) as [->|Hne];
      [rewrite lookup_insert_eq; intros [= <-]; simpl; by rewrite Hsynth
      |rewrite lookup_insert_ne by done; apply Hres]).
Qed.

Lemma told_admission limit fuel : forall st,
  told st -> told (admission' limit fuel st).
Proof.
  induction fuel as [|fuel IH]; intros st Ht; [done|].
  simpl. case_decide; [|done].
  destruct (segments_ !! started st.1) as [seg|] eqn:Hseg; [|done].
  apply IH. by apply told_startJob.
Qed.

Lemma told_rounds limit fuel : forall round st,
  told st -> told (rounds' limit fuel round st).
Proof.
  induction fuel as [|fuel IH]; intros round st Ht; [done|].
  simpl. pose proof (told_admission limit (length segments_) st Ht) as Ht'.
  destruct (running _ !! _) as [index|] eqn:Hi; [|done].
  destruct (segments_ !! index) as [seg|] eqn:Hseg; [|done].
  apply IH. apply told_finishJob; [done|done|].
  by eapply list_elem_of_lookup_2.
Qed.

End Outcomes.

Section Partial.

Variable generateTaskId : string -> string -> string -> string -> string -> string.
Variable AUDIO_DIR : string.
Variable STATIC_DOMAIN : string.
Variable synthesisError : string -> option error.
Variable finishOrder : nat -> nat.

Local Abbreviation buildSegmentList' :=
  (buildSegmentList generateTaskId AUDIO_DIR STATIC_DOMAIN synthesisError finishOrder).
Local Abbreviation runConcurrentTasks' :=
  (runConcurrentTasks generateTaskId synthesisError finishOrder).
Local Abbreviation tmpDirOf := (tmpDirOf AUDIO_DIR).
Local Abbreviation keyOf' := (keyOf generateTaskId).

(** When the segments of a batch have different keys, none of them in the
    cache, the result of the batch says whether it is partial, and it is
    marked partial exactly when the session of some segment failed. *)
Theorem partial_exactly_when_failed (segment : Segment)
    (segments_ : list TTSParams) (task : option string) (w : world)
    (r : TTSResult) :
  NoDup (map keyOf' segments_) ->
  Forall (fun seg => cache w !! keyOf' seg = None) segments_ ->
  (buildSegmentList' segment segments_ task w).1 = Return r ->
  (partial r = Some true \/ partial r = Some false)
  /\ (partial r = Some true
      <-> exists i, (i < length segments_)%nat
                    /\ synthesisError (outputOf (tmpDirOf segment) i) <> None).
Proof.
  intros Hkeys Hfresh Hret.
  pose proof (buildSegmentList_trace generateTaskId AUDIO_DIR STATIC_DOMAIN
                synthesisError finishOrder segment segments_ task w)
    as (tail & _ & Htail).
  simpl in Htail. rewrite Hret in Htail. destruct Htail as [_ ->].
  pose proof (runConcurrentTasks_pooled generateTaskId synthesisError
                finishOrder (tmpDirOf segment) segments_ task w)
    as [(jobs & _ & _ & _ & _ & _ & _ & _ & _ & Hall & _) [Hrun Hstarted]].
  simpl in Hall, Hrun, Hstarted.
  assert (forall i r0,
            results (runConcurrentTasks' (tmpDirOf segment) segments_ task 3 w).1
              !! i = Some r0 ->
            (success r0 = true
             <-> synthesisError (outputOf (tmpDirOf segment) i) = None))
    as Htold.
  { unfold runConcurrentTasks.
    apply (told_rounds generateTaskId synthesisError finishOrder
             (tmpDirOf segment) segments_ task Hkeys).
    split; [by apply listed_start|]. intros i r0. simpl.
    by rewrite lookup_empty. }
  set (p := (runConcurrentTasks' (tmpDirOf segment) segments_ task 3 w).1) in *.
  simpl. split.
  { destruct (someFailed _ _); [by left|by right]. }
  split.
  - intros [= Hsome]. unfold someFailed in Hsome.
    apply existsb_exists in Hsome as (i & Hi & Hfailed).
    apply in_seq in Hi. exists i. split; [lia|].
    destruct (results p !! i) as [r0|] eqn:Hr; [|done].
    apply negb_true_iff in Hfailed. intros Hnone.
    apply (Htold i r0 Hr) in Hnone. congruence.
  - intros (i & Hi & Hfailed). f_equal. unfold someFailed.
    apply existsb_exists. exists i. split; [apply in_seq; lia|].
    destruct (Hall i ltac:(lia)) as [Hin|[r0 Hr]].
    { rewrite Hrun in Hin. by apply elem_of_nil in Hin. }
    rewrite Hr. apply negb_true_iff.
    destruct (success r0) eqn:Hs; [|done].
    by destruct Hfailed; apply (Htold i r0 Hr).
Qed.

End Partial.

(** ** The properties at sample inputs *)

Section RetrySamples.

Import Retry Sample2.

Lemma retry_returns_first_success_witness :
  Z.of_nat 2 < 3
  /\ flaky 2 = inr 7%nat
  /\ (forall i, (i < 2)%nat -> fails flaky logs i)
  /\ safeRunWithRetry flaky logs 3 200
     = (inr 7%nat, flat_map (retried flaky 200) (seq 0 2) ++ [Call])
  /\ calls (safeRunWithRetry flaky logs 3 200).2 = 3%nat
  /\ 2 * slept (safeRunWithRetry flaky logs 3 200).2
     = 200 * (Z.of_nat 2 * (Z.of_nat 2 + 1)).
Proof.
  assert (forall i, (i < 2)%nat -> fails flaky logs i) as Hfails.
  { intros i Hi. destruct i as [|[|i]]; [by eexists..|lia]. }
  split; [lia|]. split; [reflexivity|]. split; [exact Hfails|].
  apply (retry_returns_first_success flaky logs 3 200 2 7%nat);
    [lia|reflexivity|exact Hfails].
Defined.

Lemma retry_gives_up_witness :
  0 < 3
  /\ (forall i, Z.of_nat i < 3 -> fails down logs i)
  /\ exists err,
       down (Z.to_nat 3 - 1) = inl err
       /\ safeRunWithRetry down logs 3 200
          = (inl (Caught err),
             flat_map (retried down 200) (seq 0 (Z.to_nat 3 - 1))
             ++ [Call; OnError err 3])
       /\ calls (safeRunWithRetry down logs 3 200).2 = Z.to_nat 3
       /\ 2 * slept (safeRunWithRetry down logs 3 200).2 = 200 * (3 * (3 - 1)).
Proof.
  assert (forall i, Z.of_nat i < 3 -> fails down logs i) as Hfails.
  { intros i _. by eexists. }
  split; [lia|]. split; [exact Hfails|].
  apply (retry_gives_up down logs 3 200); [lia|exact Hfails].
Defined.

Lemma retry_handler_throws_witness :
  Z.of_nat 0 < 3
  /\ (forall i, (i < 0)%nat -> fails down rethrows i)
  /\ down 0 = inl "down"
  /\ rethrows "down" (Z.of_nat 0 + 1) = Some "handler: down"
  /\ safeRunWithRetry down rethrows 3 200
     = (inl (Caught "handler: down"),
        flat_map (retried down 200) (seq 0 0)
        ++ [Call; OnError "down" (Z.of_nat 0 + 1)]).
Proof.
  assert (forall i, (i < 0)%nat -> fails down rethrows i) as Hfails.
  { intros i Hi. lia. }
  split; [lia|]. split; [exact Hfails|]. split; [reflexivity|].
  split; [reflexivity|].
  apply (retry_handler_throws down rethrows 3 200 0 "down" "handler: down");
    [lia|exact Hfails|reflexivity|reflexivity].
Defined.

End RetrySamples.

Section StreamSamples.

Import Stream Sample2.

Lemma stream_delivers_file_witness :
  Forall (fun ev => isEnd ev = false) reading
  /\ delivered (ops (streamWithLimit 1 reading))
     ++ buffer (streamWithLimit 1 reading) = received reading
  /\ delivered (ops (streamWithLimit 1 (reading ++ [End]))) = received reading
  /\ timer (streamWithLimit 1 (reading ++ [End])) = false.
Proof.
  assert (Forall (fun ev => isEnd ev = false) reading) as Hall.
  { repeat constructor. }
  split; [exact Hall|].
  apply (stream_delivers_file 1 reading). exact Hall.
Defined.

Lemma stream_rate_limited_witness :
  0 <= 1
  /\ 5 * Z.of_nat (length (written (ops (streamWithLimit 1 reading))))
     <= 64 * 1 * Z.of_nat (ticks reading).
Proof.
  split; [lia|]. apply (stream_rate_limited 1 reading). lia.
Defined.

Lemma stream_paused_has_chunk_witness :
  0 < 1
  /\ paused (streamWithLimit 1 [Data thirtyBytes]) = true
  /\ 64 * 1 <= 5 * Z.of_nat (length (buffer (streamWithLimit 1 [Data thirtyBytes])))
  /\ (timer (streamWithLimit 1 [Data thirtyBytes]) = true ->
      exists chunk rest,
        ops (onEvent 1 (streamWithLimit 1 [Data thirtyBytes]) Tick)
        = ops (streamWithLimit 1 [Data thirtyBytes]) ++ ResWrite chunk :: rest
        /\ Z.of_nat (length chunk) = 64 * 1 / 5
        /\ 12 <= Z.of_nat (length chunk)).
Proof.
  split; [lia|]. split; [reflexivity|].
  apply (stream_paused_has_chunk 1 [Data thirtyBytes]); [lia|reflexivity].
Defined.

Lemma stream_buffer_bounded_witness :
  0 < 1
  /\ feasibleFrom 1 (opened) reading = true
  /\ Forall (fun ev => (length (chunkOf ev) <= 30)%nat) reading
  /\ 5 * Z.of_nat (length (buffer (streamWithLimit 1 reading)))
     < 128 * 1 + 5 * Z.of_nat 30.
Proof.
  assert (Forall (fun ev => (length (chunkOf ev) <= 30)%nat) reading) as Hall.
  { repeat constructor; simpl; lia. }
  split; [lia|]. split; [reflexivity|]. split; [exact Hall|].
  apply (stream_buffer_bounded 1 30 reading); [lia|reflexivity|exact Hall].
Defined.

End StreamSamples.

Section NameSamples.

Import Sample Sample2.

Lemma generateId_names_a_file_witness :
  0 < now
  /\ Forall (fun c => isNot "/" c = true) (list_ascii_of_string aria)
  /\ basename (resolve AUDIO_DIR (generateId now aria "Hello, world!"))
     = generateId now aria "Hello, world!"
  /\ extname (resolve AUDIO_DIR (generateId now aria "Hello, world!")) = ".mp3"
  /\ parseName (resolve AUDIO_DIR (generateId now aria "Hello, world!"))
     = aria +:+ "-" +:+ String.substring 0 10 (safeFileName "Hello, world!")
       +:+ "-" +:+ showZ now.
Proof.
  assert (Forall (fun c => isNot "/" c = true) (list_ascii_of_string aria))
    as Hvoice.
  { repeat constructor. }
  split; [reflexivity|]. split; [exact Hvoice|].
  apply (generateId_names_a_file AUDIO_DIR now aria "Hello, world!");
    [reflexivity|exact Hvoice].
Defined.

Lemma names_from_id_witness :
  0 < now
  /\ includes (aria +:+ "-" +:+ String.substring 0 10 (safeFileName "Hello, world!"))
              ".mp3" = false
  /\ replace (generateId now aria "Hello, world!") ".mp3" ".srt"
     = aria +:+ "-" +:+ String.substring 0 10 (safeFileName "Hello, world!")
       +:+ "-" +:+ showZ now +:+ ".srt"
  /\ replace (generateId now aria "Hello, world!") ".mp3" EmptyString
     = aria +:+ "-" +:+ String.substring 0 10 (safeFileName "Hello, world!")
       +:+ "-" +:+ showZ now.
Proof.
  split; [reflexivity|]. split; [reflexivity|].
  apply (names_from_id now aria "Hello, world!"); reflexivity.
Defined.

Lemma sortAudioDir_in_order_witness :
  Forall (fun file => exists n, fileKey file = Some n /\ Z.abs n < 2 ^ 53)
         (filter (fun file => toLowerCase (extname file) = ".mp3") pieces)
  /\ StronglySorted keyLe (sortAudioDir pieces ".mp3")
  /\ forall n,
       filter (fun file => fileKey file = Some n) (sortAudioDir pieces ".mp3")
       = filter (fun file => fileKey file = Some n)
           (filter (fun file => toLowerCase (extname file) = ".mp3") pieces).
Proof.
  assert (Forall (fun file => exists n, fileKey file = Some n /\ Z.abs n < 2 ^ 53)
                 (filter (fun file => toLowerCase (extname file) = ".mp3") pieces))
    as Hall.
  { repeat constructor; eexists; (split; [reflexivity|reflexivity]). }
  split; [exact Hall|].
  apply (sortAudioDir_in_order pieces ".mp3"). exact Hall.
Defined.

End NameSamples.

Section FrameSamples.

Import EdgeTTS Sample Sample2.

Lemma audio_after_first_separator_witness :
  (forall j, (j < length frameHeader)%nat ->
             ~ occursAt (frameHeader ++ separator ++ frameBody) separator j)
  /\ audioData (frameHeader ++ separator ++ frameBody) = frameBody.
Proof.
  assert (forall j, (j < length frameHeader)%nat ->
            ~ occursAt (frameHeader ++ separator ++ frameBody) separator j)
    as Hfirst.
  { intros j Hj Hocc. destruct j as [|[|j]];
      [discriminate Hocc|discriminate Hocc|simpl in Hj; lia]. }
  split; [exact Hfirst|].
  apply (audio_after_first_separator frameHeader frameBody). exact Hfirst.
Defined.

Lemma audio_without_separator_witness :
  (forall j, ~ occursAt frameBody separator j)
  /\ audioData frameBody = drop 11 frameBody.
Proof.
  assert (forall j, ~ occursAt frameBody separator j) as Hnone.
  { intros j Hocc. apply (f_equal length) in Hocc.
    rewrite length_take in Hocc.
    assert (length (drop j frameBody) <= 3)%nat
      by (rewrite length_drop; simpl; lia).
    change (length separator) with 12%nat in Hocc. lia. }
  split; [exact Hnone|].
  apply (audio_without_separator frameBody). exact Hnone.
Defined.

Lemma rejection_reason_witness :
  feasible parseMetadata saving "Hello, world!" (requestIdOf sixteenBytes)
           ([Open] ++ Timeout TurnTimer :: []) = true
  /\ Forall (fun e => decisive e = false) [Open]
  /\ abnormal (Timeout TurnTimer) = true
  /\ exists reason,
       rejection (existsb isOpen [Open]) (Timeout TurnTimer) = Some reason
       /\ outcome (ttsPromise parseMetadata saving "Hello, world!"
                              (requestIdOf sixteenBytes)
                              ([Open] ++ Timeout TurnTimer :: []))
          = Rejected reason.
Proof.
  assert (Forall (fun e => decisive e = false) [Open]) as Hquiet.
  { repeat constructor. }
  split; [reflexivity|]. split; [exact Hquiet|]. split; [reflexivity|].
  apply (rejection_reason parseMetadata saving "Hello, world!"
           (requestIdOf sixteenBytes) [Open] [] (Timeout TurnTimer));
    [reflexivity|exact Hquiet|reflexivity].
Defined.

Lemma normal_close_without_end_witness :
  feasible parseMetadata saving "Hello, world!" (requestIdOf sixteenBytes)
           ([Open] ++ [Close 1000 EmptyString]) = true
  /\ Forall (fun e => decisive e = false) [Open]
  /\ outcome (ttsPromise parseMetadata saving "Hello, world!"
                         (requestIdOf sixteenBytes)
                         ([Open] ++ [Close 1000 EmptyString])) = Pending.
Proof.
  assert (Forall (fun e => decisive e = false) [Open]) as Hquiet.
  { repeat constructor. }
  split; [reflexivity|]. split; [exact Hquiet|].
  apply (normal_close_without_end parseMetadata saving "Hello, world!"
           (requestIdOf sixteenBytes) [Open] EmptyString);
    [reflexivity|exact Hquiet].
Defined.

Lemma subtitle_text_preserved_iff_witness :
  cues <> []
  /\ "Hello, world!" <> EmptyString
  /\ (concatParts (_saveSubFile cues "Hello, world!") = "Hello, world!"
      <-> everyScanStops (list_ascii_of_string "Hello, world!") cues 0 = true).
Proof.
  split; [discriminate|]. split; [discriminate|].
  apply (subtitle_text_preserved_iff cues "Hello, world!"); discriminate.
Defined.

End FrameSamples.

Section BatchSamples.

Import Sample Sample2.

Lemma batch_without_survivor_witness :
  Forall (fun seg => cache emptyWorld !! keyOf generateTaskId seg = None)
         twoSegments
  /\ (forall i, (i < length twoSegments)%nat ->
        alwaysFails (outputOf (tmpDirOf AUDIO_DIR theSegment) i) <> None)
  /\ (buildSegmentList generateTaskId AUDIO_DIR STATIC_DOMAIN alwaysFails inOrder
        theSegment twoSegments None emptyWorld).1
     = Throw (Error_ "No MP3 files found in input directory").
Proof.
  assert (Forall (fun seg => cache emptyWorld !! keyOf generateTaskId seg = None)
                 twoSegments) as Hfresh.
  { repeat constructor. }
  assert (forall i, (i < length twoSegments)%nat ->
            alwaysFails (outputOf (tmpDirOf AUDIO_DIR theSegment) i) <> None)
    as Hfail.
  { intros i _. discriminate. }
  split; [exact Hfresh|]. split; [exact Hfail|].
  apply (batch_without_survivor generateTaskId AUDIO_DIR STATIC_DOMAIN
           alwaysFails inOrder theSegment twoSegments None emptyWorld);
    [exact Hfresh|exact Hfail].
Defined.

Lemma merge_in_index_order_witness :
  NoDup (map (keyOf generateTaskId) twoSegments)
  /\ Forall (fun seg => cache emptyWorld !! keyOf generateTaskId seg = None)
            twoSegments
  /\ (buildSegmentList generateTaskId AUDIO_DIR STATIC_DOMAIN allFine inOrder
        theSegment twoSegments None emptyWorld).1
     = Return {| audio := STATIC_DOMAIN +:+ "/" +:+ id theSegment;
                 srt := STATIC_DOMAIN +:+ "/" +:+ replace (id theSegment) ".mp3" ".srt";
                 partial := Some false |}
  /\ exists jobs,
       log (buildSegmentList generateTaskId AUDIO_DIR STATIC_DOMAIN allFine inOrder
              theSegment twoSegments None emptyWorld).2
       = log emptyWorld ++ jobs
         ++ [ConcatAudio
               (map (outputOf (tmpDirOf AUDIO_DIR theSegment))
                    (survivors
                       (results
                          (runConcurrentTasks generateTaskId allFine inOrder
                             (tmpDirOf AUDIO_DIR theSegment) twoSegments None 3
                             emptyWorld).1)
                       (length twoSegments)))
               (resolve AUDIO_DIR (id theSegment));
             ConcatSrt
               (map (fun i => outputOf (tmpDirOf AUDIO_DIR theSegment) i +:+ ".json")
                    (survivors
                       (results
                          (runConcurrentTasks generateTaskId allFine inOrder
                             (tmpDirOf AUDIO_DIR theSegment) twoSegments None 3
                             emptyWorld).1)
                       (length twoSegments)))
               (replace (resolve AUDIO_DIR (id theSegment)) ".mp3" ".srt")]
         ++ from_option (fun taskId => [UpdateProgress taskId percent100]) [] None
       /\ merges jobs = [].
Proof.
  assert (NoDup (map (keyOf generateTaskId) twoSegments)) as Hkeys.
  { apply (bool_decide_unpack _). by vm_compute. }
  assert (Forall (fun seg => cache emptyWorld !! keyOf generateTaskId seg = None)
                 twoSegments) as Hfresh.
  { repeat constructor. }
  split; [exact Hkeys|]. split; [exact Hfresh|]. split; [by vm_compute|].
  apply (merge_in_index_order generateTaskId AUDIO_DIR STATIC_DOMAIN allFine
           inOrder theSegment twoSegments None emptyWorld
           {| audio := STATIC_DOMAIN +:+ "/" +:+ id theSegment;
              srt := STATIC_DOMAIN +:+ "/" +:+ replace (id theSegment) ".mp3" ".srt";
              partial := Some false |});
    [exact Hkeys|exact Hfresh|by vm_compute].
Defined.

Lemma generateTTS_served_again_witness :
  run allFine inOrder (request "Hello." aria false) None emptyWorld
  = (Return {| audio := "/en-US-AriaNeural-Hello.-1700000000000.mp3";
               srt := "/en-US-AriaNeural-Hello.-1700000000000.srt";
               partial := None |},
     (run allFine inOrder (request "Hello." aria false) None emptyWorld).2)
  /\ None <> Some true
  /\ run allFine inOrder (request "Hello." aria false) (Some "task")
         (run allFine inOrder (request "Hello." aria false) None emptyWorld).2
     = (Return {| audio := "/en-US-AriaNeural-Hello.-1700000000000.mp3";
                  srt := "/en-US-AriaNeural-Hello.-1700000000000.srt";
                  partial := None |},
        (run allFine inOrder (request "Hello." aria false) None emptyWorld).2).
Proof.
  assert (run allFine inOrder (request "Hello." aria false) None emptyWorld
          = (Return {| audio := "/en-US-AriaNeural-Hello.-1700000000000.mp3";
                       srt := "/en-US-AriaNeural-Hello.-1700000000000.srt";
                       partial := None |},
             (run allFine inOrder (request "Hello." aria false) None emptyWorld).2))
    as Hrun.
  { by vm_compute. }
  split; [exact Hrun|]. split; [discriminate|].
  apply (generateTTS_served_again generateTaskId splitText franc getPrompt
           AUDIO_DIR STATIC_DOMAIN now allFine chatCompletion inOrder
           (request "Hello." aria false) None (Some "task") emptyWorld
           (run allFine inOrder (request "Hello." aria false) None emptyWorld).2);
    [exact Hrun|discriminate].
Defined.

Lemma single_segment_trace_witness :
  cache emptyWorld !! cacheKeyOf generateTaskId (request "Hello." aria false) = None
  /\ ~ mismatch franc (request "Hello." aria false)
  /\ (length_ (splitText "Hello.") <= 1)%nat
  /\ Forall (fun c => isNot "/" c = true) (list_ascii_of_string aria)
  /\ (run allFine inOrder (request "Hello." aria false) None emptyWorld).1
     = Return {| audio := "/en-US-AriaNeural-Hello.-1700000000000.mp3";
                 srt := "/en-US-AriaNeural-Hello.-1700000000000.srt";
                 partial := None |}.
Proof.
  assert (~ mismatch franc (request "Hello." aria false)) as Hfit.
  { intros [Hlang _]. by apply Hlang. }
  assert (Forall (fun c => isNot "/" c = true) (list_ascii_of_string aria))
    as Hvoice.
  { repeat constructor. }
  split; [reflexivity|]. split; [exact Hfit|]. split; [simpl; lia|].
  split; [exact Hvoice|].
  unfold run.
  rewrite (single_segment_trace generateTaskId splitText franc getPrompt
             AUDIO_DIR STATIC_DOMAIN now allFine chatCompletion inOrder
             (request "Hello." aria false) None emptyWorld);
    [by vm_compute|reflexivity|exact Hfit|reflexivity|simpl; lia|exact Hvoice
    |reflexivity].
Defined.


Lemma single_segment_failure_LLM_witness :
  cache emptyWorld !! cacheKeyOf generateTaskId (request "Hello." aria true) = None
  /\ ~ mismatch franc (request "Hello." aria true)
  /\ (length_ (splitText (trim "Hello.")) <= 1)%nat
  /\ forall r w',
       generateTTS generateTaskId splitText franc getPrompt AUDIO_DIR
         STATIC_DOMAIN now alwaysFails chatCompletion inOrder
         (request "Hello." aria true) None emptyWorld = (Return r, w') ->
       partial r = None.
Proof.
  assert (~ mismatch franc (request "Hello." aria true)) as Hfit.
  { intros [Hlang _]. by apply Hlang. }
  split; [reflexivity|]. split; [exact Hfit|]. split; [simpl; lia|].
  apply (single_segment_failure_LLM generateTaskId splitText franc getPrompt
           AUDIO_DIR STATIC_DOMAIN now alwaysFails chatCompletion inOrder
           (request "Hello." aria true) None emptyWorld);
    [reflexivity|exact Hfit|reflexivity|simpl; lia].
Defined.

Lemma partial_exactly_when_failed_witness :
  NoDup (map (keyOf generateTaskId) twoSegments)
  /\ Forall (fun seg => cache emptyWorld !! keyOf generateTaskId seg = None)
            twoSegments
  /\ (buildSegmentList generateTaskId AUDIO_DIR STATIC_DOMAIN secondFails inOrder
        theSegment twoSegments None emptyWorld).1
     = Return {| audio := STATIC_DOMAIN +:+ "/" +:+ id theSegment;
                 srt := STATIC_DOMAIN +:+ "/" +:+ replace (id theSegment) ".mp3" ".srt";
                 partial := Some true |}
  /\ (Some true = Some true
      <-> exists i, (i < length twoSegments)%nat
                    /\ secondFails (outputOf (tmpDirOf AUDIO_DIR theSegment) i)
                       <> None).
Proof.
  assert (NoDup (map (keyOf generateTaskId) twoSegments)) as Hkeys.
  { apply (bool_decide_unpack _). by vm_compute. }
  assert (Forall (fun seg => cache emptyWorld !! keyOf generateTaskId seg = None)
                 twoSegments) as Hfresh.
  { repeat constructor. }
  split; [exact Hkeys|]. split; [exact Hfresh|]. split; [by vm_compute|].
  apply (partial_exactly_when_failed generateTaskId AUDIO_DIR STATIC_DOMAIN
           secondFails inOrder theSegment twoSegments None emptyWorld
           {| audio := STATIC_DOMAIN +:+ "/" +:+ id theSegment;
              srt := STATIC_DOMAIN +:+ "/" +:+ replace (id theSegment) ".mp3" ".srt";
              partial := Some true |});
    [exact Hkeys|exact Hfresh|by vm_compute].
Defined.

End BatchSamples.
